(** * gutter: implicit complete-binary-tree containers

    A shallow embedding of [gutter_base.h], [gutter_retrieve.h],
    [gutter_apply.h] and the stress test [test_gutter_retrieve_sum.cpp],
    and the properties of the two trees built on the shared geometry.

    Modelling conventions.
    - [INDEX_T] is [std::size_t]; indices are [nat], that is, [size_t]
      arithmetic without wrap-around.  The only decrement of the code,
      [functor(i2--)] in the covering walk, follows a visit of [i2], and
      on a valid range the walk visits cells of the buffer only (lemma
      [covering_nodes_in_buffer]), so it is never applied to zero.
    - [RESULT_T* heap] is a raw pointer shifted by one cell; the memory it
      addresses is a total function from indices to values.  The cells
      [1 .. 2n-1] are the allocated buffer.
    - A functor object is the state it carries (or the memory it points
      to); its [operator()] is a function from a node index and that state
      to the new state.
    - Every loop is bounded by a [fuel] argument and yields [None] when the
      bound is hit; the theorems show that enough fuel yields [Some].
    - The stress test writes to [std::cout] and draws from [rand()]: its
      output is the list of the items written, and the values drawn are
      an argument.  Its [RESULT_T] is a signed integer type ([int] in
      [main]), where an addition that leaves the limits of the type is
      undefined: such a value is [None], and so is every sum it enters. *)

From Stdlib Require Import Arith Lia List ZArith Bool ZifyNat ZifyBool Morphisms.
From Stdlib Require String Ascii Eqdep_dec.
From AAC_tactics Require Import AAC.
Import ListNotations.

Ltac Zify.zify_post_hook ::= Z.div_mod_to_equations.

(** ** Operation functors *)

(** [FUNCTOR_T]: [op()] is [identity], [op(a, b)] is [combine a b]. *)
Class FUNCTOR_T (T : Type) : Type := {
  identity : T;
  combine : T -> T -> T
}.

(** [template <typename T> struct add], at unbounded integers. *)
Definition add : FUNCTOR_T Z := {| identity := 0%Z; combine := Z.add |}.

(** [template <typename T> struct mult], at unbounded integers. *)
Definition mult : FUNCTOR_T Z := {| identity := 1%Z; combine := Z.mul |}.

(** An integer type [T] whose values are the integers from
    [std::numeric_limits<T>::min()], here [lo], to
    [std::numeric_limits<T>::max()], here [hi]. *)
Section Limits.
Variables lo hi : Z.
Hypothesis lo_le_hi : (lo <=? hi)%Z = true.

Record integer : Type := Integer {
  value : Z;
  value_in_range : ((lo <=? value) && (value <=? hi))%Z = true
}.

Definition numeric_limits_min : integer :=
  Integer lo (andb_true_intro (conj (Z.leb_refl lo) lo_le_hi)).

Definition numeric_limits_max : integer :=
  Integer hi (andb_true_intro (conj lo_le_hi (Z.leb_refl hi))).

(** [std::min(a, b)] is [(b < a) ? b : a]. *)
Definition std_min (a b : integer) : integer :=
  if (value b <? value a)%Z then b else a.

(** [std::max(a, b)] is [(a < b) ? b : a]. *)
Definition std_max (a b : integer) : integer :=
  if (value a <? value b)%Z then b else a.

(** [template <typename T> struct min] *)
Definition min : FUNCTOR_T integer :=
  {| identity := numeric_limits_max; combine := std_min |}.

(** [template <typename T> struct max] *)
Definition max : FUNCTOR_T integer :=
  {| identity := numeric_limits_min; combine := std_max |}.

End Limits.
Arguments value {lo hi} _.

(** A signed integer type [T] with the limits [lo] and [hi].  An
    arithmetic result outside the limits is undefined: the operation has
    no value, here [None], and neither has an operation on its result. *)
Section Signed.
Variables lo hi : Z.

(** The value [v] in the type [T], when [T] has it. *)
Definition of_Z (v : Z) : option (integer lo hi) :=
  match bool_dec ((lo <=? v) && (v <=? hi))%Z true with
  | left H => Some (Integer lo hi v H)
  | right _ => None
  end.

(** [arg1 + arg2] *)
Definition plus (arg1 arg2 : option (integer lo hi)) : option (integer lo hi) :=
  match arg1, arg2 with
  | Some a, Some b => of_Z (value a + value b)
  | _, _ => None
  end.

(** [template <typename T> struct add], at the signed type [T]. *)
Definition add_signed : FUNCTOR_T (option (integer lo hi)) :=
  {| identity := of_Z 0; combine := plus |}.

End Signed.

(** Sequencing of bounded computations. *)
Definition bind {A B : Type} (m : option A) (k : A -> option B) : option B :=
  match m with
  | Some a => k a
  | None => None
  end.

Notation "'let*' x ':=' m 'in' k" := (bind m (fun x => k))
  (at level 10, x name, m at level 100, k at level 200).

(** A name that is read where no declaration of it is in scope: reading
    it yields no value. *)
Definition undeclared {A : Type} : option A := None.

(** ** The tree engine *)

Module gutter_base.

(** Modelled from the spec: [msb] of [BitTwiddles.h], the bit-scan primitive
    "highest power of two <= v" ([highestPowerOfTwoLE]).  The header is not
    part of the sources; zero, which has no such power, is sent to zero. *)
Definition msb (v : nat) : nat :=
  if v =? 0 then 0 else 2 ^ Nat.log2 v.

Definition index_parent (n : nat) : nat := n / 2.
Definition index_lbranch (n : nat) : nat := 2 * n.
Definition index_rbranch (n : nat) : nat := 2 * n + 1.
Definition index_islbranch (index : nat) : bool := index mod 2 =? 0.
Definition index_first_of_row (index : nat) : nat := msb index.

Definition index_nth_leaf (_size n : nat) : nat :=
  let index_deepest_lvl_1st := index_first_of_row (2 * _size - 1) in
  n + index_deepest_lvl_1st
    - (if n + index_deepest_lvl_1st <? 2 * _size then 0 else _size).

(** [while (index_parent(index) >= row_1st) index = index_parent(index);] *)
Fixpoint index_ancestor_in_row (fuel index row_1st : nat) : option nat :=
  match fuel with
  | 0 => None
  | S fuel' =>
      if row_1st <=? index_parent index
      then index_ancestor_in_row fuel' (index_parent index) row_1st
      else Some index
  end.

(** The state of the base class: the memory behind [heap] and [_size]. *)
Record t (T : Type) : Type := Build {
  heap : nat -> T;
  _size : nat
}.
Arguments Build {T} _ _.
Arguments heap {T} _ _.
Arguments _size {T} _.

(** [binarray[i] = v] *)
Definition store {T : Type} (h : nat -> T) (i : nat) (v : T) : nat -> T :=
  fun j => if j =? i then v else h j.

(** [std::fill(heap+1, heap+2*_size, v)] *)
Definition fill {T : Type} (h : nat -> T) (_size : nat) (v : T) : nat -> T :=
  fun j => if (1 <=? j) && (j <? 2 * _size) then v else h j.

Section Traversals.
Context {F : Type} (functor : nat -> F -> F).

(** [for (INDEX_T j = lo; j <= hi; ++j) functor(j);] *)
Definition for_each_index (lo hi : nat) (f : F) : F :=
  fold_left (fun f j => functor j f) (seq lo (S hi - lo)) f.

(** The one-index leaf-up walk. *)
Fixpoint act_on_all_ancestors_leafup (fuel index : nat) (f : F) : option F :=
  match fuel with
  | 0 => None
  | S fuel' =>
      if 0 <? index
      then act_on_all_ancestors_leafup fuel' (index_parent index)
             (functor index f)
      else Some f
  end.

(** The loop [for (INDEX_T i=1; i<index; i*=2)] with loop variable [i]. *)
Fixpoint rootdown_loop (fuel i index : nat) (f : F) : option F :=
  match fuel with
  | 0 => None
  | S fuel' =>
      if i <? index
      then let* a := index_ancestor_in_row fuel' index i in
           rootdown_loop fuel' (i * 2) index (functor a f)
      else Some f
  end.

(** The one-index root-down walk. *)
Definition act_on_all_ancestors_rootdown (fuel index : nat) (f : F)
    : option F :=
  rootdown_loop fuel 1 index f.

Definition act_on_all_ancestors (fuel index : nat) (f : F) : option F :=
  act_on_all_ancestors_leafup fuel index f.

(** The loop [while (i1 > 0)] of the two-index leaf-up walk. *)
Fixpoint leafup_pair_loop (fuel i1 i2 : nat) (f : F) : option F :=
  match fuel with
  | 0 => None
  | S fuel' =>
      if 0 <? i1
      then leafup_pair_loop fuel' (index_parent i1) (index_parent i2)
             (for_each_index i1 i2 f)
      else Some f
  end.

(** The two-index [act_on_all_ancestors_leafup]. *)
Definition act_on_all_ancestors_leafup_pair
    (_size fuel i1 i2 : nat) (f : F) : option F :=
  if i2 <? i1
  then let* last := index_ancestor_in_row fuel (2 * _size - 1)
                      (index_first_of_row i1) in
       leafup_pair_loop fuel (index_parent i1) i2 (for_each_index i1 last f)
  else leafup_pair_loop fuel i1 i2 f.

(** The loop [for (INDEX_T i=1; i<=i1; i*=2)] of the two-index root-down
    walk. *)
Fixpoint rootdown_pair_loop (_size fuel i i1 i2 : nat) (f : F) : option F :=
  match fuel with
  | 0 => None
  | S fuel' =>
      if i <=? i1
      then let* lo := index_ancestor_in_row fuel' i1 i in
           let* hi := index_ancestor_in_row fuel'
                        (if i <=? i2 then i2 else 2 * _size - 1) i in
           rootdown_pair_loop _size fuel' (i * 2) i1 i2
             (for_each_index lo hi f)
      else Some f
  end.

(** The two-index [act_on_all_ancestors_rootdown]. *)
Definition act_on_all_ancestors_rootdown_pair
    (_size fuel i1 i2 : nat) (f : F) : option F :=
  rootdown_pair_loop _size fuel 1 i1 i2 f.

(** Second half of one round of the covering loop: the right bound moves
    up one generation.  [next] is the rest of the [while (true)] loop; a
    [break] leaves the loop for the final [functor(i1)]. *)
Definition shift_right_bound
    (next : nat -> nat -> F -> option F) (i1 i2 : nat) (f : F) : option F :=
  if i1 =? i2 then Some (functor i1 f)
  else if index_islbranch i2
  then let f := functor i2 f in
       let i2 := i2 - 1 in
       if i1 =? i2 then Some (functor i1 f)
       else next i1 (index_parent i2) f
  else next i1 (index_parent i2) f.

(** The [while (true)] loop of the covering walk, followed by the
    [functor(i1)] that every [break] leads to. *)
Fixpoint min_covering_loop (fuel i1 i2 : nat) (f : F) : option F :=
  match fuel with
  | 0 => None
  | S fuel' =>
      if i1 =? i2 then Some (functor i1 f)
      else if negb (index_islbranch i1)
      then let f := functor i1 f in
           let i1 := i1 + 1 in
           if i1 =? i2 then Some (functor i1 f)
           else shift_right_bound (min_covering_loop fuel')
                  (index_parent i1) i2 f
      else shift_right_bound (min_covering_loop fuel') (index_parent i1) i2 f
  end.

Definition act_on_min_covering_ancestors
    (_size fuel i1 i2 : nat) (f : F) : option F :=
  if i2 <=? i1 then Some f
  else min_covering_loop fuel (index_nth_leaf _size i1)
         (index_nth_leaf _size (i2 - 1)) f.

(** The [do ... while (i != i2)] loop, [i2] already exclusive. *)
Fixpoint leaves_loop (_size fuel i i2 : nat) (f : F) : option F :=
  match fuel with
  | 0 => None
  | S fuel' =>
      let i := if i =? 2 * _size then index_parent i else i in
      let f := functor i f in
      let i := i + 1 in
      if negb (i =? i2) then leaves_loop _size fuel' i i2 f else Some f
  end.

Definition act_on_leaves_in_order
    (_size fuel i1 i2 : nat) (f : F) : option F :=
  leaves_loop _size fuel i1 (i2 + 1) f.

End Traversals.

Section Functors.
Context {T : Type} {op : FUNCTOR_T T}.

(** [functor_get]: the state is [res], [binarray] is read only. *)
Definition functor_get (binarray : nat -> T) (i : nat) (res : T) : T :=
  combine res (binarray i).

(** [functor_apply]: the state is the memory behind [binarray]. *)
Definition functor_apply (input : T) (out : nat) (binarray : nat -> T)
    : nat -> T :=
  store binarray out (combine (binarray out) input).

(** [functor_get_to_iter]: the state is the sequence written through the
    output iterator so far. *)
Definition functor_get_to_iter (binarray : nat -> T) (index : nat)
    (iter : list T) : list T :=
  iter ++ [binarray index].

(** [functor_set_from_iter]: the state is the memory behind [binarray]
    and the rest of the input sequence; reading past its end has no
    defined result, and [None] stays [None]. *)
Definition functor_set_from_iter (index : nat)
    (st : option ((nat -> T) * list T)) : option ((nat -> T) * list T) :=
  match st with
  | Some (binarray, x :: iter) => Some (store binarray index x, iter)
  | _ => None
  end.

End Functors.

End gutter_base.

Import gutter_base.

(** ** Point-update / range-query tree *)

Module gutter_retrieve.
Section Methods.
Context {T : Type} {op : FUNCTOR_T T}.

Definition functor_update_parent (index : nat) (binarray : nat -> T)
    : nat -> T :=
  store binarray index
    (combine (binarray (index_lbranch index)) (binarray (index_rbranch index))).

(** [gutter_retrieve(INDEX_T n, FUNCTOR_T functor)]; [uninit] is the
    content of the fresh allocation. *)
Definition make (uninit : nat -> T) (n : nat) : t T :=
  Build (fill uninit n identity) n.

(** [operator[]] *)
Definition get (g : t T) (leaf_no : nat) : T :=
  heap g (index_nth_leaf (_size g) leaf_no).

(** The one-leaf [assign]. *)
Definition assign (fuel : nat) (g : t T) (leaf_no : nat) (x : T)
    : option (t T) :=
  let leaf_no := index_nth_leaf (_size g) leaf_no in
  let h := store (heap g) leaf_no x in
  let* h := act_on_all_ancestors_leafup functor_update_parent fuel
              (index_parent leaf_no) h in
  Some (Build h (_size g)).

Definition apply (fuel : nat) (g : t T) (leaf_no : nat) (x : T)
    : option (t T) :=
  let leaf_no := index_nth_leaf (_size g) leaf_no in
  let h := store (heap g) leaf_no (combine (heap g leaf_no) x) in
  let* h := act_on_all_ancestors_leafup functor_update_parent fuel
              (index_parent leaf_no) h in
  Some (Build h (_size g)).

Definition accumulate (fuel : nat) (g : t T) (leaf1 leaf2 : nat) : option T :=
  act_on_min_covering_ancestors (functor_get (heap g)) (_size g) fuel
    leaf1 leaf2 identity.

(** The range [assign]; returns the tree and the advanced iterator. *)
Definition assign_range (fuel : nat) (g : t T) (i1 i2 : nat) (input : list T)
    : option (t T * list T) :=
  if i2 <? i1 then Some (g, input)
  else if i1 =? i2 then Some (g, input)
  else
    let i1 := index_nth_leaf (_size g) i1 in
    let i2 := index_nth_leaf (_size g) (i2 - 1) in
    let* st := act_on_leaves_in_order functor_set_from_iter (_size g) fuel
                 i1 i2 (Some (heap g, input)) in
    let* hi := st in
    let i1 := index_parent i1 in
    let i2 := index_parent i2 in
    let* h := act_on_all_ancestors_leafup_pair functor_update_parent
                (_size g) fuel i1 i2 (fst hi) in
    Some (Build h (_size g), snd hi).

(** [gutter_retrieve(std::initializer_list<RESULT_T> source, ...)]: the
    buffer is not filled before the range assign. *)
Definition make_from_list (fuel : nat) (uninit : nat -> T) (source : list T)
    : option (t T) :=
  let* r := assign_range fuel (Build uninit (length source)) 0
              (length source) source in
  Some (fst r).

End Methods.
End gutter_retrieve.

(** ** Range-update / point-query tree *)

Module gutter_apply.
Section Methods.
Context {T : Type} {op : FUNCTOR_T T}.

(** [consolidate_to_children], the private method that no other method
    calls. *)
Definition consolidate_to_children (g : t T) (index : nat) : t T :=
  let h := heap g in
  let h :=
    store h (index_lbranch index)
      (combine (h (index_lbranch index)) (h index)) in
  let h :=
    store h (index_rbranch index)
      (combine (h (index_rbranch index)) (h index)) in
  Build (store h index identity) (_size g).

(** [functor_consolidate::operator()(INDEX_T in)].  The parameter is
    [in], here [in_]; the body is the body of [consolidate_to_children]
    and reads [index], which neither the functor nor the class around it
    declares, so a call has no result.  The state is the array behind
    [binarray], or [None] once a call had no result. *)
Definition functor_consolidate (in_ : nat) (binarray : option (nat -> T))
    : option (nat -> T) :=
  let* binarray := binarray in
  let* index := undeclared in
  let binarray :=
    store binarray (index_lbranch index)
      (combine (binarray (index_lbranch index)) (binarray index)) in
  let binarray :=
    store binarray (index_rbranch index)
      (combine (binarray (index_rbranch index)) (binarray index)) in
  Some (store binarray index identity).

Definition make (uninit : nat -> T) (n : nat) : t T :=
  Build (fill uninit n identity) n.

(** The one-leaf [apply]. *)
Definition apply (g : t T) (leaf_no : nat) (x : T) : t T :=
  let l := index_nth_leaf (_size g) leaf_no in
  Build (store (heap g) l (combine (heap g l) x)) (_size g).

Definition assign (fuel : nat) (g : t T) (leaf_no : nat) (x : T)
    : option (t T) :=
  let leaf_no := index_nth_leaf (_size g) leaf_no in
  let* st := act_on_all_ancestors_rootdown functor_consolidate fuel
               (index_parent leaf_no) (Some (heap g)) in
  let* h := st in
  Some (Build (store h leaf_no (combine (h leaf_no) x)) (_size g)).

(** [operator[]] *)
Definition get (fuel : nat) (g : t T) (leaf_no : nat) : option T :=
  act_on_all_ancestors (functor_get (heap g)) fuel
    (index_nth_leaf (_size g) leaf_no) identity.

(** The range [apply]. *)
Definition apply_range (fuel : nat) (g : t T) (i1 i2 : nat) (x : T)
    : option (t T) :=
  let* h := act_on_min_covering_ancestors (functor_apply x) (_size g) fuel
              i1 i2 (heap g) in
  Some (Build h (_size g)).

(** [copy]; returns the tree and the sequence written through [output]. *)
Definition copy (fuel : nat) (g : t T) (i1 i2 : nat) (output : list T)
    : option (t T * list T) :=
  if i2 <? i1 then Some (g, output)
  else if i1 =? i2 then Some (g, output)
  else
    let i1 := index_nth_leaf (_size g) i1 in
    let i2 := index_nth_leaf (_size g) (i2 - 1) in
    let* st := act_on_all_ancestors_rootdown_pair functor_consolidate
                 (_size g) fuel (index_parent i1) (index_parent i2)
                 (Some (heap g)) in
    let* h := st in
    let* out := act_on_leaves_in_order (functor_get_to_iter h) (_size g) fuel
                  i1 i2 output in
    Some (Build h (_size g), out).

End Methods.
End gutter_apply.

(** ** The stress test of the point-update tree *)

Module test_gutter_retrieve_sum.
Import Ascii String.

(** What the test sends to [std::cout], one item for each [<<]. *)
Inductive out_item : Type :=
| Text (s : string)
| Index (i : nat)
| Value (v : Z)
| Endl.

Definition tab : string := String "009"%char EmptyString.

(** [RESULT_T] is a signed integer type with the limits [lo] and [hi];
    [main] takes [int]. *)
Section AtSignedInteger.
Variables lo hi : Z.

Local Notation "'RESULT_T'" := (option (integer lo hi)).

#[local] Existing Instance add_signed.

(** The test class: the tree [rsh], the plain array [values] that mirrors
    it, and [size].  The flag [should_print_internals] is never read and is
    left out. *)
Record t : Type := Build {
  rsh : gutter_base.t RESULT_T;
  values : nat -> RESULT_T;
  size : nat
}.

(** [test_gutter_retrieve_sum(INDEX_T length)]; [uninit] and
    [uninit_values] are the contents of the two fresh allocations. *)
Definition make (uninit uninit_values : nat -> RESULT_T) (length : nat) : t :=
  Build (gutter_retrieve.make (op := add_signed lo hi) uninit length)
    (fold_left
       (fun values i =>
          store values i (identity (FUNCTOR_T := add_signed lo hi)))
       (seq 0 length) uninit_values)
    length.

(** Writing [delta] to [std::cout] reads its value. *)
Definition test_add_to (fuel : nat) (s : t) (index : nat) (delta : RESULT_T)
    (should_print_results : bool) (out : list out_item)
    : option (t * list out_item) :=
  let* out :=
    if should_print_results
    then let* d := delta in
         Some (out ++ [Index index; Text " <+ "; Value (value d); Endl])%list
    else Some out in
  let* rsh' := gutter_retrieve.apply (op := add_signed lo hi) fuel (rsh s)
                 index delta in
  Some (Build rsh'
          (store (values s) index
             (combine (FUNCTOR_T := add_signed lo hi) (values s index) delta))
          (size s),
        out).

(** [while (index1<index2) { tmp2+=values[index1]; ++index1; }]; returns
    the final [index1] and [tmp2]. *)
Fixpoint sum_loop (fuel : nat) (values : nat -> RESULT_T) (index1 index2 : nat)
    (tmp2 : RESULT_T) : option (nat * RESULT_T) :=
  match fuel with
  | 0 => None
  | S fuel' =>
      if index1 <? index2
      then sum_loop fuel' values (index1 + 1) index2
             (plus lo hi tmp2 (values index1))
      else Some (index1, tmp2)
  end.

(** The comparison [tmp1 != tmp2] reads the two values. *)
Definition test_sum_range (fuel : nat) (s : t) (index1 index2 : nat)
    (should_print_results : bool) (out : list out_item)
    : option (bool * list out_item) :=
  let out :=
    if should_print_results
    then (out ++ [Text "["; Index index1; Text ", "; Index index2; Text ")";
                  Endl])%list
    else out in
  let* tmp1 := gutter_retrieve.accumulate (op := add_signed lo hi) fuel
                 (rsh s) index1 index2 in
  let* r := sum_loop fuel (values s) index1 index2 (of_Z lo hi 0) in
  let index1 := fst r in
  let tmp2 := snd r in
  let* tmp1 := tmp1 in
  let* tmp2 := tmp2 in
  let out :=
    if negb (value tmp1 =? value tmp2)%Z
    then
      let out := (out ++ [Text "FAILURE"])%list in
      let out :=
        if negb should_print_results
        then (out ++ [Text " - ["; Index index1; Text ", "; Index index2;
                      Text ")"; Endl])%list
        else (out ++ [Endl])%list in
      (out ++ [Text ("alg: " ++ tab); Value (value tmp1); Endl;
               Text ("true:" ++ tab); Value (value tmp2); Endl])%list
    else if should_print_results
    then (out ++ [Text "alg = true = "; Value (value tmp1); Endl])%list
    else out in
  Some ((value tmp1 =? value tmp2)%Z, out).

(** [for (INDEX_T j=index;j<=size;++j) if (!test_sum_range(i,j)) return;]
    over the values [jvals] of [j]; [true] when a check failed and the
    test returns. *)
Fixpoint check_row (fuel : nat) (s : t) (i : nat) (jvals : list nat)
    (out : list out_item) : option (bool * list out_item) :=
  match jvals with
  | [] => Some (false, out)
  | j :: jvals =>
      let* r := test_sum_range fuel s i j false out in
      if negb (fst r) then Some (true, snd r)
      else check_row fuel s i jvals (snd r)
  end.

(** [for (INDEX_T i=0;i<=index;++i)] around the loop above, over the
    values [ivals] of [i]. *)
Fixpoint check_rows (fuel : nat) (s : t) (index : nat) (ivals : list nat)
    (out : list out_item) : option (bool * list out_item) :=
  match ivals with
  | [] => Some (false, out)
  | i :: ivals =>
      let* r := check_row fuel s i (seq index (S (size s) - index)) out in
      if fst r then Some (true, snd r)
      else check_rows fuel s index ivals (snd r)
  end.

(** The [while (true)] loop of [stress_test].  [rand] is the sequence of
    the non-negative values that the calls of [rand()] return; the loop
    runs for as long as the sequence lasts.  The result is [true] when the
    test returned, and [false] when it is still in the loop. *)
Fixpoint stress_loop (fuel : nat) (s : t) (rand : list N)
    (out : list out_item) : option (bool * t * list out_item) :=
  match rand with
  | r1 :: r2 :: rand =>
      let index := N.to_nat (r1 mod N.of_nat (size s)) in
      let* a := test_add_to fuel s index
                  (of_Z lo hi (Z.of_N (r2 mod 200000) + 1)) true out in
      let* c := check_rows fuel (fst a) index (seq 0 (S index)) (snd a) in
      if fst c then Some (true, fst a, snd c)
      else stress_loop fuel (fst a) rand (snd c)
  | _ => Some (false, s, out)
  end.

Definition stress_test (fuel : nat) (s : t) (rand : list N)
    (out : list out_item) : option (bool * t * list out_item) :=
  let out :=
    (out ++ [Text ("Test suite:" ++ tab ++ "gutter_retrieve<T,+> class"); Endl;
             Text (tab ++ "target:" ++ tab
                   ++ "apply(T), accumulate(I,I) methods"); Endl;
             Text (tab ++ "type:" ++ tab ++ "stress test"); Endl;
             Text "Beginning Test."; Endl])%list in
  stress_loop fuel s rand out.

End AtSignedInteger.
Arguments rsh {lo hi} _.
Arguments values {lo hi} _.
Arguments size {lo hi} _.

End test_gutter_retrieve_sum.

(** ** Vocabulary of the properties *)

(** The cells of the buffer [new RESULT_T[2*n-1]] behind the shifted
    pointer. *)
Definition in_buffer (_size j : nat) : Prop := 1 <= j <= 2 * _size - 1.

(** A cell of the buffer neither of whose child indices is in the buffer. *)
Definition childless (_size j : nat) : Prop :=
  in_buffer _size j /\
  ~ in_buffer _size (index_lbranch j) /\ ~ in_buffer _size (index_rbranch j).

(** The cell of node [j] is the combination of its children's cells. *)
Definition node_ok {T : Type} {op : FUNCTOR_T T} (h : nat -> T) (j : nat)
    : Prop :=
  h j = combine (h (index_lbranch j)) (h (index_rbranch j)).

(** Every internal node holds the combination of its two children. *)
Definition consistent {T : Type} {op : FUNCTOR_T T} (g : t T) : Prop :=
  forall j, 1 <= j < _size g -> node_ok (heap g) j.

(** The mutating calls of [gutter_retrieve]. *)
Inductive call (T : Type) : Type :=
| Assign (leaf_no : nat) (x : T)
| Apply (leaf_no : nat) (x : T)
| AssignRange (i1 i2 : nat) (input : list T).
Arguments Assign {T} _ _.
Arguments Apply {T} _ _.
Arguments AssignRange {T} _ _ _.

(** The two constructors of [gutter_retrieve]. *)
Inductive ctor (T : Type) : Type :=
| Sized (n : nat)
| FromList (source : list T).
Arguments Sized {T} _.
Arguments FromList {T} _.

Definition ctor_size {T : Type} (c : ctor T) : nat :=
  match c with
  | Sized n => n
  | FromList source => length source
  end.

(** A call within the contract: leaf numbers below [n]; a range inside
    [0, n] with enough input, or a reversed or empty one. *)
Definition valid_call {T : Type} (n : nat) (c : call T) : bool :=
  match c with
  | Assign k _ => k <? n
  | Apply k _ => k <? n
  | AssignRange i1 i2 input =>
      (i2 <=? i1) || ((i2 <=? n) && (i2 - i1 <=? length input))
  end.

Definition construct {T : Type} {op : FUNCTOR_T T} (fuel : nat)
    (uninit : nat -> T) (c : ctor T) : option (t T) :=
  match c with
  | Sized n => Some (gutter_retrieve.make uninit n)
  | FromList source => gutter_retrieve.make_from_list fuel uninit source
  end.

Definition run_call {T : Type} {op : FUNCTOR_T T} (fuel : nat) (c : call T)
    (g : t T) : option (t T) :=
  match c with
  | Assign k x => gutter_retrieve.assign fuel g k x
  | Apply k x => gutter_retrieve.apply fuel g k x
  | AssignRange i1 i2 input =>
      let* r := gutter_retrieve.assign_range fuel g i1 i2 input in Some (fst r)
  end.

Fixpoint run {T : Type} {op : FUNCTOR_T T} (fuel : nat) (cs : list (call T))
    (g : t T) : option (t T) :=
  match cs with
  | [] => Some g
  | c :: cs => let* g := run_call fuel c g in run fuel cs g
  end.

(** Construction followed by a sequence of calls. *)
Definition history {T : Type} {op : FUNCTOR_T T} (fuel : nat)
    (uninit : nat -> T) (c : ctor T) (cs : list (call T)) : option (t T) :=
  let* g := construct fuel uninit c in run fuel cs g.

(** A call [apply(i1, i2, x)] of the range-update tree. *)
Record range_call (T : Type) : Type := RangeApply {
  range_lo : nat;
  range_hi : nat;
  range_val : T
}.
Arguments RangeApply {T} _ _ _.
Arguments range_lo {T} _.
Arguments range_hi {T} _.
Arguments range_val {T} _.

(** The interval [[i1, i2)] of the call contains leaf [k]. *)
Definition contains {T : Type} (k : nat) (c : range_call T) : bool :=
  (range_lo c <=? k) && (k <? range_hi c).

(** [0 <= i1 <= i2 <= n]. *)
Definition valid_range {T : Type} (n : nat) (c : range_call T) : bool :=
  (range_lo c <=? range_hi c) && (range_hi c <=? n).

Fixpoint run_ranges {T : Type} {op : FUNCTOR_T T} (fuel : nat)
    (cs : list (range_call T)) (g : t T) : option (t T) :=
  match cs with
  | [] => Some g
  | c :: cs =>
      let* g := gutter_apply.apply_range fuel g (range_lo c) (range_hi c)
                  (range_val c) in
      run_ranges fuel cs g
  end.

(** The point-update scenario of the spec, at integer sum: the tree built
    from [1..8], then [accumulate(2,5)], [apply(0,10)], [operator[](0)],
    [accumulate(0,8)]. *)
Definition point_update_scenario (fuel : nat) (uninit : nat -> Z)
    : option (Z * Z * Z) :=
  let* g := gutter_retrieve.make_from_list (op := add) fuel uninit
              [1; 2; 3; 4; 5; 6; 7; 8]%Z in
  let* a := gutter_retrieve.accumulate (op := add) fuel g 2 5 in
  let* g1 := gutter_retrieve.apply (op := add) fuel g 0 10%Z in
  let* c := gutter_retrieve.accumulate (op := add) fuel g1 0 8 in
  Some (a, gutter_retrieve.get g1 0, c).

(** Lists under concatenation: associative with a two-sided identity, and
    not commutative. *)
Definition concat_op : FUNCTOR_T (list nat) :=
  {| identity := []; combine := @app nat |}.

(** The two [apply] calls of [gutter_apply]: on one leaf and on a range. *)
Inductive update (T : Type) : Type :=
| ApplyOne (leaf_no : nat) (x : T)
| ApplyRange (i1 i2 : nat) (x : T).
Arguments ApplyOne {T} _ _.
Arguments ApplyRange {T} _ _ _.

(** A call within the contract: a leaf number below [n]; a range inside
    [0, n], or a reversed or empty one. *)
Definition valid_update {T : Type} (n : nat) (u : update T) : bool :=
  match u with
  | ApplyOne k _ => k <? n
  | ApplyRange i1 i2 _ => (i2 <=? i1) || (i2 <=? n)
  end.

Definition run_update {T : Type} {op : FUNCTOR_T T} (fuel : nat)
    (u : update T) (g : t T) : option (t T) :=
  match u with
  | ApplyOne k x => Some (gutter_apply.apply g k x)
  | ApplyRange i1 i2 x => gutter_apply.apply_range fuel g i1 i2 x
  end.

Fixpoint run_updates {T : Type} {op : FUNCTOR_T T} (fuel : nat)
    (us : list (update T)) (g : t T) : option (t T) :=
  match us with
  | [] => Some g
  | u :: us => let* g := run_update fuel u g in run_updates fuel us g
  end.

(** The values that the calls [us] combine into element [k], in call
    order. *)
Definition updates_at {T : Type} (k : nat) (us : list (update T)) : list T :=
  flat_map
    (fun u =>
       match u with
       | ApplyOne j x => if j =? k then [x] else []
       | ApplyRange i1 i2 x => if (i1 <=? k) && (k <? i2) then [x] else []
       end) us.

(** Two memories that hold the same values in the cells of the buffer. *)
Definition agree {T : Type} (n : nat) (h h' : nat -> T) : Prop :=
  forall j, in_buffer n j -> h j = h' j.

(** An associative and commutative operation with a two-sided identity. *)
Definition commutative_monoid {T : Type} (op : FUNCTOR_T T) : Prop :=
  (forall a b c : T, combine (combine a b) c = combine a (combine b c)) /\
  (forall a b : T, combine a b = combine b a) /\
  (forall a : T, combine identity a = a) /\
  (forall a : T, combine a identity = a).

(** *** Vocabulary of the proofs *)

(** Node [j] is an internal node of a tree of [n] elements. *)
Definition internal (n j : nat) : Prop := 1 <= j < n.

(** [template <typename T> struct add], at the natural numbers: the values
    of the stress test before they are cut to the limits of its type. *)
Definition add_N : FUNCTOR_T N := {| identity := 0%N; combine := N.add |}.

(** The natural number [v] in the signed type with the limits [lo] and
    [hi]. *)
Definition emb (lo hi : Z) (v : N) : option (integer lo hi) :=
  of_Z lo hi (Z.of_N v).

Section StressTestVocabulary.
Import String.
Variables lo hi : Z.

(** No addition of the stress test has overflowed so far: its tree holds,
    cell by cell, the cut values of a tree [g] of natural numbers that
    holds the aggregates, the entries of its plain array are the elements
    of [g], and these sum to [total]. *)
Definition mirrors (s : test_gutter_retrieve_sum.t lo hi) (total : N) : Prop :=
  exists g : gutter_base.t N,
    _size (test_gutter_retrieve_sum.rsh s) = test_gutter_retrieve_sum.size s /\
    _size g = test_gutter_retrieve_sum.size s /\
    consistent (op := add_N) g /\
    (forall j, in_buffer (test_gutter_retrieve_sum.size s) j ->
       heap (test_gutter_retrieve_sum.rsh s) j = emb lo hi (heap g j)) /\
    (forall k, k < test_gutter_retrieve_sum.size s ->
       test_gutter_retrieve_sum.values s k
       = emb lo hi (gutter_retrieve.get g k)) /\
    fold_left N.add
      (map (gutter_retrieve.get g)
         (seq 0 (test_gutter_retrieve_sum.size s))) 0%N = total.

(** The output holds no report of a failure. *)
Definition quiet (out : list test_gutter_retrieve_sum.out_item) : Prop :=
  ~ In (test_gutter_retrieve_sum.Text "FAILURE") out.

End StressTestVocabulary.

(** The logging functor: it records the visited node. *)
Definition visit (j : nat) (log : list nat) : list nat := log ++ [j].

(** The functor [phi] called on the nodes of [log], in order. *)
Definition apply_all {F : Type} (phi : nat -> F -> F) (log : list nat) (f : F)
    : F :=
  fold_left (fun f j => phi j f) log f.

Definition option_rel {A B : Type} (R : A -> B -> Prop)
    (x : option A) (y : option B) : Prop :=
  match x, y with
  | Some a, Some b => R a b
  | None, None => True
  | _, _ => False
  end.

Fixpoint ancestors (fuel index : nat) : list nat :=
  match fuel with
  | 0 => []
  | S fuel' =>
      if 0 <? index then index :: ancestors fuel' (index_parent index) else []
  end.

(** The node [index], its parent, ..., the root. *)
Definition path (index : nat) : list nat := ancestors index index.

(** The cells on the path of [l], combined from [l] up to the root. *)
Definition read_path {T : Type} {op : FUNCTOR_T T} (h : nat -> T) (l : nat) : T :=
  fold_left combine (map h (path l)) identity.

(** Node [j] lies between the ancestors of [i1] and of [i2] in some row. *)
Inductive covered : nat -> nat -> nat -> Prop :=
| covered_here (i1 i2 j : nat) : i1 <= j <= i2 -> covered i1 i2 j
| covered_above (i1 i2 j : nat) :
    covered (index_parent i1) (index_parent i2) j -> covered i1 i2 j.

(** Level [0] is the pair [(0, 0)] that ends the walk; level [S r] is a pair
    of nodes of the row that starts at [2 ^ r]. *)
Definition in_level (lvl i1 i2 : nat) : Prop :=
  match lvl with
  | 0 => i1 = 0 /\ i2 = 0
  | S r => 2 ^ r <= i1 /\ i1 <= i2 /\ i2 < 2 ^ S r
  end.

(** The nodes a two-index walk works on: a partial first row when the two
    bounds lie in different rows, then every row above. *)
Definition dirty (n i1 i2 j : nat) : Prop :=
  if i2 <? i1
  then i1 <= j <= n - 1 \/ covered (index_parent i1) i2 j
  else covered i1 i2 j.

(** The two shapes of a pair of bounds: both in one row, or the left bound
    one row below the right one, in the row that ends at node [n - 1]. *)
Definition pair_shape (n i1 i2 : nat) : Prop :=
  (i1 <= i2 /\ i2 < n /\ exists lvl, in_level lvl i1 i2) \/
  (i2 < i1 /\ exists r,
     in_level (S (S r)) i1 (n - 1) /\
     in_level (S r) (index_parent i1) i2 /\
     index_parent (n - 1) <= i2).

(** The combination of the cells [a], [a+1], ..., [a+len-1]. *)
Definition sum_cells {T : Type} {op : FUNCTOR_T T} (h : nat -> T) (a len : nat)
    : T :=
  fold_left combine (map h (seq a len)) identity.

(** [x] combined with itself [c] times. *)
Fixpoint times {T : Type} {op : FUNCTOR_T T} (x : T) (c : nat) : T :=
  match c with
  | 0 => identity
  | S c => combine x (times x c)
  end.

(** The counting monoid, in which the covering walk counts nodes. *)
Definition count_op : FUNCTOR_T nat := {| identity := 0; combine := Nat.add |}.

(** [1] when node [j] is on the path from [l] to the root, else [0]. *)
Definition on_path (l j : nat) : nat := count_occ Nat.eq_dec (path l) j.

(** [0] on the cells of the buffer, [1] elsewhere. *)
Definition outside_buffer (n j : nat) : nat :=
  if (1 <=? j) && (j <=? 2 * n - 1) then 0 else 1.

(** ** Geometry *)

Lemma msb_bounds (v : nat) : 1 <= v -> msb v <= v < 2 * msb v.
Proof.
  intros Hv. unfold msb.
  destruct (Nat.eqb_spec v 0) as [->|_]; [lia|].
  pose proof (Nat.log2_spec v ltac:(lia)) as [Hlo Hhi].
  rewrite Nat.pow_succ_r' in Hhi. lia.
Qed.

Lemma msb_power (v : nat) : 1 <= v -> exists r, msb v = 2 ^ r.
Proof.
  intros Hv. unfold msb.
  destruct (Nat.eqb_spec v 0) as [->|_]; [lia|].
  now exists (Nat.log2 v).
Qed.

(** The first index of the deepest row lies between [n] and [2n-1]. *)
Lemma deepest_row_bounds (n : nat) :
  1 <= n -> n <= msb (2 * n - 1) <= 2 * n - 1.
Proof.
  intros Hn. pose proof (msb_bounds (2 * n - 1) ltac:(lia)). lia.
Qed.

Lemma index_nth_leaf_deep (n k : nat) :
  k + msb (2 * n - 1) < 2 * n ->
  index_nth_leaf n k = k + msb (2 * n - 1).
Proof.
  intros H. unfold index_nth_leaf, index_first_of_row.
  destruct (Nat.ltb_spec (k + msb (2 * n - 1)) (2 * n)); lia.
Qed.

Lemma index_nth_leaf_upper (n k : nat) :
  2 * n <= k + msb (2 * n - 1) ->
  index_nth_leaf n k = k + msb (2 * n - 1) - n.
Proof.
  intros H. unfold index_nth_leaf, index_first_of_row.
  destruct (Nat.ltb_spec (k + msb (2 * n - 1)) (2 * n)); lia.
Qed.

Lemma index_nth_leaf_range (n k : nat) :
  1 <= n -> k < n -> n <= index_nth_leaf n k <= 2 * n - 1.
Proof.
  intros Hn Hk. pose proof (deepest_row_bounds n Hn).
  destruct (Nat.lt_ge_cases (k + msb (2 * n - 1)) (2 * n)).
  - rewrite index_nth_leaf_deep by assumption. lia.
  - rewrite index_nth_leaf_upper by assumption. lia.
Qed.

Lemma index_nth_leaf_inj (n k k' : nat) :
  1 <= n -> k < n -> k' < n ->
  index_nth_leaf n k = index_nth_leaf n k' -> k = k'.
Proof.
  intros Hn Hk Hk'. pose proof (deepest_row_bounds n Hn).
  destruct (Nat.lt_ge_cases (k + msb (2 * n - 1)) (2 * n));
    destruct (Nat.lt_ge_cases (k' + msb (2 * n - 1)) (2 * n));
    repeat first [ rewrite (index_nth_leaf_deep n k) by assumption
                 | rewrite (index_nth_leaf_deep n k') by assumption
                 | rewrite (index_nth_leaf_upper n k) by assumption
                 | rewrite (index_nth_leaf_upper n k') by assumption ];
    lia.
Qed.

Lemma index_nth_leaf_surj (n j : nat) :
  1 <= n -> n <= j <= 2 * n - 1 -> exists k, k < n /\ index_nth_leaf n k = j.
Proof.
  intros Hn Hj. pose proof (deepest_row_bounds n Hn).
  destruct (Nat.lt_ge_cases j (msb (2 * n - 1))).
  - exists (j + n - msb (2 * n - 1)). split; [lia|].
    rewrite index_nth_leaf_upper; lia.
  - exists (j - msb (2 * n - 1)). split; [lia|].
    rewrite index_nth_leaf_deep; lia.
Qed.

Lemma childless_iff (n j : nat) : 1 <= n -> childless n j <-> n <= j <= 2 * n - 1.
Proof.
  intros Hn. unfold childless, in_buffer, index_lbranch, index_rbranch. lia.
Qed.

(** C4. For every [n >= 1] the leaf-addressing function sends leaf [k < n]
    to cell [k + D], reduced by [n] when [k + D >= 2n], where [D] is the
    highest power of two not above [2n-1]; it is injective on the leaves,
    its image is exactly the childless cells of the buffer, and every cell
    of the buffer with a child in the buffer has both children in it. *)
Theorem index_nth_leaf_complete_tree (n : nat) (Hn : 1 <= n) :
  let D := index_first_of_row (2 * n - 1) in
  ((exists r, D = 2 ^ r) /\ D <= 2 * n - 1 < 2 * D) /\
  (forall k, k < n ->
     index_nth_leaf n k = if 2 * n <=? k + D then k + D - n else k + D) /\
  (forall k k', k < n -> k' < n ->
     index_nth_leaf n k = index_nth_leaf n k' -> k = k') /\
  (forall j, childless n j <-> exists k, k < n /\ index_nth_leaf n k = j) /\
  (forall j, in_buffer n j ->
     in_buffer n (index_lbranch j) \/ in_buffer n (index_rbranch j) ->
     in_buffer n (index_lbranch j) /\ in_buffer n (index_rbranch j)).
Proof.
  intros D. unfold D, index_first_of_row.
  split; [|split; [|split; [|split]]].
  - split; [apply msb_power; lia | apply msb_bounds; lia].
  - intros k Hk. destruct (Nat.leb_spec (2 * n) (k + msb (2 * n - 1))).
    + now apply index_nth_leaf_upper.
    + now apply index_nth_leaf_deep.
  - intros k k'. now apply index_nth_leaf_inj.
  - intros j. rewrite childless_iff by assumption. split.
    + now apply index_nth_leaf_surj.
    + intros (k & Hk & <-). now apply index_nth_leaf_range.
  - intros j. unfold in_buffer, index_lbranch, index_rbranch. lia.
Qed.

Lemma index_nth_leaf_complete_tree_witness :
  1 <= 5 /\ index_nth_leaf 5 2 = 5 /\ childless 5 5.
Proof.
  pose proof (index_nth_leaf_complete_tree 5 ltac:(lia)) as (_ & Hf & _ & Hc & _).
  split; [lia|]. split.
  - rewrite (Hf 2) by lia. reflexivity.
  - apply Hc. exists 2. split; [lia|reflexivity].
Defined.

(** ** Empty ranges *)

Section EmptyRange.
Context {T : Type} {op : FUNCTOR_T T}.

Lemma act_on_min_covering_ancestors_empty
    {F : Type} (functor : nat -> F -> F) (n fuel i : nat) (f : F) :
  act_on_min_covering_ancestors functor n fuel i i f = Some f.
Proof.
  unfold act_on_min_covering_ancestors. now rewrite Nat.leb_refl.
Qed.

(** C8. With [i1 = i2] each range operation of both trees returns the tree
    (and the iterator) it was given, whatever the loop bound, and the
    covering walk under it calls its functor on no node. *)
Theorem empty_range_is_noop (fuel : nat) (g : t T) (i : nat) :
  (forall x, gutter_apply.apply_range fuel g i i x = Some g) /\
  (forall output, gutter_apply.copy fuel g i i output = Some (g, output)) /\
  gutter_retrieve.accumulate fuel g i i = Some identity /\
  (forall input, gutter_retrieve.assign_range fuel g i i input = Some (g, input)) /\
  (forall (F : Type) (functor : nat -> F -> F) (f : F),
     act_on_min_covering_ancestors functor (_size g) fuel i i f = Some f).
Proof.
  destruct g as [h n]. repeat split.
  - intros x. unfold gutter_apply.apply_range; simpl.
    now rewrite act_on_min_covering_ancestors_empty.
  - intros output. unfold gutter_apply.copy.
    now rewrite Nat.ltb_irrefl, Nat.eqb_refl.
  - unfold gutter_retrieve.accumulate.
    apply act_on_min_covering_ancestors_empty.
  - intros input. unfold gutter_retrieve.assign_range.
    now rewrite Nat.ltb_irrefl, Nat.eqb_refl.
  - intros F functor f. apply act_on_min_covering_ancestors_empty.
Qed.

(** C9. On every tree state and for every index [i], [accumulate(i,i)] is
    [identity()], and the covering walk logs no visited node. *)
Theorem accumulate_empty_is_identity (fuel : nat) (g : t T) (i : nat) :
  gutter_retrieve.accumulate fuel g i i = Some identity /\
  act_on_min_covering_ancestors visit (_size g) fuel i i [] = Some [].
Proof.
  split.
  - unfold gutter_retrieve.accumulate.
    apply act_on_min_covering_ancestors_empty.
  - apply act_on_min_covering_ancestors_empty.
Qed.

End EmptyRange.

(** ** The concrete scenarios, at integer sum *)

Section Scenarios.
#[local] Existing Instance add.

(** C5. Range-update tree, [n = 5], sum: after [apply(1,4,10)] the reads at
    0, 1, 3, 4 give 0, 10, 10, 0.  The further [assign(2,5)] has no
    result, whatever its loop bound: its walk calls [functor_consolidate]
    on the root, and the body of that functor reads an undeclared name.
    The reads at 2 and 1 that the scenario expects after it (15 and 10)
    are never reached. *)
Theorem range_update_scenario_stops_at_assign (fuel fuel' : nat)
    (uninit : nat -> Z) :
  (let g := gutter_apply.make uninit 5 in
   let* g1 := gutter_apply.apply_range (20 + fuel) g 1 4 10%Z in
   let* a0 := gutter_apply.get (20 + fuel) g1 0 in
   let* a1 := gutter_apply.get (20 + fuel) g1 1 in
   let* a3 := gutter_apply.get (20 + fuel) g1 3 in
   let* a4 := gutter_apply.get (20 + fuel) g1 4 in
   Some ([a0; a1; a3; a4], gutter_apply.assign fuel' g1 2 5%Z))
  = Some ([0; 10; 10; 0]%Z, None).
Proof. destruct fuel' as [|[|[|fuel']]]; vm_compute; reflexivity. Qed.

(** C6, as amended. Point-update tree built from [1..8], sum:
    [accumulate(2,5)] is 12; after [apply(0,10)], [operator[](0)] is 11 and
    [accumulate(0,8)] is 46. *)
Theorem point_update_scenario_result (fuel : nat) (uninit : nat -> Z) :
  point_update_scenario (20 + fuel) uninit = Some (12, 11, 46)%Z.
Proof. vm_compute. reflexivity. Qed.

(** C6 as stated fails: the last sum is not 47. *)
Lemma point_update_scenario_not_47 :
  point_update_scenario 20 (fun _ => 0%Z) <> Some (12, 11, 47)%Z.
Proof. vm_compute. discriminate. Qed.

End Scenarios.

(** ** Every walk is a fold of its functor over the nodes it visits *)

Section Parametricity.
Context {F G : Type} (phi : nat -> F -> F) (psi : nat -> G -> G).
Context (R : F -> G -> Prop).
Hypothesis step : forall j f g, R f g -> R (phi j f) (psi j g).

Lemma act_on_all_ancestors_leafup_rel (fuel index : nat) (f : F) (g : G) :
  R f g ->
  option_rel R (act_on_all_ancestors_leafup phi fuel index f)
    (act_on_all_ancestors_leafup psi fuel index g).
Proof.
  revert index f g. induction fuel as [|fuel IH]; intros index f g H; simpl.
  - exact I.
  - destruct (0 <? index); simpl; auto.
Qed.

Lemma shift_right_bound_rel
    (next : nat -> nat -> F -> option F) (next' : nat -> nat -> G -> option G) :
  (forall i1 i2 f g, R f g -> option_rel R (next i1 i2 f) (next' i1 i2 g)) ->
  forall i1 i2 f g, R f g ->
  option_rel R (shift_right_bound phi next i1 i2 f)
    (shift_right_bound psi next' i1 i2 g).
Proof.
  intros Hnext i1 i2 f g H. unfold shift_right_bound.
  destruct (i1 =? i2); simpl; auto.
  destruct (index_islbranch i2); simpl; auto.
  destruct (i1 =? i2 - 1); simpl; auto.
Qed.

Lemma min_covering_loop_rel (fuel i1 i2 : nat) (f : F) (g : G) :
  R f g ->
  option_rel R (min_covering_loop phi fuel i1 i2 f)
    (min_covering_loop psi fuel i1 i2 g).
Proof.
  revert i1 i2 f g. induction fuel as [|fuel IH]; intros i1 i2 f g H; simpl.
  - exact I.
  - destruct (i1 =? i2); simpl; auto.
    destruct (negb (index_islbranch i1)); simpl.
    + destruct (i1 + 1 =? i2); simpl; auto.
      apply shift_right_bound_rel; auto.
    + apply shift_right_bound_rel; auto.
Qed.

Lemma act_on_min_covering_ancestors_rel (n fuel i1 i2 : nat) (f : F) (g : G) :
  R f g ->
  option_rel R (act_on_min_covering_ancestors phi n fuel i1 i2 f)
    (act_on_min_covering_ancestors psi n fuel i1 i2 g).
Proof.
  intros H. unfold act_on_min_covering_ancestors.
  destruct (i2 <=? i1); simpl; auto using min_covering_loop_rel.
Qed.

Lemma leaves_loop_rel (n fuel i i2 : nat) (f : F) (g : G) :
  R f g ->
  option_rel R (leaves_loop phi n fuel i i2 f) (leaves_loop psi n fuel i i2 g).
Proof.
  revert i f g. induction fuel as [|fuel IH]; intros i f g H; simpl.
  - exact I.
  - destruct (negb _); simpl; auto.
Qed.

End Parametricity.

Section FoldOverVisits.
Context {F : Type} (phi : nat -> F -> F).

Lemma apply_all_visit (f0 : F) (j : nat) (f : F) (log : list nat) :
  f = apply_all phi log f0 -> phi j f = apply_all phi (visit j log) f0.
Proof.
  intros ->. unfold apply_all, visit. now rewrite fold_left_app.
Qed.

Lemma option_rel_fold (f0 : F) (x : option F) (y : option (list nat)) :
  option_rel (fun f log => f = apply_all phi log f0) x y ->
  x = option_map (fun log => apply_all phi log f0) y.
Proof.
  destruct x, y; simpl; intros H; congruence || contradiction.
Qed.

Lemma act_on_all_ancestors_leafup_fold (fuel index : nat) (f : F) :
  act_on_all_ancestors_leafup phi fuel index f =
  option_map (fun log => apply_all phi log f)
    (act_on_all_ancestors_leafup visit fuel index []).
Proof.
  apply option_rel_fold, act_on_all_ancestors_leafup_rel;
    [apply apply_all_visit | reflexivity].
Qed.

Lemma act_on_min_covering_ancestors_fold (n fuel i1 i2 : nat) (f : F) :
  act_on_min_covering_ancestors phi n fuel i1 i2 f =
  option_map (fun log => apply_all phi log f)
    (act_on_min_covering_ancestors visit n fuel i1 i2 []).
Proof.
  apply option_rel_fold, act_on_min_covering_ancestors_rel;
    [apply apply_all_visit | reflexivity].
Qed.

Lemma act_on_leaves_in_order_fold (n fuel i1 i2 : nat) (f : F) :
  act_on_leaves_in_order phi n fuel i1 i2 f =
  option_map (fun log => apply_all phi log f)
    (act_on_leaves_in_order visit n fuel i1 i2 []).
Proof.
  apply option_rel_fold, leaves_loop_rel;
    [apply apply_all_visit | reflexivity].
Qed.

End FoldOverVisits.

(** ** The path from a node to the root *)

Lemma ancestors_enough (fuel fuel' index : nat) :
  index <= fuel -> index <= fuel' -> ancestors fuel index = ancestors fuel' index.
Proof.
  revert fuel' index. induction fuel as [|fuel IH]; intros fuel' index H H'.
  - assert (index = 0) as -> by lia. destruct fuel'; reflexivity.
  - destruct fuel' as [|fuel'].
    + assert (index = 0) as -> by lia. reflexivity.
    + simpl. destruct (Nat.ltb_spec 0 index); [|reflexivity].
      f_equal. unfold index_parent. apply IH; lia.
Qed.

Lemma path_0 : path 0 = [].
Proof. reflexivity. Qed.

Lemma path_unfold (l : nat) : 1 <= l -> path l = l :: path (index_parent l).
Proof.
  intros Hl. unfold path. destruct l as [|l]; [lia|].
  simpl. f_equal. unfold index_parent. apply ancestors_enough; lia.
Qed.

Lemma path_bounded (l j : nat) : In j (path l) -> 1 <= j <= l.
Proof.
  induction l as [l IH] using lt_wf_ind. intros Hj.
  destruct (Nat.eq_dec l 0) as [->|Hl]; [contradiction|].
  rewrite path_unfold in Hj by lia. destruct Hj as [<-|Hj]; [lia|].
  unfold index_parent in Hj. apply IH in Hj; lia.
Qed.

Lemma path_self (l : nat) : 1 <= l -> In l (path l).
Proof. intros Hl. rewrite path_unfold by assumption. now left. Qed.

Lemma act_on_all_ancestors_leafup_visits (fuel index : nat) (log : list nat) :
  index < fuel ->
  act_on_all_ancestors_leafup visit fuel index log = Some (log ++ path index).
Proof.
  revert index log. induction fuel as [|fuel IH]; intros index log H; [lia|].
  simpl. destruct (Nat.ltb_spec 0 index).
  - rewrite IH by (unfold index_parent; lia).
    rewrite (path_unfold index) by assumption.
    unfold visit. now rewrite <- app_assoc.
  - assert (index = 0) as -> by lia. now rewrite path_0, app_nil_r.
Qed.

(** A leaf-up walk with enough fuel is the fold over the path. *)
Lemma act_on_all_ancestors_leafup_path
    {F : Type} (phi : nat -> F -> F) (fuel index : nat) (f : F) :
  index < fuel ->
  act_on_all_ancestors_leafup phi fuel index f = Some (apply_all phi (path index) f).
Proof.
  intros H. rewrite act_on_all_ancestors_leafup_fold.
  now rewrite act_on_all_ancestors_leafup_visits.
Qed.

(** ** The ordered leaf walk *)

Ltac leaf_split n k :=
  let H := fresh "Hrow" in
  destruct (Nat.lt_ge_cases (k + msb (2 * n - 1)) (2 * n)) as [H|H];
  [ rewrite ?(index_nth_leaf_deep n k H) in *
  | rewrite ?(index_nth_leaf_upper n k H) in * ].

Lemma leaves_loop_visits (n : nat) (Hn : 1 <= n) (m : nat) :
  forall fuel k i log,
  1 <= m -> k + m <= n -> m <= fuel ->
  i = index_nth_leaf n k \/ (i = 2 * n /\ index_nth_leaf n k = n) ->
  leaves_loop visit n fuel i (index_nth_leaf n (k + m - 1) + 1) log
  = Some (log ++ map (index_nth_leaf n) (seq k m)).
Proof.
  pose proof (deepest_row_bounds n Hn) as HD.
  induction m as [|m IH]; intros fuel k i log Hm Hk Hfuel Hi; [lia|].
  destruct fuel as [|fuel]; [lia|]. cbn [leaves_loop].
  assert ((if i =? 2 * n then index_parent i else i) = index_nth_leaf n k) as ->.
  { pose proof (index_nth_leaf_range n k Hn ltac:(lia)).
    unfold index_parent.
    destruct (Nat.eqb_spec i (2 * n)); lia. }
  destruct (Nat.eq_dec m 0) as [->|Hm0].
  - replace (k + 1 - 1) with k by lia. rewrite Nat.eqb_refl. reflexivity.
  - destruct (Nat.eqb_spec (index_nth_leaf n k + 1)
                (index_nth_leaf n (k + S m - 1) + 1)) as [E|_].
    + apply Nat.add_cancel_r, index_nth_leaf_inj in E; lia.
    + cbn [negb]. replace (k + S m - 1) with (S k + m - 1) by lia.
      rewrite IH; try lia.
      * unfold visit. now rewrite <- app_assoc.
      * leaf_split n k; leaf_split n (S k); lia.
Qed.

Lemma act_on_leaves_in_order_visits (n fuel k1 k2 : nat) :
  1 <= n -> k1 < k2 <= n -> k2 - k1 <= fuel ->
  act_on_leaves_in_order visit n fuel (index_nth_leaf n k1)
    (index_nth_leaf n (k2 - 1)) []
  = Some (map (index_nth_leaf n) (seq k1 (k2 - k1))).
Proof.
  intros Hn Hk Hfuel. unfold act_on_leaves_in_order.
  replace (k2 - 1) with (k1 + (k2 - k1) - 1) by lia.
  rewrite (leaves_loop_visits n Hn); auto; lia.
Qed.

(** ** Memory *)

Lemma store_eq {T : Type} (h : nat -> T) (i : nat) (v : T) : store h i v i = v.
Proof. unfold store. now rewrite Nat.eqb_refl. Qed.

Lemma store_neq {T : Type} (h : nat -> T) (i j : nat) (v : T) :
  j <> i -> store h i v j = h j.
Proof. intros H. unfold store. now destruct (Nat.eqb_spec j i). Qed.

Lemma fill_inside {T : Type} (h : nat -> T) (n j : nat) (v : T) :
  1 <= j < 2 * n -> fill h n v j = v.
Proof.
  intros H. unfold fill.
  destruct (Nat.leb_spec 1 j); destruct (Nat.ltb_spec j (2 * n)); simpl; lia || auto.
Qed.

(** ** The aggregate invariant of the point-update tree *)

Section Aggregates.
Context {T : Type} {op : FUNCTOR_T T}.

Import gutter_retrieve.

Lemma node_ok_ext (h h' : nat -> T) (j : nat) :
  h' j = h j -> h' (2 * j) = h (2 * j) -> h' (2 * j + 1) = h (2 * j + 1) ->
  node_ok h j -> node_ok h' j.
Proof.
  unfold node_ok, index_lbranch, index_rbranch. intros -> -> ->. auto.
Qed.

Lemma apply_all_update_parent_frame (log : list nat) (h : nat -> T) (j : nat) :
  ~ In j log -> apply_all functor_update_parent log h j = h j.
Proof.
  revert h. induction log as [|i log IH]; intros h Hj; simpl; [reflexivity|].
  rewrite IH by (simpl in Hj; tauto).
  unfold functor_update_parent. apply store_neq. simpl in Hj. intuition.
Qed.

(** Recomputing the nodes of a path bottom-up repairs the invariant when it
    can only be broken on that path. *)
Lemma path_update_parent_ok (n : nat) :
  forall l h, l < n ->
  (forall j, 1 <= j < n -> ~ In j (path l) -> node_ok h j) ->
  forall j, 1 <= j < n -> node_ok (apply_all functor_update_parent (path l) h) j.
Proof.
  induction l as [l IH] using lt_wf_ind. intros h Hl Hh j Hj.
  destruct (Nat.eq_dec l 0) as [->|Hl0].
  - rewrite path_0. simpl. apply Hh; auto.
  - rewrite path_unfold by lia. simpl.
    apply IH; unfold index_parent; try lia.
    clear j Hj. intros j Hj Hnot.
    destruct (Nat.eq_dec j l) as [->|Hjl].
    + unfold node_ok, functor_update_parent, index_lbranch, index_rbranch.
      rewrite store_eq, !store_neq by lia. reflexivity.
    + assert (l <> 2 * j /\ l <> 2 * j + 1) as [H1 H2].
      { split; intros ->; apply Hnot.
        - replace (2 * j / 2) with j by lia. apply path_self; lia.
        - replace ((2 * j + 1) / 2) with j by lia. apply path_self; lia. }
      apply (node_ok_ext h).
      * unfold functor_update_parent. apply store_neq; lia.
      * unfold functor_update_parent. apply store_neq; lia.
      * unfold functor_update_parent. apply store_neq; lia.
      * apply Hh; auto. rewrite path_unfold by lia. simpl. intuition.
Qed.

(** Writing a leaf cell and walking up from its parent. *)
Lemma leaf_write_consistent (n fuel : nat) (h : nat -> T) (l : nat) (v : T) :
  1 <= n -> n <= l <= 2 * n - 1 -> n <= fuel ->
  (forall j, 1 <= j < n -> node_ok h j) ->
  exists h',
    act_on_all_ancestors_leafup functor_update_parent fuel (index_parent l)
      (store h l v) = Some h' /\
    (forall j, 1 <= j < n -> node_ok h' j) /\
    (forall j, n <= j -> h' j = store h l v j).
Proof.
  intros Hn Hl Hfuel Hh.
  rewrite act_on_all_ancestors_leafup_path by (unfold index_parent; lia).
  eexists. split; [reflexivity|]. split.
  - apply path_update_parent_ok; [unfold index_parent; lia|].
    intros j Hj Hnot. apply (node_ok_ext h); try (apply store_neq; lia).
    + apply store_neq. intros <-. apply Hnot.
      replace (index_parent (2 * j)) with j by (unfold index_parent; lia).
      apply path_self; lia.
    + apply store_neq. intros <-. apply Hnot.
      replace (index_parent (2 * j + 1)) with j by (unfold index_parent; lia).
      apply path_self; lia.
    + auto.
  - intros j Hj. apply apply_all_update_parent_frame.
    intros Hin. apply path_bounded in Hin. unfold index_parent in Hin. lia.
Qed.

End Aggregates.

(** ** The two-index leaf-up walk *)

Lemma covered_0 (i1 i2 j : nat) : covered i1 i2 j -> i1 = 0 -> i2 = 0 -> j = 0.
Proof.
  induction 1 as [i1 i2 j H|i1 i2 j _ IH]; intros -> ->; [lia|].
  now apply IH.
Qed.

Lemma in_level_parent (lvl i1 i2 : nat) :
  in_level (S lvl) i1 i2 -> in_level lvl (index_parent i1) (index_parent i2).
Proof.
  unfold index_parent. destruct lvl as [|r]; cbn [in_level Nat.pow]; lia.
Qed.

Lemma in_level_bounds (lvl i1 i2 : nat) :
  in_level (S lvl) i1 i2 -> 1 <= i1 /\ i1 <= i2 /\ i2 < 2 * i1 /\ lvl < i1.
Proof.
  cbn [in_level Nat.pow].
  pose proof (Nat.pow_gt_lin_r 2 lvl ltac:(lia)). lia.
Qed.

(** Every node above a whole row is covered by that row. *)
Lemma covered_full_row (r j : nat) :
  1 <= j < 2 ^ S r -> covered (2 ^ r) (2 ^ S r - 1) j.
Proof.
  induction r as [|r IH]; intros Hj.
  - apply covered_here. simpl in *. lia.
  - destruct (Nat.le_gt_cases (2 ^ S r) j).
    + apply covered_here. lia.
    + apply covered_above. unfold index_parent.
      replace (2 ^ S r / 2) with (2 ^ r) by (rewrite Nat.pow_succ_r'; lia).
      replace ((2 ^ S (S r) - 1) / 2) with (2 ^ S r - 1)
        by (rewrite (Nat.pow_succ_r' 2 (S r));
            pose proof (Nat.pow_nonzero 2 (S r)); lia).
      apply IH. lia.
Qed.

Section LeafUpPair.
Context {T : Type} {op : FUNCTOR_T T}.
Import gutter_retrieve.

(** One row pass: each node of [lo..hi] receives the combination of its
    children as they were before the pass. *)
Lemma for_each_update_parent (lo hi : nat) (h : nat -> T) (j : nat) :
  for_each_index functor_update_parent lo hi h j =
  if (lo <=? j) && (j <=? hi)
  then combine (h (index_lbranch j)) (h (index_rbranch j)) else h j.
Proof.
  unfold for_each_index.
  assert (forall len,
    fold_left (fun f i => functor_update_parent i f) (seq lo len) h j =
    if (lo <=? j) && (j <? lo + len)
    then combine (h (index_lbranch j)) (h (index_rbranch j)) else h j) as H.
  { induction len as [|len IH].
    - simpl. destruct (lo <=? j) eqn:E1, (j <? lo + 0) eqn:E2; simpl;
        reflexivity || lia.
    - rewrite seq_S, fold_left_app. simpl.
      unfold functor_update_parent at 1.
      destruct (Nat.eq_dec j (lo + len)) as [->|Hne].
      + rewrite store_eq.
        assert (forall c, lo + len <= c ->
          fold_left (fun f i => functor_update_parent i f) (seq lo len) h c = h c)
          as Hc.
        { intros c Hc. apply (apply_all_update_parent_frame (seq lo len)).
          rewrite in_seq. lia. }
        rewrite !Hc by (unfold index_lbranch, index_rbranch; lia).
        destruct (lo <=? lo + len) eqn:E1, (lo + len <? lo + S len) eqn:E2;
          simpl; reflexivity || lia.
      + rewrite store_neq by assumption. rewrite IH.
        destruct (lo <=? j) eqn:E1, (j <? lo + len) eqn:E2,
          (j <? lo + S len) eqn:E3; simpl; reflexivity || lia. }
  rewrite H.
  destruct (lo <=? j) eqn:E1, (j <? lo + (S hi - lo)) eqn:E2, (j <=? hi) eqn:E3;
    simpl; reflexivity || lia.
Qed.

Ltac pass_cell :=
  rewrite ?for_each_update_parent;
  unfold index_lbranch, index_rbranch, index_parent in *;
  repeat match goal with
  | |- context [?a <=? ?b] => destruct (Nat.leb_spec a b)
  end; simpl; reflexivity || lia.

(** After a pass over [lo..hi] of one row, a node that was sound or in the
    pass is sound, unless its children were in the pass. *)
Lemma row_pass_ok (lo hi : nat) (h : nat -> T) (j : nat) :
  1 <= lo -> hi < 2 * lo -> 1 <= j ->
  node_ok h j \/ lo <= j <= hi ->
  node_ok (for_each_index functor_update_parent lo hi h) j \/
  index_parent lo <= j <= index_parent hi.
Proof.
  intros Hlo Hhi Hj Hpre.
  destruct (Nat.le_gt_cases lo j) as [H1|H1];
    [destruct (Nat.le_gt_cases j hi) as [H2|H2]|].
  - left. unfold node_ok. pass_cell.
  - left. destruct Hpre as [Hpre|Hpre]; [|lia].
    apply (node_ok_ext h); [| | |assumption]; pass_cell.
  - destruct Hpre as [Hpre|Hpre]; [|lia].
    destruct (Nat.le_gt_cases lo (2 * j + 1)) as [H3|H3];
      [destruct (Nat.le_gt_cases (2 * j) hi) as [H4|H4]|].
    + right. unfold index_parent. lia.
    + left. apply (node_ok_ext h); [| | |assumption]; pass_cell.
    + left. apply (node_ok_ext h); [| | |assumption]; pass_cell.
Qed.

Lemma leafup_pair_loop_ok (n lvl : nat) :
  forall fuel i1 i2 h,
  in_level lvl i1 i2 -> i2 < n \/ lvl = 0 -> lvl < fuel ->
  exists h',
    leafup_pair_loop functor_update_parent fuel i1 i2 h = Some h' /\
    (forall j, n <= j -> h' j = h j) /\
    (forall j, 1 <= j < n -> node_ok h j \/ covered i1 i2 j -> node_ok h' j).
Proof.
  induction lvl as [|lvl IH]; intros fuel i1 i2 h Hlvl Hn Hfuel;
    (destruct fuel as [|fuel]; [lia|]).
  - destruct Hlvl as [-> ->]. simpl. exists h. split; [reflexivity|].
    split; [reflexivity|]. intros j Hj [H|H]; [assumption|].
    apply covered_0 in H; lia.
  - pose proof (in_level_bounds _ _ _ Hlvl) as (H1 & H12 & H2 & _).
    cbn [leafup_pair_loop]. destruct (Nat.ltb_spec 0 i1); [|lia].
    destruct (IH fuel (index_parent i1) (index_parent i2)
                (for_each_index functor_update_parent i1 i2 h))
      as (h' & Hrun & Hleaf & Hok).
    { now apply in_level_parent. }
    { unfold index_parent. lia. }
    { lia. }
    exists h'. split; [assumption|]. split.
    + intros j Hj. rewrite Hleaf by assumption. pass_cell.
    + intros j Hj Hpre. apply Hok; [assumption|].
      assert (node_ok h j \/ i1 <= j <= i2 \/
              covered (index_parent i1) (index_parent i2) j) as [Hc|[Hc|Hc]].
      { destruct Hpre as [Hpre|Hpre]; [tauto|]. inversion Hpre; subst; tauto. }
      * destruct (row_pass_ok i1 i2 h j ltac:(lia) ltac:(lia) ltac:(lia)
                    (or_introl Hc)) as [Hr|Hr];
          [left; exact Hr | right; now apply covered_here].
      * destruct (row_pass_ok i1 i2 h j ltac:(lia) ltac:(lia) ltac:(lia)
                    (or_intror Hc)) as [Hr|Hr];
          [left; exact Hr | right; now apply covered_here].
      * now right.
Qed.

Lemma msb_row (r v : nat) : 2 ^ r <= v < 2 ^ S r -> msb v = 2 ^ r.
Proof.
  intros H. unfold msb.
  pose proof (Nat.pow_nonzero 2 r ltac:(lia)).
  destruct (Nat.eqb_spec v 0); [lia|].
  f_equal. apply Nat.log2_unique; [lia|assumption].
Qed.

Lemma index_ancestor_in_row_here (fuel index row_1st : nat) :
  index_parent index < row_1st ->
  index_ancestor_in_row (S fuel) index row_1st = Some index.
Proof.
  intros H. simpl. destruct (Nat.leb_spec row_1st (index_parent index)); [lia|].
  reflexivity.
Qed.

Lemma index_ancestor_in_row_up (fuel index row_1st : nat) :
  row_1st <= index_parent index ->
  index_ancestor_in_row (S fuel) index row_1st =
  index_ancestor_in_row fuel (index_parent index) row_1st.
Proof.
  intros H. simpl. destruct (Nat.leb_spec row_1st (index_parent index)); [|lia].
  reflexivity.
Qed.

Lemma act_on_all_ancestors_leafup_pair_ok (n fuel i1 i2 : nat) (h : nat -> T) :
  1 <= n -> pair_shape n i1 i2 -> n < fuel ->
  exists h',
    act_on_all_ancestors_leafup_pair functor_update_parent n fuel i1 i2 h
      = Some h' /\
    (forall j, n <= j -> h' j = h j) /\
    (forall j, 1 <= j < n -> node_ok h j \/ dirty n i1 i2 j -> node_ok h' j).
Proof.
  intros Hn Hshape Hfuel.
  unfold act_on_all_ancestors_leafup_pair, dirty.
  destruct Hshape as [(H12 & H2n & lvl & Hlvl)|(H21 & r & Hrow & Hup & Hmid)].
  - destruct (Nat.ltb_spec i2 i1); [lia|].
    apply leafup_pair_loop_ok with (lvl := lvl); auto.
    destruct lvl as [|lvl]; [lia|].
    pose proof (in_level_bounds _ _ _ Hlvl). lia.
  - destruct (Nat.ltb_spec i2 i1); [|lia].
    pose proof (in_level_bounds _ _ _ Hrow) as (B1 & B2 & B3 & B4).
    pose proof (in_level_bounds _ _ _ Hup) as (C1 & C2 & C3 & C4).
    assert (index_ancestor_in_row fuel (2 * n - 1) (index_first_of_row i1)
            = Some (n - 1)) as ->.
    { unfold index_first_of_row. rewrite (msb_row (S r)).
      2:{ cbn [in_level] in Hrow. lia. }
      cbn [in_level Nat.pow] in Hrow. 
      destruct fuel as [|[|fuel]]; try lia.
      rewrite index_ancestor_in_row_up
        by (unfold index_parent; cbn [Nat.pow]; lia).
      replace (index_parent (2 * n - 1)) with (n - 1)
        by (unfold index_parent; lia).
      apply index_ancestor_in_row_here. unfold index_parent.
      cbn [Nat.pow]. lia. }
    cbn [bind].
    destruct (leafup_pair_loop_ok n (S r) fuel (index_parent i1) i2
                (for_each_index functor_update_parent i1 (n - 1) h))
      as (h' & Hrun & Hleaf & Hok); auto; try lia.
    exists h'. split; [assumption|]. split.
    + intros j Hj. rewrite Hleaf by assumption. pass_cell.
    + intros j Hj Hpre. apply Hok; [assumption|].
      destruct Hpre as [Hpre|[Hpre|Hpre]].
      * destruct (row_pass_ok i1 (n - 1) h j ltac:(lia) ltac:(lia) ltac:(lia)
                    (or_introl Hpre)) as [Hr|Hr];
          [left; exact Hr | right; apply covered_here; lia].
      * destruct (row_pass_ok i1 (n - 1) h j ltac:(lia) ltac:(lia) ltac:(lia)
                    (or_intror Hpre)) as [Hr|Hr];
          [left; exact Hr | right; apply covered_here; lia].
      * now right.
Qed.

End LeafUpPair.

(** ** Geometry of a leaf range *)

Lemma deepest_row_shape (n : nat) :
  1 <= n ->
  exists d, msb (2 * n - 1) = 2 ^ d /\
            n <= 2 ^ d <= 2 * n - 1 /\ (2 <= n -> 1 <= d) /\ (n < 2 ^ d -> 2 <= d).
Proof.
  intros Hn. destruct (msb_power (2 * n - 1)) as [d Hd]; [lia|].
  pose proof (deepest_row_bounds n Hn) as HD. rewrite Hd in HD.
  exists d. split; [assumption|]. split; [assumption|].
  split; intros H; destruct d as [|[|d]]; cbn [Nat.pow] in *; lia.
Qed.

Ltac geometry n Hn :=
  let d := fresh "d" in
  let HD := fresh "HD" in
  let HDn := fresh "HDn" in
  let Hd1 := fresh "Hd1" in
  let Hd2 := fresh "Hd2" in
  destruct (deepest_row_shape n Hn) as (d & HD & HDn & Hd1 & Hd2);
  rewrite ?HD in *;
  destruct d as [|[|d]]; cbn [Nat.pow] in *;
  [ | | pose proof (Nat.pow_nonzero 2 d ltac:(lia))].

Lemma leaf_range_shape (n k1 k2 : nat) :
  1 <= n -> k1 < k2 <= n ->
  pair_shape n (index_parent (index_nth_leaf n k1))
    (index_parent (index_nth_leaf n (k2 - 1))).
Proof.
  intros Hn Hk. unfold pair_shape, index_parent.
  leaf_split n k1; leaf_split n (k2 - 1); geometry n Hn; try lia.
  - left. split; [lia|]. split; [lia|]. exists 0.
    cbn [in_level Nat.pow]. lia.
  - left. split; [lia|]. split; [lia|]. exists 1.
    cbn [in_level Nat.pow]. lia.
  - left. split; [lia|]. split; [lia|]. exists (S (S d)).
    cbn [in_level Nat.pow]. lia.
  - right. split; [lia|]. exists d. cbn [in_level Nat.pow]. lia.
  - left. split; [lia|]. split; [lia|]. exists (S d).
    cbn [in_level Nat.pow]. lia.
Qed.

(** The parent of a written leaf is among the nodes the walk repairs. *)
Lemma written_parent_dirty (n k1 k2 k : nat) :
  1 <= n -> k1 <= k < k2 -> k2 <= n ->
  dirty n (index_parent (index_nth_leaf n k1))
    (index_parent (index_nth_leaf n (k2 - 1)))
    (index_parent (index_nth_leaf n k)).
Proof.
  intros Hn Hk Hk2. unfold dirty, index_parent.
  leaf_split n k1; leaf_split n (k2 - 1); leaf_split n k; geometry n Hn;
    try lia;
    match goal with
    | |- context [?a <? ?b] => destruct (Nat.ltb_spec a b)
    end; try lia;
    try (apply covered_here; lia);
    try (left; lia);
    try (right; apply covered_here; lia).
Qed.

(** On the whole range every internal node is repaired. *)
Lemma whole_range_dirty (n j : nat) :
  1 <= n -> 1 <= j < n ->
  dirty n (index_parent (index_nth_leaf n 0))
    (index_parent (index_nth_leaf n (n - 1))) j.
Proof.
  intros Hn Hj. unfold dirty, index_parent.
  leaf_split n 0; leaf_split n (n - 1); geometry n Hn; try lia;
    match goal with
    | |- context [?a <? ?b] => destruct (Nat.ltb_spec a b)
    end; try lia.
  - apply covered_here. lia.
  - assert (n = 2 * (2 * 2 ^ d)) as -> by lia.
    replace ((0 + 2 * (2 * 2 ^ d)) / 2) with (2 ^ S d) by (cbn [Nat.pow]; lia).
    replace ((2 * (2 * 2 ^ d) - 1 + 2 * (2 * 2 ^ d)) / 2)
      with (2 ^ S (S d) - 1) by (cbn [Nat.pow]; lia).
    apply covered_full_row. cbn [Nat.pow]. lia.
  - destruct (Nat.le_gt_cases (2 * 2 ^ d) j); [left; lia|right].
    replace ((0 + 2 * (2 * 2 ^ d)) / 2 / 2) with (2 ^ d) by lia.
    replace ((n - 1 + 2 * (2 * 2 ^ d) - n) / 2) with (2 ^ S d - 1)
      by (cbn [Nat.pow]; lia).
    apply covered_full_row. cbn [Nat.pow]. lia.
Qed.

(** ** The range assign *)

Section RangeAssign.
Context {T : Type} {op : FUNCTOR_T T}.
Import gutter_retrieve.

Lemma leaf_list_NoDup (n k m : nat) :
  1 <= n -> k + m <= n -> NoDup (map (index_nth_leaf n) (seq k m)).
Proof.
  intros Hn Hk. apply NoDup_map_NoDup_ForallPairs; [|apply seq_NoDup].
  intros a b Ha Hb. rewrite in_seq in Ha, Hb.
  apply index_nth_leaf_inj; lia.
Qed.

(** Writing an input sequence over a list of distinct cells. *)
Lemma set_from_iter_all (cells : list nat) :
  forall (h : nat -> T) (xs : list T),
  NoDup cells -> length cells <= length xs ->
  exists h',
    apply_all functor_set_from_iter cells (Some (h, xs))
      = Some (h', skipn (length cells) xs) /\
    (forall j, ~ In j cells -> h' j = h j) /\
    (forall i c, nth_error cells i = Some c -> nth_error xs i = Some (h' c)).
Proof.
  induction cells as [|c cells IH]; intros h xs Hnd Hlen.
  - exists h. split; [reflexivity|]. split; [reflexivity|].
    intros [|i] c H; discriminate.
  - destruct xs as [|x xs]; [simpl in Hlen; lia|].
    inversion Hnd as [|? ? Hc Hnd']; subst.
    destruct (IH (store h c x) xs Hnd' ltac:(simpl in Hlen; lia))
      as (h' & Hrun & Hframe & Hval).
    exists h'. split; [exact Hrun|]. split.
    + intros j Hj. rewrite Hframe by (simpl in Hj; tauto).
      apply store_neq. simpl in Hj. intuition.
    + intros [|i] c' H; simpl in H |- *.
      * injection H as <-. rewrite Hframe by assumption.
        now rewrite store_eq.
      * now apply Hval.
Qed.

Lemma assign_range_spec (fuel : nat) (g : t T) (k1 k2 : nat) (xs : list T) :
  1 <= _size g -> k1 < k2 <= _size g -> k2 - k1 <= length xs ->
  _size g < fuel ->
  exists h',
    assign_range fuel g k1 k2 xs
      = Some (Build h' (_size g), skipn (k2 - k1) xs) /\
    (forall k, k1 <= k < k2 ->
       nth_error xs (k - k1) = Some (h' (index_nth_leaf (_size g) k))) /\
    (forall j, _size g <= j ->
       (forall k, k1 <= k < k2 -> j <> index_nth_leaf (_size g) k) ->
       h' j = heap g j) /\
    (forall j, 1 <= j < _size g ->
       node_ok (heap g) j \/
       dirty (_size g) (index_parent (index_nth_leaf (_size g) k1))
         (index_parent (index_nth_leaf (_size g) (k2 - 1))) j ->
       node_ok h' j).
Proof.
  destruct g as [h n]. cbn [_size heap]. intros Hn Hk Hlen Hfuel.
  unfold assign_range. cbn [_size heap].
  destruct (Nat.ltb_spec k2 k1); [lia|].
  destruct (Nat.eqb_spec k1 k2); [lia|].
  rewrite act_on_leaves_in_order_fold.
  rewrite act_on_leaves_in_order_visits by lia.
  cbn [option_map bind].
  destruct (set_from_iter_all (map (index_nth_leaf n) (seq k1 (k2 - k1))) h xs)
    as (h1 & Hrun & Hframe & Hval).
  { apply leaf_list_NoDup; lia. }
  { now rewrite length_map, length_seq. }
  rewrite Hrun, length_map, length_seq. cbn [bind fst snd].
  destruct (act_on_all_ancestors_leafup_pair_ok n fuel
              (index_parent (index_nth_leaf n k1))
              (index_parent (index_nth_leaf n (k2 - 1))) h1 Hn
              (leaf_range_shape n k1 k2 Hn Hk) Hfuel)
    as (h' & Hwalk & Hleaf & Hok).
  rewrite Hwalk. cbn [bind]. exists h'. split; [reflexivity|].
  assert (forall j, In j (map (index_nth_leaf n) (seq k1 (k2 - k1))) <->
                    exists k, k1 <= k < k2 /\ j = index_nth_leaf n k) as Hin.
  { intros j. rewrite in_map_iff. split.
    - intros (k & <- & Hk'). rewrite in_seq in Hk'. exists k. split; [lia|auto].
    - intros (k & Hk' & ->). exists k. split; [auto|]. rewrite in_seq. lia. }
  split; [|split].
  - intros k Hk'.
    pose proof (index_nth_leaf_range n k Hn ltac:(lia)).
    rewrite Hleaf by lia. apply Hval.
    rewrite nth_error_map, nth_error_seq.
    destruct (Nat.ltb_spec (k - k1) (k2 - k1)); [|lia].
    simpl. do 2 f_equal. lia.
  - intros j Hj Hnot. rewrite Hleaf by assumption. apply Hframe.
    rewrite Hin. intros (k & Hk' & ->). now apply (Hnot k).
  - intros j Hj Hpre. apply Hok; [assumption|].
    destruct Hpre as [Hpre|Hpre]; [|now right].
    assert (forall c, index_parent c = j -> n <= c ->
              h1 c = h c \/
              dirty n (index_parent (index_nth_leaf n k1))
                (index_parent (index_nth_leaf n (k2 - 1))) j) as Hchild.
    { intros c Hc Hcn.
      destruct (in_dec Nat.eq_dec c (map (index_nth_leaf n) (seq k1 (k2 - k1))))
        as [Hw|Hw].
      - right. apply Hin in Hw. destruct Hw as (k & Hk' & ->). rewrite <- Hc.
        apply written_parent_dirty; lia.
      - left. now apply Hframe. }
    assert (h1 j = h j) as Hj1.
    { apply Hframe. rewrite Hin. intros (k & Hk' & ->).
      pose proof (index_nth_leaf_range n k Hn ltac:(lia)). lia. }
    destruct (Nat.le_gt_cases n (2 * j)) as [Hc|Hc].
    + destruct (Hchild (2 * j)) as [H1|H1];
        [unfold index_parent; lia | lia | | now right].
      destruct (Hchild (2 * j + 1)) as [H2|H2];
        [unfold index_parent; lia | lia | | now right].
      left. now apply (node_ok_ext h).
    + destruct (Nat.le_gt_cases n (2 * j + 1)) as [Hc'|Hc'].
      * destruct (Hchild (2 * j + 1)) as [H2|H2];
          [unfold index_parent; lia | lia | | now right].
        left. apply (node_ok_ext h); auto.
        apply Hframe. rewrite Hin. intros (k & Hk' & E).
        pose proof (index_nth_leaf_range n k Hn ltac:(lia)). lia.
      * left. apply (node_ok_ext h); auto;
          apply Hframe; rewrite Hin; intros (k & Hk' & E);
          pose proof (index_nth_leaf_range n k Hn ltac:(lia)); lia.
Qed.

End RangeAssign.

(** ** Histories of the point-update tree *)

Section Histories.
Context {T : Type} {op : FUNCTOR_T T}.

Hypothesis identity_twice : combine identity identity = identity.

Lemma make_consistent (uninit : nat -> T) (n : nat) :
  consistent (gutter_retrieve.make uninit n).
Proof.
  intros j Hj. cbn [gutter_retrieve.make _size heap] in *.
  unfold node_ok, index_lbranch, index_rbranch.
  rewrite !fill_inside by lia. now rewrite identity_twice.
Qed.

Lemma make_from_list_consistent (fuel : nat) (uninit : nat -> T)
    (source : list T) :
  1 <= length source -> length source < fuel ->
  exists g, gutter_retrieve.make_from_list fuel uninit source = Some g /\
            _size g = length source /\ consistent g.
Proof.
  intros Hlen Hfuel. unfold gutter_retrieve.make_from_list.
  destruct (assign_range_spec fuel (Build uninit (length source)) 0
              (length source) source)
    as (h' & Hrun & _ & _ & Hok); cbn [_size heap]; try lia.
  rewrite Hrun. cbn [bind fst]. eexists. split; [reflexivity|].
  split; [reflexivity|]. intros j Hj. cbn [_size heap] in *.
  apply Hok; [assumption|]. right.
  replace (length source - 0) with (length source) by lia.
  apply whole_range_dirty; lia.
Qed.

Lemma assign_consistent (fuel : nat) (g : t T) (k : nat) (x : T) :
  1 <= _size g -> k < _size g -> _size g < fuel -> consistent g ->
  exists g', gutter_retrieve.assign fuel g k x = Some g' /\
             _size g' = _size g /\ consistent g'.
Proof.
  destruct g as [h n]. cbn [_size heap]. intros Hn Hk Hfuel Hg.
  unfold gutter_retrieve.assign. cbn [_size heap].
  destruct (leaf_write_consistent n fuel h (index_nth_leaf n k) x)
    as (h' & Hrun & Hok & _); auto using index_nth_leaf_range; try lia.
  rewrite Hrun. cbn [bind]. eexists. split; [reflexivity|].
  split; [reflexivity|]. exact Hok.
Qed.

Lemma apply_consistent (fuel : nat) (g : t T) (k : nat) (x : T) :
  1 <= _size g -> k < _size g -> _size g < fuel -> consistent g ->
  exists g', gutter_retrieve.apply fuel g k x = Some g' /\
             _size g' = _size g /\ consistent g'.
Proof.
  destruct g as [h n]. cbn [_size heap]. intros Hn Hk Hfuel Hg.
  unfold gutter_retrieve.apply. cbn [_size heap].
  destruct (leaf_write_consistent n fuel h (index_nth_leaf n k)
              (combine (h (index_nth_leaf n k)) x))
    as (h' & Hrun & Hok & _); auto using index_nth_leaf_range; try lia.
  rewrite Hrun. cbn [bind]. eexists. split; [reflexivity|].
  split; [reflexivity|]. exact Hok.
Qed.

Lemma assign_range_consistent (fuel : nat) (g : t T) (i1 i2 : nat)
    (input : list T) :
  1 <= _size g -> valid_call (_size g) (AssignRange i1 i2 input) = true ->
  _size g < fuel -> consistent g ->
  exists r, gutter_retrieve.assign_range fuel g i1 i2 input = Some r /\
            _size (fst r) = _size g /\ consistent (fst r).
Proof.
  intros Hn Hvalid Hfuel Hg. cbn [valid_call] in Hvalid.
  destruct (Nat.le_gt_cases i2 i1) as [Hle|Hlt].
  - exists (g, input). split; [|split; [reflexivity|exact Hg]].
    unfold gutter_retrieve.assign_range.
    destruct (Nat.ltb_spec i2 i1); [reflexivity|].
    destruct (Nat.eqb_spec i1 i2); [reflexivity|lia].
  - destruct (assign_range_spec fuel g i1 i2 input)
      as (h' & Hrun & _ & _ & Hok); try lia.
    rewrite Hrun. eexists. split; [reflexivity|]. cbn [fst].
    split; [reflexivity|]. intros j Hj. cbn [_size heap] in *.
    apply Hok; [assumption|]. left. now apply Hg.
Qed.

Lemma run_consistent (fuel : nat) (cs : list (call T)) :
  forall g,
  1 <= _size g -> forallb (valid_call (_size g)) cs = true ->
  _size g < fuel -> consistent g ->
  exists g', run fuel cs g = Some g' /\ _size g' = _size g /\ consistent g'.
Proof.
  induction cs as [|c cs IH]; intros g Hn Hvalid Hfuel Hg.
  - exists g. auto.
  - cbn [forallb] in Hvalid. apply andb_prop in Hvalid as [Hc Hcs].
    assert (exists g1, run_call fuel c g = Some g1 /\
                       _size g1 = _size g /\ consistent g1)
      as (g1 & Hrun & Hsize & Hg1).
    { destruct c as [k x|k x|i1 i2 input]; cbn [run_call].
      - apply assign_consistent; auto. cbn [valid_call] in Hc. lia.
      - apply apply_consistent; auto. cbn [valid_call] in Hc. lia.
      - destruct (assign_range_consistent fuel g i1 i2 input)
          as (r & Hr & Hs & Hok); auto.
        rewrite Hr. exists (fst r). auto. }
    cbn [run]. rewrite Hrun. cbn [bind].
    destruct (IH g1) as (g' & Hrun' & Hsize' & Hg'); try rewrite Hsize; auto.
    exists g'. split; [assumption|]. split; [lia|assumption].
Qed.

Lemma history_consistent (fuel : nat) (uninit : nat -> T) (c : ctor T)
    (cs : list (call T)) :
  1 <= ctor_size c -> forallb (valid_call (ctor_size c)) cs = true ->
  ctor_size c < fuel ->
  exists g, history fuel uninit c cs = Some g /\
            _size g = ctor_size c /\ consistent g.
Proof.
  intros Hn Hvalid Hfuel. unfold history.
  assert (exists g0, construct fuel uninit c = Some g0 /\
                     _size g0 = ctor_size c /\ consistent g0)
    as (g0 & Hc & Hsize & Hg0).
  { destruct c as [n|source]; cbn [construct ctor_size] in *.
    - eexists. split; [reflexivity|]. split; [reflexivity|].
      apply make_consistent.
    - now apply make_from_list_consistent. }
  rewrite Hc. cbn [bind].
  destruct (run_consistent fuel cs g0) as (g & Hrun & Hs & Hg);
    try rewrite Hsize; auto.
  exists g. split; [assumption|]. split; [lia|assumption].
Qed.

(** C3. After either constructor and after every valid mutating call
    (point assign, point apply, range assign) each internal node of the
    point-update tree holds the combination of its two children:
    [heap[j] == op(heap[2j], heap[2j+1])] for [1 <= j < n]. *)
Theorem internal_nodes_hold_aggregates (fuel : nat) (uninit : nat -> T)
    (c : ctor T) (cs : list (call T)) :
  1 <= ctor_size c -> forallb (valid_call (ctor_size c)) cs = true ->
  ctor_size c < fuel ->
  exists g, history fuel uninit c cs = Some g /\
    forall j, 1 <= j < _size g ->
      heap g j = combine (heap g (index_lbranch j)) (heap g (index_rbranch j)).
Proof.
  intros Hn Hvalid Hfuel.
  destruct (history_consistent fuel uninit c cs Hn Hvalid Hfuel)
    as (g & Hrun & _ & Hg).
  exists g. split; [assumption|]. exact Hg.
Qed.

End Histories.

(** ** Sums of cells in a commutative monoid *)

Section Monoid.
Context {T : Type} {op : FUNCTOR_T T}.
Hypothesis combine_assoc :
  forall a b c : T, combine (combine a b) c = combine a (combine b c).
Hypothesis identity_left : forall a : T, combine identity a = a.
Hypothesis identity_right : forall a : T, combine a identity = a.

Lemma fold_combine_from (l : list T) (x : T) :
  fold_left combine l x = combine x (fold_left combine l identity).
Proof.
  revert x. induction l as [|y l IH]; intros x; simpl.
  - now rewrite identity_right.
  - rewrite IH, (IH (combine identity y)), identity_left.
    apply combine_assoc.
Qed.

Lemma sum_cells_0 (h : nat -> T) (a : nat) : sum_cells h a 0 = identity.
Proof. reflexivity. Qed.

Lemma sum_cells_1 (h : nat -> T) (a : nat) : sum_cells h a 1 = h a.
Proof. unfold sum_cells. simpl. apply identity_left. Qed.

Lemma sum_cells_app (h : nat -> T) (a l1 l2 : nat) :
  sum_cells h a (l1 + l2) = combine (sum_cells h a l1) (sum_cells h (a + l1) l2).
Proof.
  unfold sum_cells. rewrite seq_app, map_app, fold_left_app.
  apply fold_combine_from.
Qed.

Lemma sum_cells_first (h : nat -> T) (a len : nat) :
  sum_cells h a (S len) = combine (h a) (sum_cells h (S a) len).
Proof.
  change (S len) with (1 + len). rewrite sum_cells_app, sum_cells_1.
  now rewrite Nat.add_1_r.
Qed.

Lemma sum_cells_last (h : nat -> T) (a len : nat) :
  sum_cells h a (S len) = combine (sum_cells h a len) (h (a + len)).
Proof.
  replace (S len) with (len + 1) by lia.
  now rewrite sum_cells_app, sum_cells_1.
Qed.

(** The cells of a run of sound nodes sum to the cells of their children. *)
Lemma sum_cells_children (h : nat -> T) (a len : nat) :
  (forall j, a <= j < a + len -> node_ok h j) ->
  sum_cells h a len = sum_cells h (2 * a) (2 * len).
Proof.
  induction len as [|len IH]; intros H; [reflexivity|].
  rewrite sum_cells_last, IH by (intros j Hj; apply H; lia).
  replace (2 * S len) with (2 * len + 2) by lia.
  rewrite sum_cells_app. f_equal.
  rewrite (H (a + len)) by lia. unfold index_lbranch, index_rbranch.
  rewrite (sum_cells_last h _ 1), sum_cells_1.
  f_equal; f_equal; lia.
Qed.

End Monoid.

(** ** The covering walk sums the range *)

Section Covering.
Context {T : Type} {op : FUNCTOR_T T}.
Hypothesis combine_assoc :
  forall a b c : T, combine (combine a b) c = combine a (combine b c).
Hypothesis combine_comm : forall a b : T, combine a b = combine b a.
Hypothesis identity_left : forall a : T, combine identity a = a.
Hypothesis identity_right : forall a : T, combine a identity = a.

#[local] Instance combine_Associative : Associative eq combine.
Proof. intros x y z. symmetry. apply combine_assoc. Qed.

#[local] Instance combine_Commutative : Commutative eq combine.
Proof. exact combine_comm. Qed.

#[local] Instance combine_Unit : Unit eq combine identity.
Proof. split; auto. Qed.

Variable n : nat.
Variable h : nat -> T.
Hypothesis sound : forall j, 1 <= j < n -> node_ok h j.

(** The cells [a..b], inclusive. *)
Local Notation "'seg' a b" := (sum_cells h a (b + 1 - a))
  (at level 10, a at level 9, b at level 9).

Lemma seg_one (a : nat) : seg a a = h a.
Proof.
  replace (a + 1 - a) with 1 by lia. now apply sum_cells_1.
Qed.

Lemma seg_peel_left (a b : nat) :
  a <= b -> seg a b = combine (h a) (seg (a + 1) b).
Proof.
  intros H. replace (b + 1 - a) with (S (b + 1 - (a + 1))) by lia.
  rewrite sum_cells_first by assumption.
  now replace (S a) with (a + 1) by lia.
Qed.

Lemma seg_peel_right (a b : nat) :
  a <= b -> 1 <= b -> seg a b = combine (seg a (b - 1)) (h b).
Proof.
  intros H Hb. replace (b + 1 - a) with (S (b - 1 + 1 - a)) by lia.
  rewrite sum_cells_last by assumption. do 2 f_equal. lia.
Qed.

Lemma seg_children (a b : nat) :
  1 <= a -> b < n -> seg a b = seg (2 * a) (2 * b + 1).
Proof.
  intros Ha Hb. rewrite (sum_cells_children combine_assoc identity_left identity_right).
  - f_equal. lia.
  - intros j Hj. apply sound. lia.
Qed.

Ltac tests :=
  unfold index_islbranch, index_parent in *;
  repeat match goal with
  | |- context [?a =? ?b] => destruct (Nat.eqb_spec a b); cbn [negb]; try lia
  end.

Lemma min_covering_loop_same_row (fuel : nat) :
  forall i1 i2 res,
  1 <= i1 -> i1 <= i2 -> i2 <= 2 * n - 1 -> i2 < fuel ->
  min_covering_loop (functor_get h) fuel i1 i2 res
  = Some (combine res (seg i1 i2)).
Proof.
  induction fuel as [|fuel IH]; intros i1 i2 res H1 H12 H2 Hfuel; [lia|].
  cbn [min_covering_loop]. unfold shift_right_bound, functor_get.
  tests.
  all: try rewrite IH by lia.
  all: f_equal.
  - subst. now rewrite seg_one.
  - rewrite seg_children by lia.
    replace (2 * (i1 / 2)) with i1 by lia.
    replace (2 * ((i2 - 1) / 2) + 1) with (i2 - 1) by lia.
    rewrite (seg_peel_right i1 i2) by lia. aac_reflexivity.
  - rewrite seg_children by lia.
    replace (2 * (i1 / 2)) with i1 by lia.
    replace (2 * (i2 / 2) + 1) with i2 by lia. reflexivity.
  - subst. rewrite (seg_peel_left i1 (i1 + 1)) by lia.
    rewrite seg_one. aac_reflexivity.
  - rewrite seg_children by lia.
    replace (2 * ((i1 + 1) / 2)) with (i1 + 1) by lia.
    replace (2 * ((i2 - 1) / 2) + 1) with (i2 - 1) by lia.
    rewrite (seg_peel_left i1 i2), (seg_peel_right (i1 + 1) i2) by lia.
    aac_reflexivity.
  - rewrite seg_children by lia.
    replace (2 * ((i1 + 1) / 2)) with (i1 + 1) by lia.
    replace (2 * (i2 / 2) + 1) with i2 by lia.
    rewrite (seg_peel_left i1 i2) by lia. aac_reflexivity.
Qed.

(** The lower row from an even cell [2a] up to cell [2m-1], then the upper
    row from [m] to [b], is the upper row from [a] to [b]. *)
Lemma rows_join (a m b : nat) :
  1 <= a -> a <= m -> m <= n -> m <= b + 1 ->
  combine (sum_cells h (2 * a) (2 * m - 2 * a)) (seg m b) = seg a b.
Proof.
  intros Ha Ham Hmn Hmb.
  replace (2 * m - 2 * a) with (2 * (m - a)) by lia.
  rewrite <- (sum_cells_children combine_assoc identity_left identity_right)
    by (intros j Hj; apply sound; lia).
  replace (b + 1 - a) with ((m - a) + (b + 1 - m)) by lia.
  rewrite (sum_cells_app combine_assoc identity_left identity_right).
  do 2 f_equal. lia.
Qed.

Lemma rows_peel_left (a m : nat) :
  a <= 2 * m - 1 -> 1 <= m ->
  sum_cells h a (2 * m - a) = combine (h a) (sum_cells h (a + 1) (2 * m - (a + 1))).
Proof.
  intros Ha Hm. replace (2 * m - a) with (S (2 * m - (a + 1))) by lia.
  rewrite sum_cells_first by assumption.
  now replace (S a) with (a + 1) by lia.
Qed.

Lemma rows_restart (a b : nat) :
  a <= 2 * b + 1 ->
  combine (sum_cells h a (2 * (b + 1) - a)) (seg (b + 1) b) = seg a (2 * b + 1).
Proof.
  intros Ha. replace (b + 1 - (b + 1)) with 0 by lia.
  rewrite sum_cells_0, identity_right. f_equal. lia.
Qed.

Lemma rows_from_even (i1 m i2 : nat) :
  i1 mod 2 = 0 -> 2 <= i1 -> i1 <= 2 * m -> m <= n -> m <= i2 + 1 ->
  combine (sum_cells h i1 (2 * m - i1)) (seg m i2) = seg (i1 / 2) i2.
Proof.
  intros He H1 H1m Hmn Hm2.
  replace i1 with (2 * (i1 / 2)) at 1 2 by lia.
  apply rows_join; lia.
Qed.

Lemma rows_from_odd (i1 m i2 : nat) :
  i1 mod 2 <> 0 -> i1 <= 2 * m - 1 -> 1 <= m -> m <= n -> m <= i2 + 1 ->
  combine (sum_cells h i1 (2 * m - i1)) (seg m i2)
  = combine (h i1) (seg ((i1 + 1) / 2) i2).
Proof.
  intros Ho H1m Hm Hmn Hm2.
  rewrite rows_peel_left, combine_assoc by lia.
  rewrite (rows_from_even (i1 + 1)) by lia. reflexivity.
Qed.

Lemma min_covering_loop_two_rows (fuel : nat) :
  forall i1 i2 m res,
  i2 < i1 -> i1 <= 2 * m - 1 -> m <= i2 + 1 -> (i1 + 1) / 2 <= i2 ->
  m <= n -> i2 <= 2 * n - 1 -> i1 < fuel ->
  min_covering_loop (functor_get h) fuel i1 i2 res
  = Some (combine res
            (combine (sum_cells h i1 (2 * m - i1)) (seg m i2))).
Proof.
  induction fuel as [|fuel IH]; intros i1 i2 m res H21 H1m Hm2 Hne Hmn H2 Hfuel;
    [lia|].
  cbn [min_covering_loop]. unfold shift_right_bound, functor_get.
  tests.
  - rewrite rows_from_even by lia. subst i2.
    now rewrite seg_one.
  - rewrite rows_from_even by lia.
    rewrite (seg_peel_right (i1 / 2) i2) by lia.
    replace (i2 - 1) with (i1 / 2) by lia. rewrite seg_one.
    f_equal. aac_reflexivity.
  - rewrite (IH _ _ ((i2 - 1) / 2 + 1)) by lia.
    rewrite rows_restart by lia.
    replace (2 * ((i2 - 1) / 2) + 1) with (i2 - 1) by lia.
    rewrite rows_from_even by lia.
    rewrite (seg_peel_right (i1 / 2) i2) by lia.
    f_equal. aac_reflexivity.
  - rewrite (IH _ _ (i2 / 2 + 1)) by lia.
    rewrite rows_restart by lia.
    replace (2 * (i2 / 2) + 1) with i2 by lia.
    now rewrite rows_from_even by lia.
  - rewrite rows_from_odd by lia. subst i2.
    rewrite seg_one. f_equal. aac_reflexivity.
  - rewrite rows_from_odd by lia.
    rewrite (seg_peel_right ((i1 + 1) / 2) i2) by lia.
    replace (i2 - 1) with ((i1 + 1) / 2) by lia. rewrite seg_one.
    f_equal. aac_reflexivity.
  - rewrite (IH _ _ ((i2 - 1) / 2 + 1)) by lia.
    rewrite rows_restart by lia.
    replace (2 * ((i2 - 1) / 2) + 1) with (i2 - 1) by lia.
    rewrite rows_from_odd by lia.
    rewrite (seg_peel_right ((i1 + 1) / 2) i2) by lia.
    f_equal. aac_reflexivity.
  - rewrite (IH _ _ (i2 / 2 + 1)) by lia.
    rewrite rows_restart by lia.
    replace (2 * (i2 / 2) + 1) with i2 by lia.
    rewrite rows_from_odd by lia.
    f_equal. aac_reflexivity.
Qed.

Lemma map_seq_shift {A : Type} (f g : nat -> A) (len : nat) :
  forall a b,
  (forall i, i < len -> f (a + i) = g (b + i)) ->
  map f (seq a len) = map g (seq b len).
Proof.
  induction len as [|len IH]; intros a b H; [reflexivity|].
  cbn [seq map]. f_equal.
  - specialize (H 0 ltac:(lia)). now rewrite !Nat.add_0_r in H.
  - apply IH. intros i Hi. specialize (H (S i) ltac:(lia)).
    now rewrite <- !Nat.add_succ_comm in H.
Qed.

(** The logical values of a leaf range, summed in order, as sums of cells. *)
Lemma leaf_values_sum (k1 k2 : nat) :
  1 <= n -> k1 < k2 <= n ->
  let l1 := index_nth_leaf n k1 in
  let l2 := index_nth_leaf n (k2 - 1) in
  fold_left combine (map (fun k => h (index_nth_leaf n k)) (seq k1 (k2 - k1)))
    identity
  = if l2 <? l1
    then combine (sum_cells h l1 (2 * n - l1)) (seg n l2)
    else seg l1 l2.
Proof.
  intros Hn Hk l1 l2. subst l1 l2.
  pose proof (deepest_row_bounds n Hn) as HD.
  leaf_split n k1; leaf_split n (k2 - 1);
    match goal with
    | |- context [?a <? ?b] => destruct (Nat.ltb_spec a b)
    end; try lia.
  - unfold sum_cells. f_equal.
    replace (k2 - 1 + msb (2 * n - 1) + 1 - (k1 + msb (2 * n - 1)))
      with (k2 - k1) by lia.
    apply map_seq_shift. intros i Hi.
    rewrite index_nth_leaf_deep by lia. f_equal. lia.
  - replace (k2 - k1)
      with ((2 * n - (k1 + msb (2 * n - 1))) +
            (k2 - 1 + msb (2 * n - 1) - n + 1 - n)) by lia.
    rewrite seq_app, map_app, fold_left_app.
    rewrite (fold_combine_from combine_assoc identity_left identity_right).
    unfold sum_cells. f_equal; f_equal.
    + apply map_seq_shift. intros i Hi.
      rewrite index_nth_leaf_deep by lia. f_equal. lia.
    + apply map_seq_shift. intros i Hi.
      rewrite index_nth_leaf_upper by lia. f_equal. lia.
  - unfold sum_cells. f_equal.
    replace (k2 - 1 + msb (2 * n - 1) - n + 1 - (k1 + msb (2 * n - 1) - n))
      with (k2 - k1) by lia.
    apply map_seq_shift. intros i Hi.
    rewrite index_nth_leaf_upper by lia. f_equal. lia.
Qed.

(** On a sound heap the covering walk with [functor_get] returns the
    in-order combination of the logical values of the range. *)
Lemma covering_walk_sums (fuel k1 k2 : nat) (res : T) :
  1 <= n -> k1 <= k2 <= n -> 2 * n <= fuel ->
  act_on_min_covering_ancestors (functor_get h) n fuel k1 k2 res
  = Some (combine res
            (fold_left combine
               (map (fun k => h (index_nth_leaf n k)) (seq k1 (k2 - k1)))
               identity)).
Proof.
  intros Hn Hk Hfuel. unfold act_on_min_covering_ancestors.
  destruct (Nat.leb_spec k2 k1).
  - replace (k2 - k1) with 0 by lia. simpl. now rewrite identity_right.
  - rewrite leaf_values_sum by lia.
    pose proof (index_nth_leaf_range n k1 Hn ltac:(lia)).
    pose proof (index_nth_leaf_range n (k2 - 1) Hn ltac:(lia)).
    destruct (Nat.ltb_spec (index_nth_leaf n (k2 - 1)) (index_nth_leaf n k1)).
    + apply min_covering_loop_two_rows; lia.
    + apply min_covering_loop_same_row; lia.
Qed.

End Covering.

(** ** Range queries on the point-update tree *)

Section RangeQuery.
Context {T : Type} {op : FUNCTOR_T T}.
Hypothesis combine_assoc :
  forall a b c : T, combine (combine a b) c = combine a (combine b c).
Hypothesis combine_comm : forall a b : T, combine a b = combine b a.
Hypothesis identity_left : forall a : T, combine identity a = a.
Hypothesis identity_right : forall a : T, combine a identity = a.

Lemma accumulate_consistent (fuel : nat) (g : t T) (i1 i2 : nat) :
  1 <= _size g -> consistent g -> i1 <= i2 <= _size g -> 2 * _size g <= fuel ->
  gutter_retrieve.accumulate fuel g i1 i2
  = Some (fold_left combine
            (map (gutter_retrieve.get g) (seq i1 (i2 - i1))) identity).
Proof.
  intros Hn Hg Hi Hfuel. unfold gutter_retrieve.accumulate.
  rewrite (covering_walk_sums combine_assoc combine_comm identity_left
             identity_right (_size g) (heap g) Hg) by assumption.
  now rewrite identity_left.
Qed.

(** C1. On every tree obtained from a constructor and a sequence of valid
    mutating calls, over an associative, commutative operation with a
    two-sided identity, and for [0 <= i1 <= i2 <= n], [accumulate(i1,i2)]
    is the left fold of [combine] from [identity()] over the logical values
    at positions [i1, ..., i2-1]. *)
Theorem accumulate_is_fold_of_values (fuel : nat) (uninit : nat -> T)
    (c : ctor T) (cs : list (call T)) (i1 i2 : nat) :
  1 <= ctor_size c -> forallb (valid_call (ctor_size c)) cs = true ->
  i1 <= i2 <= ctor_size c -> 2 * ctor_size c <= fuel ->
  exists g, history fuel uninit c cs = Some g /\
    gutter_retrieve.accumulate fuel g i1 i2
    = Some (fold_left combine
              (map (gutter_retrieve.get g) (seq i1 (i2 - i1))) identity).
Proof.
  intros Hn Hvalid Hi Hfuel.
  destruct (history_consistent (identity_left identity) fuel uninit c cs)
    as (g & Hrun & Hsize & Hg); auto; try lia.
  exists g. split; [assumption|].
  apply accumulate_consistent; auto; lia.
Qed.

End RangeQuery.

(** ** Counting the covering nodes on a path *)

Lemma on_path_above (l j : nat) : l < j -> on_path l j = 0.
Proof.
  intros H. unfold on_path. apply count_occ_not_In.
  intros Hin. apply path_bounded in Hin. lia.
Qed.

Lemma on_path_unfold (l j : nat) :
  1 <= l ->
  on_path l j = (if Nat.eq_dec l j then 1 else 0) + on_path (index_parent l) j.
Proof.
  intros Hl. unfold on_path. rewrite (path_unfold l Hl). cbn [count_occ].
  destruct (Nat.eq_dec l j); lia.
Qed.

(** The path indicator of a node is the sum of those of its children. *)
Lemma on_path_children (l j : nat) :
  1 <= j -> j < l -> on_path l j = on_path l (2 * j) + on_path l (2 * j + 1).
Proof.
  induction l as [l IH] using lt_wf_ind. intros Hj Hl.
  rewrite !(on_path_unfold l) by lia.
  assert (index_parent l < l) as Hp by (unfold index_parent; lia).
  destruct (Nat.lt_trichotomy (index_parent l) j) as [Hlt|[Heq|Hgt]].
  - rewrite !on_path_above by lia.
    unfold index_parent in *.
    destruct (Nat.eq_dec l j), (Nat.eq_dec l (2 * j)),
      (Nat.eq_dec l (2 * j + 1)); lia.
  - rewrite Heq. rewrite (on_path_unfold j) by lia.
    rewrite !on_path_above by (unfold index_parent; lia).
    unfold index_parent in *.
    destruct (Nat.eq_dec l j), (Nat.eq_dec l (2 * j)),
      (Nat.eq_dec l (2 * j + 1)), (Nat.eq_dec j j); lia.
  - rewrite (IH (index_parent l)) by lia.
    unfold index_parent in *.
    destruct (Nat.eq_dec l j), (Nat.eq_dec l (2 * j)),
      (Nat.eq_dec l (2 * j + 1)); lia.
Qed.

(** Among leaf cells, only the leaf itself is on its path. *)
Lemma on_path_leaf (n l l' : nat) :
  1 <= n -> n <= l <= 2 * n - 1 -> n <= l' ->
  on_path l l' = if l =? l' then 1 else 0.
Proof.
  intros Hn Hl Hl'. rewrite on_path_unfold by lia.
  rewrite on_path_above by (unfold index_parent; lia).
  destruct (Nat.eq_dec l l'), (Nat.eqb_spec l l'); lia.
Qed.

Lemma indicator_sum (k0 a len : nat) :
  fold_left Nat.add (map (fun k => if k0 =? k then 1 else 0) (seq a len)) 0
  = if (a <=? k0) && (k0 <? a + len) then 1 else 0.
Proof.
  induction len as [|len IH].
  - simpl. destruct (Nat.leb_spec a k0), (Nat.ltb_spec k0 (a + 0)); simpl; lia.
  - rewrite seq_S, map_app, fold_left_app, IH. simpl.
    destruct (Nat.leb_spec a k0), (Nat.ltb_spec k0 (a + len)),
      (Nat.ltb_spec k0 (a + S len)), (Nat.eqb_spec k0 (a + len)); simpl; lia.
Qed.

(** The covering walk visits, on the path of each leaf, exactly one node
    when the leaf is in the range and none otherwise. *)
Lemma covering_nodes_on_path (n fuel k1 k2 : nat) :
  1 <= n -> k1 <= k2 <= n -> 2 * n <= fuel ->
  exists log,
    act_on_min_covering_ancestors visit n fuel k1 k2 [] = Some log /\
    forall k0, k0 < n ->
      fold_left Nat.add (map (on_path (index_nth_leaf n k0)) log) 0
      = if (k1 <=? k0) && (k0 <? k2) then 1 else 0.
Proof.
  intros Hn Hk Hfuel.
  assert (forall k0, k0 < n ->
    act_on_min_covering_ancestors
      (functor_get (op := count_op) (on_path (index_nth_leaf n k0)))
      n fuel k1 k2 0
    = Some (if (k1 <=? k0) && (k0 <? k2) then 1 else 0)) as Hcount.
  { intros k0 Hk0.
    pose proof (index_nth_leaf_range n k0 Hn Hk0) as Hl0.
    rewrite (covering_walk_sums (op := count_op)
               (fun a b c => eq_sym (Nat.add_assoc a b c))
               Nat.add_comm Nat.add_0_l Nat.add_0_r);
      cbn [combine identity count_op]; try lia.
    - f_equal.
      rewrite (map_ext_in _ (fun k => if k0 =? k then 1 else 0)).
      + rewrite indicator_sum.
        replace (k1 + (k2 - k1)) with k2 by lia. reflexivity.
      + intros k Hin. rewrite in_seq in Hin.
        pose proof (index_nth_leaf_range n k Hn ltac:(lia)).
        rewrite (on_path_leaf n) by lia.
        destruct (Nat.eqb_spec (index_nth_leaf n k0) (index_nth_leaf n k)) as [E|E],
          (Nat.eqb_spec k0 k); try reflexivity.
        * apply index_nth_leaf_inj in E; lia.
        * subst. contradiction.
    - intros j Hj. unfold node_ok, index_lbranch, index_rbranch.
      cbn [combine count_op]. apply on_path_children; lia. }
  pose proof (Hcount 0 ltac:(lia)) as H0.
  rewrite act_on_min_covering_ancestors_fold in H0.
  destruct (act_on_min_covering_ancestors visit n fuel k1 k2 []) as [log|]
    eqn:Hlog; [|discriminate].
  exists log. split; [reflexivity|]. intros k0 Hk0.
  specialize (Hcount k0 Hk0).
  rewrite act_on_min_covering_ancestors_fold, Hlog in Hcount.
  cbn [option_map] in Hcount. injection Hcount as <-.
  unfold apply_all, functor_get. cbn [combine count_op].
  clear. generalize 0. induction log as [|j log IH]; intros c; simpl; auto.
Qed.

Lemma fold_add_zero (f : nat -> nat) (log : list nat) :
  forall c, fold_left (fun c j => c + f j) log c = 0 ->
            Forall (fun j => f j = 0) log.
Proof.
  induction log as [|j log IH]; intros c H; [constructor|].
  cbn [fold_left] in H. constructor; [|now apply (IH (c + f j))].
  assert (forall l c', c' <= fold_left (fun c j => c + f j) l c') as Hmono.
  { clear. induction l as [|i l IH]; intros c'; simpl; [lia|].
    specialize (IH (c' + f i)). lia. }
  specialize (Hmono log (c + f j)). lia.
Qed.

(** On a valid range the covering walk visits cells of the buffer only; in
    particular it never visits cell [0]. *)
Lemma covering_nodes_in_buffer (n fuel k1 k2 : nat) (log : list nat) :
  1 <= n -> k1 <= k2 <= n -> 2 * n <= fuel ->
  act_on_min_covering_ancestors visit n fuel k1 k2 [] = Some log ->
  Forall (in_buffer n) log.
Proof.
  intros Hn Hk Hfuel Hlog.
  assert (act_on_min_covering_ancestors
            (functor_get (op := count_op) (outside_buffer n)) n fuel k1 k2 0
          = Some 0) as Hcount.
  { rewrite (covering_walk_sums (op := count_op)
               (fun a b c => eq_sym (Nat.add_assoc a b c))
               Nat.add_comm Nat.add_0_l Nat.add_0_r);
      cbn [combine identity count_op]; try lia.
    - f_equal. rewrite (map_ext_in _ (fun _ => 0)).
      + generalize (seq k1 (k2 - k1)). intros l.
        induction l as [|k l IH]; simpl; auto.
      + intros k Hin. rewrite in_seq in Hin.
        pose proof (index_nth_leaf_range n k Hn ltac:(lia)).
        unfold outside_buffer.
        destruct (Nat.leb_spec 1 (index_nth_leaf n k)),
          (Nat.leb_spec (index_nth_leaf n k) (2 * n - 1)); simpl; lia.
    - intros j Hj. unfold node_ok, index_lbranch, index_rbranch, outside_buffer.
      cbn [combine count_op].
      destruct (Nat.leb_spec 1 j), (Nat.leb_spec j (2 * n - 1)),
        (Nat.leb_spec 1 (2 * j)), (Nat.leb_spec (2 * j) (2 * n - 1)),
        (Nat.leb_spec 1 (2 * j + 1)), (Nat.leb_spec (2 * j + 1) (2 * n - 1));
        simpl; lia. }
  rewrite act_on_min_covering_ancestors_fold, Hlog in Hcount.
  cbn [option_map] in Hcount. injection Hcount as Hcount.
  unfold apply_all, functor_get in Hcount. cbn [combine count_op] in Hcount.
  apply fold_add_zero in Hcount.
  eapply Forall_impl; [|exact Hcount].
  intros j Hj. unfold outside_buffer, in_buffer in *.
  destruct (Nat.leb_spec 1 j), (Nat.leb_spec j (2 * n - 1)); simpl in Hj; lia.
Qed.

(** ** Histories of the range-update tree *)

Section RangeUpdate.
Context {T : Type} {op : FUNCTOR_T T}.
Hypothesis combine_assoc :
  forall a b c : T, combine (combine a b) c = combine a (combine b c).
Hypothesis identity_left : forall a : T, combine identity a = a.
Hypothesis identity_right : forall a : T, combine a identity = a.

Lemma apply_all_functor_get (h : nat -> T) (log : list nat) (res : T) :
  apply_all (functor_get h) log res = fold_left combine (map h log) res.
Proof.
  revert res. induction log as [|j log IH]; intros res; simpl; auto.
Qed.

(** [operator[]] of the range-update tree reads the path of the leaf. *)
Lemma get_read_path (fuel : nat) (g : t T) (k : nat) :
  index_nth_leaf (_size g) k < fuel ->
  gutter_apply.get fuel g k
  = Some (read_path (heap g) (index_nth_leaf (_size g) k)).
Proof.
  intros Hfuel. unfold gutter_apply.get, act_on_all_ancestors.
  rewrite act_on_all_ancestors_leafup_path by assumption.
  now rewrite apply_all_functor_get.
Qed.

Lemma read_path_fresh (uninit : nat -> T) (n l : nat) :
  l <= 2 * n - 1 -> read_path (fill uninit n identity) l = identity.
Proof.
  intros Hl. unfold read_path.
  assert (forall P, (forall j, In j P -> 1 <= j <= l) ->
                    fold_left combine (map (fill uninit n identity) P) identity
                    = identity) as H.
  { induction P as [|j P IH]; intros HP; [reflexivity|].
    simpl. rewrite fill_inside by (specialize (HP j (or_introl eq_refl)); lia).
    rewrite identity_left. apply IH. intros i Hi. apply HP. now right. }
  apply H. intros j. apply path_bounded.
Qed.

Hypothesis combine_comm : forall a b : T, combine a b = combine b a.

#[local] Instance combine_Associative' : Associative eq combine.
Proof. intros x y z. symmetry. apply combine_assoc. Qed.

#[local] Instance combine_Commutative' : Commutative eq combine.
Proof. exact combine_comm. Qed.

#[local] Instance combine_Unit' : Unit eq combine identity.
Proof. split; auto. Qed.

Lemma times_add (x : T) (a b : nat) :
  times x (a + b) = combine (times x a) (times x b).
Proof.
  induction a as [|a IH]; simpl.
  - now rewrite identity_left.
  - rewrite IH. aac_reflexivity.
Qed.

(** Combining [x] into cell [j] adds [x] once per occurrence of [j]. *)
Lemma fold_functor_apply (h : nat -> T) (j : nat) (x : T) (P : list nat) :
  forall r,
  fold_left combine (map (functor_apply x j h) P) r
  = combine (fold_left combine (map h P) r)
      (times x (count_occ Nat.eq_dec P j)).
Proof.
  induction P as [|i P IH]; intros r.
  - simpl. now rewrite identity_right.
  - cbn [map fold_left count_occ]. rewrite IH. unfold functor_apply.
    destruct (Nat.eq_dec i j) as [->|Hne].
    + rewrite store_eq. cbn [times].
      rewrite (fold_combine_from combine_assoc identity_left identity_right _
                 (combine r (combine (h j) x))).
      rewrite (fold_combine_from combine_assoc identity_left identity_right _
                 (combine r (h j))).
      aac_reflexivity.
    + now rewrite store_neq by assumption.
Qed.

Lemma read_path_apply_all (x : T) (l : nat) (log : list nat) :
  forall h,
  read_path (apply_all (functor_apply x) log h) l
  = combine (read_path h l)
      (times x (fold_left Nat.add (map (on_path l) log) 0)).
Proof.
  induction log as [|j log IH]; intros h.
  - simpl. now rewrite identity_right.
  - change (apply_all (functor_apply x) (j :: log) h)
      with (apply_all (functor_apply x) log (functor_apply x j h)).
    rewrite IH. cbn [map fold_left].
    unfold read_path at 1. rewrite fold_functor_apply.
    fold (read_path h l). fold (on_path l j).
    rewrite (fold_combine_from (op := count_op)
               (fun a b c => eq_sym (Nat.add_assoc a b c))
               Nat.add_0_l Nat.add_0_r _ (0 + on_path l j)).
    cbn [combine identity count_op].
    rewrite Nat.add_0_l, times_add. aac_reflexivity.
Qed.

(** A range apply combines [x] into the logical value of every leaf of the
    range and leaves the other logical values as they were. *)
Lemma apply_range_read (fuel : nat) (g : t T) (k1 k2 : nat) (x : T) :
  1 <= _size g -> k1 <= k2 <= _size g -> 2 * _size g <= fuel ->
  exists g',
    gutter_apply.apply_range fuel g k1 k2 x = Some g' /\
    _size g' = _size g /\
    forall k0, k0 < _size g ->
      read_path (heap g') (index_nth_leaf (_size g) k0)
      = if (k1 <=? k0) && (k0 <? k2)
        then combine (read_path (heap g) (index_nth_leaf (_size g) k0)) x
        else read_path (heap g) (index_nth_leaf (_size g) k0).
Proof.
  destruct g as [h n]. cbn [_size heap]. intros Hn Hk Hfuel.
  unfold gutter_apply.apply_range. cbn [_size heap].
  rewrite act_on_min_covering_ancestors_fold.
  destruct (covering_nodes_on_path n fuel k1 k2 Hn Hk Hfuel)
    as (log & Hlog & Hcount).
  rewrite Hlog. cbn [option_map bind]. eexists. split; [reflexivity|].
  split; [reflexivity|]. intros k0 Hk0. cbn [heap].
  rewrite read_path_apply_all, Hcount by assumption.
  destruct ((k1 <=? k0) && (k0 <? k2)); cbn [times].
  - now rewrite identity_right.
  - now rewrite identity_right.
Qed.

Lemma run_ranges_read (fuel : nat) (k : nat) (cs : list (range_call T)) :
  forall g,
  1 <= _size g -> k < _size g -> forallb (valid_range (_size g)) cs = true ->
  2 * _size g <= fuel ->
  exists g',
    run_ranges fuel cs g = Some g' /\ _size g' = _size g /\
    read_path (heap g') (index_nth_leaf (_size g) k)
    = fold_left combine (map range_val (filter (contains k) cs))
        (read_path (heap g) (index_nth_leaf (_size g) k)).
Proof.
  induction cs as [|c cs IH]; intros g Hn Hk Hvalid Hfuel.
  - exists g. auto.
  - cbn [forallb] in Hvalid. apply andb_prop in Hvalid as [Hc Hcs].
    unfold valid_range in Hc.
    destruct (apply_range_read fuel g (range_lo c) (range_hi c) (range_val c))
      as (g1 & Hrun & Hsize & Hread); try lia.
    cbn [run_ranges]. rewrite Hrun. cbn [bind].
    destruct (IH g1) as (g' & Hrun' & Hsize' & Hread');
      try rewrite Hsize; auto.
    exists g'. split; [assumption|]. split; [lia|].
    rewrite Hsize in Hread'. rewrite Hread', Hread by assumption.
    cbn [filter]. unfold contains at 2.
    destruct ((range_lo c <=? k) && (k <? range_hi c)); reflexivity.
Qed.

(** C2, as amended. Over an associative, commutative operation with a
    two-sided identity, after any sequence of range applies with valid
    ranges on a freshly constructed tree, [operator[](i)] returns, for every
    [i] in [0, n), the fold of [combine] from [identity()] over the values
    of the calls whose interval contains [i], in call order. *)
Theorem range_updates_read_back (fuel : nat) (uninit : nat -> T) (n : nat)
    (cs : list (range_call T)) (i : nat) :
  1 <= n -> i < n -> forallb (valid_range n) cs = true -> 2 * n <= fuel ->
  exists g,
    run_ranges fuel cs (gutter_apply.make uninit n) = Some g /\
    gutter_apply.get fuel g i
    = Some (fold_left combine (map range_val (filter (contains i) cs)) identity).
Proof.
  intros Hn Hi Hvalid Hfuel.
  destruct (run_ranges_read fuel i cs (gutter_apply.make uninit n))
    as (g & Hrun & Hsize & Hread); auto.
  cbn [gutter_apply.make _size heap] in *.
  exists g. split; [assumption|].
  pose proof (index_nth_leaf_range n i Hn Hi).
  rewrite get_read_path by (rewrite Hsize; lia).
  rewrite Hsize, Hread. rewrite read_path_fresh by lia. reflexivity.
Qed.

End RangeUpdate.

Section OrderMatters.
#[local] Existing Instance concat_op.

(** C2 as stated (operation only associative with identity) fails: with
    concatenation, [apply(0,2,[1])] then [apply(0,1,[2])] on two leaves
    reads [[2;1]] at leaf 0, not the call-order fold [[1;2]]. *)
Lemma range_updates_order_matters :
  (forall a b c : list nat, combine (combine a b) c = combine a (combine b c)) /\
  (forall a : list nat, combine identity a = a) /\
  (forall a : list nat, combine a identity = a) /\
  let cs := [RangeApply 0 2 [1]; RangeApply 0 1 [2]] in
  forallb (valid_range 2) cs = true /\
  (let* g := run_ranges 10 cs (gutter_apply.make (fun _ => []) 2) in
   gutter_apply.get 10 g 0)
  <> Some (fold_left combine (map range_val (filter (contains 0) cs)) identity).
Proof.
  split; [|split; [|split; [|split]]].
  - intros a b c. cbn. symmetry. apply app_assoc.
  - reflexivity.
  - intros a. cbn. apply app_nil_r.
  - reflexivity.
  - vm_compute. discriminate.
Qed.

End OrderMatters.

(** ** Consolidation in the range-update tree *)

Section Consolidation.
Context {T : Type} {op : FUNCTOR_T T}.
Hypothesis combine_assoc :
  forall a b c : T, combine (combine a b) c = combine a (combine b c).
Hypothesis identity_left : forall a : T, combine identity a = a.
Hypothesis identity_right : forall a : T, combine a identity = a.
Import gutter_apply.

Lemma read_path_unfold (h : nat -> T) (l : nat) :
  1 <= l -> read_path h l = combine (h l) (read_path h (index_parent l)).
Proof.
  intros Hl. unfold read_path. rewrite (path_unfold l Hl). cbn [map fold_left].
  rewrite (fold_combine_from combine_assoc identity_left identity_right).
  now rewrite identity_left.
Qed.

Lemma read_path_ext (h h' : nat -> T) (l : nat) :
  (forall j, In j (path l) -> h' j = h j) -> read_path h' l = read_path h l.
Proof.
  intros H. unfold read_path. f_equal. now apply map_ext_in.
Qed.

(** The cells after [consolidate_to_children(p)]. *)
Lemma consolidate_to_children_cells (g : t T) (p j : nat) :
  1 <= p ->
  heap (consolidate_to_children g p) j =
  if j =? p then identity
  else if j =? 2 * p then combine (heap g (2 * p)) (heap g p)
  else if j =? 2 * p + 1 then combine (heap g (2 * p + 1)) (heap g p)
  else heap g j.
Proof.
  intros Hp.
  unfold consolidate_to_children, index_lbranch, index_rbranch, store.
  cbn [heap].
  destruct (Nat.eqb_spec j p), (Nat.eqb_spec j (2 * p)),
    (Nat.eqb_spec j (2 * p + 1)), (Nat.eqb_spec (2 * p + 1) (2 * p)),
    (Nat.eqb_spec p (2 * p)); try lia; reflexivity.
Qed.

(** Pushing the pending value of a node into its children changes no
    logical value read from below the node. *)
Lemma consolidate_to_children_read (g : t T) (p : nat) (Hp : 1 <= p) :
  forall l, l <> p ->
  read_path (heap (consolidate_to_children g p)) l = read_path (heap g) l.
Proof.
  induction l as [l IH] using lt_wf_ind. intros Hl.
  destruct (Nat.eq_dec l 0) as [->|Hl0]; [reflexivity|].
  rewrite !(read_path_unfold _ l) by lia.
  destruct (Nat.eq_dec (index_parent l) p) as [E|E].
  - rewrite E, !(read_path_unfold _ p) by lia.
    rewrite (IH (index_parent p)) by (unfold index_parent in *; lia).
    rewrite !consolidate_to_children_cells by assumption.
    unfold index_parent in *.
    destruct (Nat.eqb_spec l p), (Nat.eqb_spec l (2 * p)),
      (Nat.eqb_spec l (2 * p + 1)), (Nat.eqb_spec p p); try lia;
      match goal with
      | H : l = 2 * p |- _ => rewrite <- H
      | H : l = 2 * p + 1 |- _ => rewrite <- H
      end;
      rewrite identity_left, combine_assoc; reflexivity.
  - rewrite (IH (index_parent l)) by (unfold index_parent in *; lia).
    rewrite consolidate_to_children_cells by assumption.
    unfold index_parent in *.
    destruct (Nat.eqb_spec l p), (Nat.eqb_spec l (2 * p)),
      (Nat.eqb_spec l (2 * p + 1)); try lia; reflexivity.
Qed.

End Consolidation.

(** ** The ancestor in a row, on enough fuel *)

Lemma index_ancestor_in_row_total (fuel : nat) :
  forall index row_1st,
  1 <= row_1st -> index < fuel ->
  exists a, index_ancestor_in_row fuel index row_1st = Some a /\
            a <= index /\ (row_1st <= index -> row_1st <= a) /\
            index_parent a < row_1st.
Proof.
  induction fuel as [|fuel IH]; intros index row_1st Hrow Hfuel; [lia|].
  destruct (Nat.le_gt_cases row_1st (index_parent index)) as [Hup|Hhere].
  - rewrite index_ancestor_in_row_up by assumption.
    destruct (IH (index_parent index) row_1st) as (a & Ha & Hle & Hge & Hpar);
      unfold index_parent in *; try lia.
    exists a. split; [assumption|]. lia.
  - rewrite index_ancestor_in_row_here by assumption.
    exists index. split; [reflexivity|]. lia.
Qed.

(** ** Point assign on the range-update tree *)

Section PointAssign.
Context {T : Type} {op : FUNCTOR_T T}.

(** A leaf cell lies on the path of no other leaf. *)
Lemma leaf_not_on_path (n l c : nat) :
  1 <= n -> n <= l <= 2 * n - 1 -> n <= c -> c <> l -> ~ In c (path l).
Proof.
  intros Hn Hl Hc Hne Hin. rewrite path_unfold in Hin by lia.
  destruct Hin as [E|Hin]; [lia|].
  apply path_bounded in Hin. unfold index_parent in Hin. lia.
Qed.

(** Once a call of [functor_consolidate] had no result, the rest of the
    walk has none. *)
Lemma rootdown_loop_consolidate_stuck (fuel : nat) :
  forall i index st,
  rootdown_loop gutter_apply.functor_consolidate fuel i index None = Some st ->
  st = None.
Proof.
  induction fuel as [|fuel IH]; intros i index st; cbn [rootdown_loop];
    [discriminate|].
  destruct (i <? index).
  - destruct (index_ancestor_in_row fuel index i) as [a|]; cbn [bind];
      [|discriminate].
    apply IH.
  - now intros [= <-].
Qed.

(** C10. [assign(i,x)] on the range-update tree does not reach its write:
    as soon as the parent of leaf [i] is not the root, the root-down walk
    calls [functor_consolidate] on the root, the body of that functor
    reads an undeclared name, and [assign] has no result, whatever the
    loop bound.  No later read [operator[](j)] exists to be compared. *)
Theorem assign_has_no_result (fuel : nat) (g : t T) (i : nat) (x : T) :
  2 <= index_parent (index_nth_leaf (_size g) i) ->
  gutter_apply.assign fuel g i x = None.
Proof.
  intros Hp. unfold gutter_apply.assign, act_on_all_ancestors_rootdown.
  destruct fuel as [|fuel]; [reflexivity|]. cbn [rootdown_loop].
  destruct (Nat.ltb_spec 1 (index_parent (index_nth_leaf (_size g) i)));
    [|lia].
  destruct (index_ancestor_in_row fuel _ 1) as [a|]; [|reflexivity].
  cbn [bind].
  change (gutter_apply.functor_consolidate a (Some (heap g)))
    with (@None (nat -> T)).
  destruct (rootdown_loop gutter_apply.functor_consolidate fuel (1 * 2) _ None)
    as [st|] eqn:E; [|reflexivity].
  apply rootdown_loop_consolidate_stuck in E. now subst st.
Qed.

End PointAssign.

(** ** Rows and ancestors by division *)

Lemma div_pow_S (x d : nat) : x / 2 ^ S d = x / 2 / 2 ^ d.
Proof. rewrite Nat.pow_succ_r', Nat.Div0.div_div. reflexivity. Qed.

(** The ancestor of [x] in a row [d] levels up is [x / 2 ^ d]. *)
Lemma index_ancestor_in_row_div (d : nat) :
  forall rho x fuel,
  2 ^ (rho + d) <= x < 2 ^ S (rho + d) -> d < fuel ->
  index_ancestor_in_row fuel x (2 ^ rho) = Some (x / 2 ^ d).
Proof.
  induction d as [|d IH]; intros rho x fuel Hx Hfuel;
    (destruct fuel as [|fuel]; [lia|]).
  - rewrite Nat.add_0_r in Hx. rewrite Nat.pow_0_r, Nat.div_1_r.
    apply index_ancestor_in_row_here. unfold index_parent.
    cbn [Nat.pow] in Hx. lia.
  - rewrite Nat.add_succ_r in Hx.
    pose proof (Nat.pow_le_mono_r 2 rho (rho + d) ltac:(lia) ltac:(lia)).
    rewrite index_ancestor_in_row_up
      by (unfold index_parent; cbn [Nat.pow] in Hx; lia).
    rewrite (IH rho); unfold index_parent.
    + now rewrite div_pow_S.
    + cbn [Nat.pow] in *. lia.
    + lia.
Qed.

(** ** Folding over a concatenation of visits *)

Lemma apply_all_app {F : Type} (phi : nat -> F -> F) (l1 l2 : list nat) (f : F) :
  apply_all phi (l1 ++ l2) f = apply_all phi l2 (apply_all phi l1 f).
Proof. unfold apply_all. apply fold_left_app. Qed.

(** ** The range assign, read back *)

Lemma map_seq_nth_error {A : Type} (f : nat -> A) (xs : list A) :
  forall a,
  (forall i, i < length xs -> nth_error xs i = Some (f (a + i))) ->
  map f (seq a (length xs)) = xs.
Proof.
  induction xs as [|x xs IH]; intros a H; [reflexivity|].
  cbn [length seq map]. f_equal.
  - specialize (H 0 ltac:(simpl; lia)). rewrite Nat.add_0_r in H.
    simpl in H. congruence.
  - apply IH. intros i Hi. specialize (H (S i) ltac:(simpl; lia)).
    simpl in H. now rewrite <- Nat.add_succ_comm in H.
Qed.

Section RangeAssignReadBack.
Context {T : Type} {op : FUNCTOR_T T}.
Hypothesis combine_assoc :
  forall a b c : T, combine (combine a b) c = combine a (combine b c).
Hypothesis identity_left : forall a : T, combine identity a = a.
Hypothesis identity_right : forall a : T, combine a identity = a.

(** The range assign of the point-update tree, read back leaf by leaf. *)
Lemma assign_range_read_back (fuel : nat) (g : t T) (i1 i2 : nat)
    (xs : list T) :
  1 <= _size g -> i1 <= i2 <= _size g -> length xs = i2 - i1 ->
  _size g < fuel ->
  exists g',
    gutter_retrieve.assign_range fuel g i1 i2 xs = Some (g', []) /\
    _size g' = _size g /\
    map (gutter_retrieve.get g') (seq i1 (i2 - i1)) = xs.
Proof.
  intros Hn Hi Hlen Hfuel.
  destruct (Nat.eq_dec i1 i2) as [->|Hne].
  - exists g. rewrite Nat.sub_diag in *.
    destruct xs; [|discriminate]. split; [|auto].
    unfold gutter_retrieve.assign_range.
    now rewrite Nat.ltb_irrefl, Nat.eqb_refl.
  - destruct (assign_range_spec fuel g i1 i2 xs)
      as (h' & Hrun & Hval & _ & _); try lia.
    rewrite Hrun. rewrite skipn_all2 by lia.
    eexists. split; [reflexivity|]. split; [reflexivity|].
    rewrite <- Hlen. apply map_seq_nth_error. intros i Hi'.
    unfold gutter_retrieve.get. cbn [heap _size].
    rewrite <- Hval by lia. f_equal. lia.
Qed.

End RangeAssignReadBack.

(** ** The theorems at integer sum *)

Section AtIntegerSum.
#[local] Existing Instance add.

Lemma add_assoc_law (a b c : Z) : combine (combine a b) c = combine a (combine b c).
Proof. cbn. lia. Qed.

Lemma add_comm_law (a b : Z) : combine a b = combine b a.
Proof. cbn. lia. Qed.

Lemma add_identity_left (a : Z) : combine identity a = a.
Proof. reflexivity. Qed.

Lemma add_identity_right (a : Z) : combine a identity = a.
Proof. cbn. lia. Qed.

Lemma accumulate_is_fold_of_values_witness :
  exists g,
    history 10 (fun _ => 0%Z) (FromList [1; 2; 3]%Z)
      [Apply 0 10%Z; Assign 2 7%Z] = Some g /\
    gutter_retrieve.accumulate 10 g 0 3
    = Some (fold_left combine (map (gutter_retrieve.get g) (seq 0 (3 - 0)))
              identity).
Proof.
  apply (accumulate_is_fold_of_values add_assoc_law add_comm_law
           add_identity_left add_identity_right).
  - simpl. lia.
  - reflexivity.
  - simpl. lia.
  - simpl. lia.
Defined.

Lemma range_updates_read_back_witness :
  exists g,
    run_ranges 10 [RangeApply 1 4 10%Z; RangeApply 0 2 5%Z]
      (gutter_apply.make (fun _ => 0%Z) 5) = Some g /\
    gutter_apply.get 10 g 1
    = Some (fold_left combine
              (map range_val
                 (filter (contains 1) [RangeApply 1 4 10%Z; RangeApply 0 2 5%Z]))
              identity).
Proof.
  apply (range_updates_read_back add_assoc_law add_identity_left
           add_identity_right add_comm_law).
  - lia.
  - lia.
  - reflexivity.
  - lia.
Defined.

Lemma internal_nodes_hold_aggregates_witness :
  exists g,
    history 10 (fun _ => 0%Z) (Sized 3)
      [Apply 0 5%Z; AssignRange 1 3 [7; 8]%Z; Assign 1 2%Z] = Some g /\
    forall j, 1 <= j < _size g ->
      heap g j = combine (heap g (index_lbranch j)) (heap g (index_rbranch j)).
Proof.
  apply (internal_nodes_hold_aggregates (add_identity_left identity)).
  - simpl. lia.
  - reflexivity.
  - simpl. lia.
Defined.

Lemma assign_has_no_result_witness :
  gutter_apply.assign 10
    (gutter_apply.apply (gutter_apply.make (fun _ => 0%Z) 5) 1 10%Z) 2 5%Z
  = None.
Proof.
  apply assign_has_no_result. vm_compute. lia.
Defined.

End AtIntegerSum.

(** ** Reading the point-update tree after a write *)

Section PointWrites.
Context {T : Type} {op : FUNCTOR_T T}.

(** The leaf-up recomputation from the parent of a leaf writes internal
    nodes only. *)
Lemma leaf_write_frame (fuel : nat) (h : nat -> T) (p : nat) :
  p < fuel ->
  exists h',
    act_on_all_ancestors_leafup gutter_retrieve.functor_update_parent fuel p h
      = Some h' /\
    forall j, p < j \/ j = 0 -> h' j = h j.
Proof.
  intros Hfuel. eexists. split.
  - apply act_on_all_ancestors_leafup_path. exact Hfuel.
  - intros j Hj. apply apply_all_update_parent_frame.
    intros Hin. apply path_bounded in Hin. lia.
Qed.

(** A write of [v] to the cell of element [k], followed by the leaf-up
    recomputation from the parent of the cell. *)
Lemma leaf_write_get (fuel n : nat) (h : nat -> T) (k : nat) (v : T) :
  1 <= n -> k < n -> n <= fuel ->
  exists h',
    act_on_all_ancestors_leafup gutter_retrieve.functor_update_parent fuel
      (index_parent (index_nth_leaf n k)) (store h (index_nth_leaf n k) v)
      = Some h' /\
    forall j, j < n ->
      h' (index_nth_leaf n j) = if j =? k then v else h (index_nth_leaf n j).
Proof.
  intros Hn Hk Hfuel.
  pose proof (index_nth_leaf_range n k Hn Hk) as Hl.
  set (l := index_nth_leaf n k) in *.
  destruct (leaf_write_frame fuel (store h l v) (index_parent l))
    as (h' & Hrun & Hframe).
  { unfold index_parent. lia. }
  exists h'. split; [exact Hrun|].
  intros j Hj.
  pose proof (index_nth_leaf_range n j Hn Hj) as Hlj.
  rewrite Hframe by (unfold index_parent; lia).
  destruct (Nat.eqb_spec j k) as [->|Hne].
  - fold l. apply store_eq.
  - apply store_neq. intros Heq.
    apply Hne, (index_nth_leaf_inj n); assumption.
Qed.

(** X1. [gutter_retrieve::assign(k, x)] sets element [k] to [x] and leaves
    every other element as it was. *)
Theorem retrieve_assign_reads_back (fuel : nat) (g : t T) (k : nat) (x : T) :
  1 <= _size g -> k < _size g -> _size g <= fuel ->
  exists g',
    gutter_retrieve.assign fuel g k x = Some g' /\
    _size g' = _size g /\
    forall j, j < _size g ->
      gutter_retrieve.get g' j = if j =? k then x else gutter_retrieve.get g j.
Proof.
  intros Hn Hk Hfuel.
  destruct (leaf_write_get fuel (_size g) (heap g) k x Hn Hk Hfuel)
    as (h' & Hrun & Hget).
  exists (Build h' (_size g)). split; [|split; [reflexivity|]].
  - unfold gutter_retrieve.assign. rewrite Hrun. reflexivity.
  - intros j Hj. unfold gutter_retrieve.get. cbn [heap _size].
    now apply Hget.
Qed.

(** X2. [gutter_retrieve::apply(k, x)] combines [x] into element [k] and
    leaves every other element as it was. *)
Theorem retrieve_apply_reads_back (fuel : nat) (g : t T) (k : nat) (x : T) :
  1 <= _size g -> k < _size g -> _size g <= fuel ->
  exists g',
    gutter_retrieve.apply fuel g k x = Some g' /\
    _size g' = _size g /\
    forall j, j < _size g ->
      gutter_retrieve.get g' j
      = if j =? k then combine (gutter_retrieve.get g k) x
        else gutter_retrieve.get g j.
Proof.
  intros Hn Hk Hfuel.
  destruct (leaf_write_get fuel (_size g) (heap g) k
              (combine (heap g (index_nth_leaf (_size g) k)) x) Hn Hk Hfuel)
    as (h' & Hrun & Hget).
  exists (Build h' (_size g)). split; [|split; [reflexivity|]].
  - unfold gutter_retrieve.apply. rewrite Hrun. reflexivity.
  - intros j Hj. unfold gutter_retrieve.get. cbn [heap _size].
    now apply Hget.
Qed.

End PointWrites.

(** ** The two constructors of the point-update tree *)

Section Construction.
Context {T : Type} {op : FUNCTOR_T T}.

Lemma fold_identities (xs : list T) :
  combine identity identity = identity ->
  Forall (fun x => x = identity) xs ->
  fold_left combine xs identity = identity.
Proof.
  intros He Hall. induction Hall as [|x xs -> _ IH]; simpl; auto.
  now rewrite He.
Qed.

(** X3. A tree fresh from the sized constructor reads as the identity, in
    every element and over every range, whatever the allocation held. *)
Theorem fresh_tree_reads_identity (fuel : nat) (uninit : nat -> T)
    (n i1 i2 : nat) :
  combine identity identity = identity ->
  1 <= n -> i1 <= i2 <= n -> 2 * n <= fuel ->
  (forall k, k < n ->
     gutter_retrieve.get (gutter_retrieve.make uninit n) k = identity) /\
  gutter_retrieve.accumulate fuel (gutter_retrieve.make uninit n) i1 i2
  = Some identity.
Proof.
  intros He Hn Hi Hfuel. split.
  - intros k Hk. unfold gutter_retrieve.get, gutter_retrieve.make.
    cbn [heap _size].
    pose proof (index_nth_leaf_range n k Hn Hk).
    apply fill_inside. lia.
  - destruct (covering_nodes_on_path n fuel i1 i2 Hn Hi Hfuel)
      as (log & Hlog & _).
    pose proof (covering_nodes_in_buffer n fuel i1 i2 log Hn Hi Hfuel Hlog)
      as Hbuf.
    unfold gutter_retrieve.accumulate, gutter_retrieve.make.
    cbn [heap _size].
    rewrite act_on_min_covering_ancestors_fold, Hlog. cbn [option_map].
    rewrite apply_all_functor_get. f_equal.
    apply fold_identities; [exact He|].
    apply Forall_map. eapply Forall_impl; [|exact Hbuf].
    intros j Hj. unfold in_buffer in Hj. apply fill_inside. lia.
Qed.

(** X4. The tree built from a sequence holds the sequence. *)
Theorem make_from_list_reads_back (fuel : nat) (uninit : nat -> T)
    (source : list T) :
  1 <= length source -> length source < fuel ->
  exists g,
    gutter_retrieve.make_from_list fuel uninit source = Some g /\
    _size g = length source /\
    map (gutter_retrieve.get g) (seq 0 (length source)) = source.
Proof.
  intros Hn Hfuel.
  destruct (assign_range_read_back fuel (Build uninit (length source))
              0 (length source) source) as (g' & Hrun & Hsize & Hget);
    cbn [_size]; try lia.
  exists g'. unfold gutter_retrieve.make_from_list. rewrite Hrun.
  cbn [bind fst]. rewrite Nat.sub_0_r in Hget. auto.
Qed.

(** Two trees of one size that hold the aggregates and agree on the
    elements agree on the whole buffer. *)
Lemma consistent_canonical (g1 g2 : t T) :
  1 <= _size g1 -> _size g2 = _size g1 -> consistent g1 -> consistent g2 ->
  (forall k, k < _size g1 ->
     gutter_retrieve.get g1 k = gutter_retrieve.get g2 k) ->
  forall j, in_buffer (_size g1) j -> heap g1 j = heap g2 j.
Proof.
  intros Hn Hsize H1 H2 Hleaves.
  assert (Hdown : forall d j, 2 * _size g1 - j <= d ->
                    in_buffer (_size g1) j -> heap g1 j = heap g2 j).
  { induction d as [|d IH]; intros j Hd Hj; unfold in_buffer in Hj.
    - lia.
    - destruct (Nat.lt_ge_cases j (_size g1)) as [Hint|Hleaf].
      + rewrite (H1 j) by lia. rewrite (H2 j) by lia.
        unfold index_lbranch, index_rbranch.
        rewrite (IH (2 * j)), (IH (2 * j + 1));
          unfold in_buffer; try lia. reflexivity.
      + destruct (index_nth_leaf_surj (_size g1) j Hn ltac:(lia))
          as (k & Hk & <-).
        specialize (Hleaves k Hk). unfold gutter_retrieve.get in Hleaves.
        rewrite Hsize in Hleaves. exact Hleaves. }
  intros j Hj. apply (Hdown (2 * _size g1)); [lia|exact Hj].
Qed.

(** X5. The constructor from a sequence does not fill the buffer first, and
    yet every cell of the buffer is determined by the sequence. *)
Theorem make_from_list_initialises_buffer (fuel : nat)
    (uninit uninit' : nat -> T) (source : list T) :
  1 <= length source -> length source < fuel ->
  exists g g',
    gutter_retrieve.make_from_list fuel uninit source = Some g /\
    gutter_retrieve.make_from_list fuel uninit' source = Some g' /\
    forall j, in_buffer (length source) j -> heap g j = heap g' j.
Proof.
  intros Hn Hfuel.
  destruct (make_from_list_consistent fuel uninit source Hn Hfuel)
    as (g & Hg & Hsize & Hcons).
  destruct (make_from_list_consistent fuel uninit' source Hn Hfuel)
    as (g' & Hg' & Hsize' & Hcons').
  exists g, g'. split; [exact Hg|]. split; [exact Hg'|].
  rewrite <- Hsize. apply consistent_canonical; auto; try lia.
  destruct (assign_range_read_back fuel (Build uninit (length source))
              0 (length source) source) as (g0 & Hg0 & _ & Hget);
    cbn [_size]; try lia.
  destruct (assign_range_read_back fuel (Build uninit' (length source))
              0 (length source) source) as (g0' & Hg0' & _ & Hget');
    cbn [_size]; try lia.
  unfold gutter_retrieve.make_from_list in Hg, Hg'.
  rewrite Hg0 in Hg. rewrite Hg0' in Hg'. cbn [bind fst] in Hg, Hg'.
  injection Hg as <-. injection Hg' as <-.
  intros k Hk. rewrite <- Hget' in Hget at 2.
  rewrite Hsize in Hk.
  eapply (proj1 map_ext_in_iff Hget). apply in_seq. lia.
Qed.

End Construction.

(** ** The range assign, in full *)

Section RangeAssignFrame.
Context {T : Type} {op : FUNCTOR_T T}.

(** X6. The range [assign(i1, i2, input)] stores the first [i2 - i1] values
    of the input in the elements [i1 .. i2-1], leaves every other element
    as it was, and returns the input advanced past what it read. *)
Theorem range_assign_writes_range_only (fuel : nat) (g : t T) (i1 i2 : nat)
    (xs : list T) (d : T) :
  1 <= _size g -> i1 <= i2 <= _size g -> i2 - i1 <= length xs ->
  _size g < fuel ->
  exists g',
    gutter_retrieve.assign_range fuel g i1 i2 xs
      = Some (g', skipn (i2 - i1) xs) /\
    _size g' = _size g /\
    forall k, k < _size g ->
      gutter_retrieve.get g' k
      = if (i1 <=? k) && (k <? i2) then nth (k - i1) xs d
        else gutter_retrieve.get g k.
Proof.
  intros Hn Hi Hlen Hfuel.
  destruct (Nat.eq_dec i1 i2) as [->|Hne].
  - exists g. split; [|split; [reflexivity|]].
    + unfold gutter_retrieve.assign_range.
      rewrite Nat.ltb_irrefl, Nat.eqb_refl, Nat.sub_diag. reflexivity.
    + intros k Hk.
      destruct (Nat.leb_spec i2 k), (Nat.ltb_spec k i2); try lia; reflexivity.
  - destruct (assign_range_spec fuel g i1 i2 xs Hn ltac:(lia) Hlen Hfuel)
      as (h' & Hrun & Hin & Hout & _).
    exists (Build h' (_size g)). split; [exact Hrun|].
    split; [reflexivity|].
    intros k Hk. unfold gutter_retrieve.get. cbn [heap _size].
    destruct (Nat.leb_spec i1 k), (Nat.ltb_spec k i2); cbn [andb].
    + specialize (Hin k ltac:(lia)).
      now rewrite (nth_error_nth _ _ d Hin).
    + apply Hout.
      * pose proof (index_nth_leaf_range (_size g) k Hn Hk). lia.
      * intros k' Hk' Heq.
        apply (index_nth_leaf_inj (_size g)) in Heq; lia.
    + apply Hout.
      * pose proof (index_nth_leaf_range (_size g) k Hn Hk). lia.
      * intros k' Hk' Heq.
        apply (index_nth_leaf_inj (_size g)) in Heq; lia.
    + lia.
Qed.

End RangeAssignFrame.

(** ** The buffer is a function of the elements *)

Section Canonical.
Context {T : Type} {op : FUNCTOR_T T}.
Hypothesis identity_twice : combine identity identity = identity.

(** X7. Two trees of one size, each reached by a constructor and a sequence
    of calls, agree on every cell of the buffer as soon as they agree on
    the elements. *)
Theorem equal_elements_equal_buffers (fuel : nat) (uninit uninit' : nat -> T)
    (c c' : ctor T) (cs cs' : list (call T)) :
  1 <= ctor_size c -> ctor_size c' = ctor_size c ->
  forallb (valid_call (ctor_size c)) cs = true ->
  forallb (valid_call (ctor_size c)) cs' = true ->
  ctor_size c < fuel ->
  exists g g',
    history fuel uninit c cs = Some g /\
    history fuel uninit' c' cs' = Some g' /\
    ((forall k, k < ctor_size c ->
        gutter_retrieve.get g k = gutter_retrieve.get g' k) ->
     forall j, in_buffer (ctor_size c) j -> heap g j = heap g' j).
Proof.
  intros Hn Hsame Hcs Hcs' Hfuel.
  destruct (history_consistent identity_twice fuel uninit c cs Hn Hcs Hfuel)
    as (g & Hg & Hsize & Hcons).
  destruct (history_consistent identity_twice fuel uninit' c' cs')
    as (g' & Hg' & Hsize' & Hcons'); rewrite ?Hsame; auto.
  exists g, g'. split; [exact Hg|]. split; [exact Hg'|].
  rewrite <- Hsize. apply consistent_canonical; auto; lia.
Qed.

End Canonical.

(** ** A point update followed by a range query *)

Section UpdateThenQuery.
Context {T : Type} {op : FUNCTOR_T T}.
Hypothesis combine_assoc :
  forall a b c : T, combine (combine a b) c = combine a (combine b c).
Hypothesis combine_comm : forall a b : T, combine a b = combine b a.
Hypothesis identity_left : forall a : T, combine identity a = a.
Hypothesis identity_right : forall a : T, combine a identity = a.

Lemma fold_one_changed (f f' : nat -> T) (k : nat) (x : T) :
  f' k = combine (f k) x -> (forall j, j <> k -> f' j = f j) ->
  forall len a,
  fold_left combine (map f' (seq a len)) identity
  = if (a <=? k) && (k <? a + len)
    then combine (fold_left combine (map f (seq a len)) identity) x
    else fold_left combine (map f (seq a len)) identity.
Proof.
  intros Hk Hother. induction len as [|len IH]; intros a.
  - cbn [seq map fold_left].
    destruct (Nat.leb_spec a k), (Nat.ltb_spec k (a + 0)); try lia; reflexivity.
  - rewrite seq_S, !map_app, !fold_left_app. cbn [map fold_left].
    rewrite IH.
    destruct (Nat.leb_spec a k), (Nat.ltb_spec k (a + len)),
      (Nat.ltb_spec k (a + S len)); cbn [andb]; try lia.
    + rewrite (Hother (a + len)) by lia.
      rewrite !combine_assoc. f_equal. apply combine_comm.
    + replace (a + len) with k by lia. rewrite Hk.
      now rewrite combine_assoc.
    + now rewrite (Hother (a + len)) by lia.
    + now rewrite (Hother (a + len)) by lia.
Qed.

(** X8. After [apply(k, x)] the aggregate of a range that contains [k] is
    the former aggregate combined with [x], and the aggregate of any other
    range is the former one. *)
Theorem accumulate_after_apply (fuel : nat) (uninit : nat -> T) (c : ctor T)
    (cs : list (call T)) (k : nat) (x : T) (i1 i2 : nat) :
  1 <= ctor_size c -> forallb (valid_call (ctor_size c)) cs = true ->
  k < ctor_size c -> i1 <= i2 <= ctor_size c -> 2 * ctor_size c <= fuel ->
  exists g g' a,
    history fuel uninit c cs = Some g /\
    gutter_retrieve.apply fuel g k x = Some g' /\
    gutter_retrieve.accumulate fuel g i1 i2 = Some a /\
    gutter_retrieve.accumulate fuel g' i1 i2
    = Some (if (i1 <=? k) && (k <? i2) then combine a x else a).
Proof.
  intros Hn Hcs Hk Hi Hfuel.
  destruct (history_consistent (identity_left identity) fuel uninit c cs
              Hn Hcs ltac:(lia)) as (g & Hg & Hsize & Hcons).
  rewrite <- Hsize in *.
  destruct (apply_consistent fuel g k x Hn Hk ltac:(lia) Hcons)
    as (g' & Hg' & Hsize' & Hcons').
  assert (Hget : forall j, j < _size g ->
            gutter_retrieve.get g' j
            = if j =? k then combine (gutter_retrieve.get g k) x
              else gutter_retrieve.get g j).
  { destruct (leaf_write_get fuel (_size g) (heap g) k
                (combine (heap g (index_nth_leaf (_size g) k)) x)
                Hn Hk ltac:(lia)) as (h' & Hrun & Hh').
    unfold gutter_retrieve.apply in Hg'. rewrite Hrun in Hg'.
    injection Hg' as <-. intros j Hj. unfold gutter_retrieve.get.
    cbn [heap _size]. now apply Hh'. }
  exists g, g', (fold_left combine
                   (map (gutter_retrieve.get g) (seq i1 (i2 - i1))) identity).
  split; [exact Hg|]. split; [exact Hg'|]. split.
  - apply accumulate_consistent; auto.
  - rewrite (accumulate_consistent combine_assoc combine_comm identity_left
               identity_right fuel g' i1 i2); rewrite ?Hsize'; auto.
    f_equal. erewrite map_ext_in.
    + rewrite (fold_one_changed (gutter_retrieve.get g)
                 (fun j => if j =? k then combine (gutter_retrieve.get g k) x
                           else gutter_retrieve.get g j) k x).
      * replace (i1 + (i2 - i1)) with i2 by lia. reflexivity.
      * now rewrite Nat.eqb_refl.
      * intros j Hj. now destruct (Nat.eqb_spec j k).
    + intros j Hj. apply in_seq in Hj. apply Hget. lia.
Qed.

End UpdateThenQuery.

(** ** The stress test *)

(** The root holds the combination of all the elements. *)
Section RootTotal.
Context {T : Type} {op : FUNCTOR_T T}.
Hypothesis combine_assoc :
  forall a b c : T, combine (combine a b) c = combine a (combine b c).
Hypothesis combine_comm : forall a b : T, combine a b = combine b a.
Hypothesis identity_left : forall a : T, combine identity a = a.
Hypothesis identity_right : forall a : T, combine a identity = a.

Lemma sum_cells_ext (f f' : nat -> T) (a len : nat) :
  (forall k, a <= k < a + len -> f' k = f k) ->
  sum_cells f' a len = sum_cells f a len.
Proof.
  intros H. unfold sum_cells. f_equal. apply map_ext_in.
  intros k Hk. apply in_seq in Hk. apply H. lia.
Qed.

Lemma cells_from_root (n : nat) (h : nat -> T) :
  (forall j, 1 <= j < n -> node_ok h j) ->
  forall m, 1 <= m <= n -> sum_cells h m m = h 1.
Proof.
  intros Hh m. induction m as [|m IH]; intros Hm; [lia|].
  destruct m as [|m].
  - apply (sum_cells_1 identity_left).
  - rewrite <- IH by lia.
    rewrite (sum_cells_first combine_assoc identity_left identity_right
               h (S m) m).
    replace (S (S m)) with (m + 2) at 2 by lia.
    rewrite (sum_cells_app combine_assoc identity_left identity_right).
    rewrite combine_comm. f_equal.
    rewrite (Hh (S m)) by lia.
    unfold sum_cells, index_lbranch, index_rbranch.
    cbn [seq map fold_left]. rewrite identity_left.
    f_equal; f_equal; lia.
Qed.

Lemma elements_are_leaf_cells (n : nat) (h : nat -> T) :
  1 <= n ->
  fold_left combine (map (fun k => h (index_nth_leaf n k)) (seq 0 n)) identity
  = sum_cells h n n.
Proof.
  intros Hn.
  pose proof (leaf_values_sum combine_assoc identity_left identity_right
                n h 0 n Hn ltac:(lia)) as Hsum.
  cbv zeta in Hsum. rewrite Nat.sub_0_r in Hsum. rewrite Hsum. clear Hsum.
  pose proof (deepest_row_bounds n Hn) as HD.
  rewrite (index_nth_leaf_deep n 0) by lia.
  destruct (Nat.eq_dec (msb (2 * n - 1)) n) as [E|E].
  - rewrite (index_nth_leaf_deep n (n - 1)) by lia.
    destruct (Nat.ltb_spec (n - 1 + msb (2 * n - 1)) (0 + msb (2 * n - 1)));
      [lia|].
    rewrite E. f_equal; lia.
  - rewrite (index_nth_leaf_upper n (n - 1)) by lia.
    destruct (Nat.ltb_spec (n - 1 + msb (2 * n - 1) - n)
                (0 + msb (2 * n - 1))); [|lia].
    rewrite combine_comm.
    transitivity
      (sum_cells h n ((msb (2 * n - 1) - n) + (2 * n - msb (2 * n - 1))));
      [|f_equal; lia].
    rewrite (sum_cells_app combine_assoc identity_left identity_right).
    f_equal; f_equal; lia.
Qed.

Lemma root_is_total (g : t T) :
  1 <= _size g -> consistent g ->
  heap g 1
  = fold_left combine (map (gutter_retrieve.get g) (seq 0 (_size g))) identity.
Proof.
  intros Hn Hg. unfold gutter_retrieve.get.
  rewrite elements_are_leaf_cells by assumption.
  symmetry. apply (cells_from_root (_size g)); [exact Hg|lia].
Qed.

End RootTotal.

(** Two walks over the same nodes keep a relation that each step keeps. *)
Lemma apply_all_related {A B : Type} (phi : nat -> A -> A)
    (psi : nat -> B -> B) (R : A -> B -> Prop) (nodes : nat -> Prop) :
  (forall j a b, nodes j -> R a b -> R (phi j a) (psi j b)) ->
  forall log, Forall nodes log ->
  forall a b, R a b -> R (apply_all phi log a) (apply_all psi log b).
Proof.
  intros step log Hlog.
  induction Hlog as [|j log Hj _ IH]; intros a b HR; [exact HR|].
  cbn [apply_all fold_left]. apply IH. now apply step.
Qed.

(** Sums of natural numbers. *)
Section NaturalSums.
#[local] Existing Instance add_N.

Lemma add_N_assoc (a b c : N) :
  combine (combine a b) c = combine a (combine b c).
Proof. cbn. lia. Qed.

Lemma add_N_comm (a b : N) : combine a b = combine b a.
Proof. cbn. lia. Qed.

Lemma add_N_identity_left (a : N) : combine identity a = a.
Proof. reflexivity. Qed.

Lemma add_N_identity_right (a : N) : combine a identity = a.
Proof. cbn. lia. Qed.

Lemma cell_le_root (g : t N) :
  consistent g ->
  forall j, in_buffer (_size g) j -> (heap g j <= heap g 1)%N.
Proof.
  intros Hg. induction j as [j IH] using lt_wf_ind. intros Hj.
  unfold in_buffer in Hj.
  destruct (Nat.eq_dec j 1) as [->|Hj1]; [lia|].
  assert (Hp : 1 <= j / 2 < _size g) by lia.
  pose proof (Hg (j / 2) Hp) as Hok.
  unfold node_ok, index_lbranch, index_rbranch in Hok.
  cbn [combine add_N] in Hok.
  specialize (IH (j / 2) ltac:(lia) ltac:(unfold in_buffer; lia)).
  destruct (Nat.eq_dec j (2 * (j / 2))) as [E|E].
  - rewrite <- E in Hok. lia.
  - replace (2 * (j / 2) + 1) with j in Hok by lia. lia.
Qed.

Lemma range_le_total (f : nat -> N) (i1 i2 n : nat) :
  i1 <= i2 <= n ->
  (fold_left N.add (map f (seq i1 (i2 - i1))) 0 <=
   fold_left N.add (map f (seq 0 n)) 0)%N.
Proof.
  intros Hi.
  change (sum_cells f i1 (i2 - i1) <= sum_cells f 0 n)%N.
  replace n with (i1 + ((i2 - i1) + (n - i2))) at 1 by lia.
  rewrite !(sum_cells_app add_N_assoc add_N_identity_left
              add_N_identity_right).
  cbn [combine add_N Nat.add]. lia.
Qed.

Lemma total_after_add (f f' : nat -> N) (i : nat) (d : N) (n : nat) :
  i < n ->
  (forall k, k < n -> f' k = if k =? i then (f i + d)%N else f k) ->
  fold_left N.add (map f' (seq 0 n)) 0%N
  = (fold_left N.add (map f (seq 0 n)) 0 + d)%N.
Proof.
  intros Hi Hf'.
  change (sum_cells f' 0 n = (sum_cells f 0 n + d)%N).
  replace n with (i + (1 + (n - i - 1))) by lia.
  rewrite !(sum_cells_app add_N_assoc add_N_identity_left
              add_N_identity_right).
  rewrite !(sum_cells_1 add_N_identity_left).
  rewrite (sum_cells_ext f f' 0 i), (sum_cells_ext f f' (0 + i + 1)).
  - cbn [Nat.add]. rewrite (Hf' i Hi), Nat.eqb_refl.
    cbn [combine add_N]. lia.
  - intros k Hk. rewrite Hf' by lia.
    destruct (Nat.eqb_spec k i); [lia|reflexivity].
  - intros k Hk. rewrite Hf' by lia.
    destruct (Nat.eqb_spec k i); [lia|reflexivity].
Qed.

Lemma total_of_zeros (f : nat -> N) (n : nat) :
  (forall k, k < n -> f k = 0%N) ->
  fold_left N.add (map f (seq 0 n)) 0%N = 0%N.
Proof.
  induction n as [|n IH]; intros H; [reflexivity|].
  rewrite seq_S, map_app, fold_left_app. cbn [map fold_left Nat.add].
  rewrite IH by (intros k Hk; apply H; lia).
  rewrite H by lia. reflexivity.
Qed.

End NaturalSums.

Section StressTest.
Import String.
Variables lo hi : Z.
Hypothesis lo_nonpos : (lo <= 0)%Z.
#[local] Existing Instance add_N.
#[local] Existing Instance add_signed.

Local Notation "'cut_of' n hN hT" :=
  (forall j, in_buffer n j -> hT j = emb lo hi (hN j))
  (at level 10, n at level 9, hN at level 9, hT at level 9).

Lemma of_Z_inside (v : Z) :
  (lo <= v <= hi)%Z -> exists x, of_Z lo hi v = Some x /\ value x = v.
Proof.
  intros Hv. unfold of_Z.
  destruct (bool_dec ((lo <=? v)%Z && (v <=? hi)%Z) true) as [H|H].
  - eexists. split; reflexivity.
  - exfalso. apply H. lia.
Qed.

Lemma of_Z_outside (v : Z) : ~ (lo <= v <= hi)%Z -> of_Z lo hi v = None.
Proof.
  intros Hv. unfold of_Z.
  destruct (bool_dec ((lo <=? v)%Z && (v <=? hi)%Z) true) as [H|H];
    [exfalso; lia|reflexivity].
Qed.

Lemma emb_defined (v : N) :
  (Z.of_N v <= hi)%Z ->
  exists x, emb lo hi v = Some x /\ value x = Z.of_N v.
Proof. intros Hv. apply of_Z_inside. lia. Qed.

(** Cutting to the limits commutes with the sum. *)
Lemma emb_plus (a b : N) :
  plus lo hi (emb lo hi a) (emb lo hi b) = emb lo hi (a + b).
Proof.
  unfold emb. rewrite N2Z.inj_add.
  destruct (Z_le_gt_dec (Z.of_N a) hi) as [Ha|Ha].
  - destruct (of_Z_inside (Z.of_N a)) as (x & -> & Hx); [lia|].
    destruct (Z_le_gt_dec (Z.of_N b) hi) as [Hb|Hb].
    + destruct (of_Z_inside (Z.of_N b)) as (y & -> & Hy); [lia|].
      cbn [plus]. now rewrite Hx, Hy.
    + rewrite (of_Z_outside (Z.of_N b)) by lia. cbn [plus].
      now rewrite of_Z_outside by lia.
  - rewrite (of_Z_outside (Z.of_N a)) by lia. cbn [plus].
    now rewrite of_Z_outside by lia.
Qed.

Lemma update_parent_cut (n j : nat) (hN : nat -> N)
    (hT : nat -> option (integer lo hi)) :
  internal n j -> cut_of n hN hT ->
  cut_of n (gutter_retrieve.functor_update_parent j hN)
    (gutter_retrieve.functor_update_parent j hT).
Proof.
  unfold internal. intros Hj H c Hc.
  unfold gutter_retrieve.functor_update_parent, store,
    index_lbranch, index_rbranch.
  destruct (c =? j); [|now apply H].
  rewrite (H (2 * j)), (H (2 * j + 1)) by (unfold in_buffer; lia).
  apply emb_plus.
Qed.

(** [apply] on the tree of the test and on the tree of natural numbers. *)
Lemma apply_cut (fuel : nat) (gN : t N) (gT : t (option (integer lo hi)))
    (k : nat) (d : N) :
  1 <= _size gN -> _size gT = _size gN -> k < _size gN -> _size gN < fuel ->
  cut_of (_size gN) (heap gN) (heap gT) ->
  exists gN' gT',
    gutter_retrieve.apply fuel gN k d = Some gN' /\
    gutter_retrieve.apply fuel gT k (emb lo hi d) = Some gT' /\
    _size gN' = _size gN /\ _size gT' = _size gN /\
    cut_of (_size gN) (heap gN') (heap gT').
Proof.
  destruct gN as [hN n], gT as [hT n']. cbn [_size heap].
  intros Hn -> Hk Hfuel Hcut.
  pose proof (index_nth_leaf_range n k Hn Hk) as Hl.
  unfold gutter_retrieve.apply. cbn [_size heap].
  rewrite !act_on_all_ancestors_leafup_path by (unfold index_parent; lia).
  cbn [bind]. do 2 eexists. split; [reflexivity|]. split; [reflexivity|].
  cbn [_size heap]. split; [reflexivity|]. split; [reflexivity|].
  apply (apply_all_related _ _
           (fun hN hT => cut_of n hN hT) (internal n)).
  - intros j a b Hj Hab. now apply update_parent_cut.
  - apply Forall_forall. intros j Hj. apply path_bounded in Hj.
    unfold internal, index_parent in *. lia.
  - intros c Hc. unfold store.
    destruct (c =? index_nth_leaf n k); [|now apply Hcut].
    cbn [combine add_signed add_N].
    rewrite (Hcut (index_nth_leaf n k)) by (unfold in_buffer; lia).
    apply emb_plus.
Qed.

(** [accumulate] on the tree of the test and on the tree of natural
    numbers. *)
Lemma accumulate_cut (fuel : nat) (gN : t N)
    (gT : t (option (integer lo hi))) (i1 i2 : nat) :
  1 <= _size gN -> _size gT = _size gN -> i1 <= i2 <= _size gN ->
  2 * _size gN <= fuel ->
  cut_of (_size gN) (heap gN) (heap gT) ->
  exists a,
    gutter_retrieve.accumulate fuel gN i1 i2 = Some a /\
    gutter_retrieve.accumulate fuel gT i1 i2 = Some (emb lo hi a).
Proof.
  destruct gN as [hN n], gT as [hT n']. cbn [_size heap].
  intros Hn -> Hi Hfuel Hcut.
  destruct (covering_nodes_on_path n fuel i1 i2 Hn Hi Hfuel)
    as (log & Hlog & _).
  pose proof (covering_nodes_in_buffer n fuel i1 i2 log Hn Hi Hfuel Hlog)
    as Hbuf.
  unfold gutter_retrieve.accumulate. cbn [_size heap].
  rewrite (act_on_min_covering_ancestors_fold (functor_get hN)).
  rewrite (act_on_min_covering_ancestors_fold (functor_get hT)).
  rewrite Hlog. cbn [option_map].
  eexists. split; [reflexivity|]. f_equal.
  apply (apply_all_related (functor_get hN) (functor_get hT)
           (fun a b => b = emb lo hi a) (in_buffer n)).
  - intros j a b Hj ->. unfold functor_get.
    cbn [combine add_signed add_N]. rewrite (Hcut j Hj). apply emb_plus.
  - exact Hbuf.
  - reflexivity.
Qed.

Lemma quiet_app (out more : list test_gutter_retrieve_sum.out_item) :
  quiet out ->
  forallb
    (fun o =>
       match o with
       | test_gutter_retrieve_sum.Text s => negb (s =? "FAILURE")%string
       | _ => true
       end) more = true ->
  quiet (out ++ more).
Proof.
  unfold quiet. intros Hout Hmore Hin. apply in_app_or in Hin.
  destruct Hin as [Hin|Hin]; [auto|].
  rewrite forallb_forall in Hmore. specialize (Hmore _ Hin).
  cbn in Hmore. discriminate.
Qed.

Lemma values_cleared (len : nat) (v : nat -> option (integer lo hi)) :
  forall k, k < len ->
  fold_left (fun values i => store values i (of_Z lo hi 0)) (seq 0 len) v k
  = of_Z lo hi 0.
Proof.
  induction len as [|len IH]; intros k Hk; [lia|].
  rewrite seq_S, fold_left_app. cbn [fold_left Nat.add].
  destruct (Nat.eq_dec k len) as [->|Hne].
  - apply store_eq.
  - rewrite store_neq by assumption. apply IH. lia.
Qed.

Lemma make_mirrors (uninit uninit_values : nat -> option (integer lo hi))
    (len : nat) :
  1 <= len ->
  mirrors lo hi (test_gutter_retrieve_sum.make lo hi uninit uninit_values len)
    0%N.
Proof.
  intros Hlen. unfold mirrors, test_gutter_retrieve_sum.make.
  cbn [test_gutter_retrieve_sum.rsh test_gutter_retrieve_sum.size
       test_gutter_retrieve_sum.values].
  exists (gutter_retrieve.make (fun _ => 0%N) len).
  split; [reflexivity|]. split; [reflexivity|].
  split; [now apply make_consistent|]. split; [|split].
  - intros j Hj. unfold in_buffer in Hj.
    cbn [gutter_retrieve.make heap]. rewrite !fill_inside by lia.
    reflexivity.
  - intros k Hk. cbn [identity add_signed].
    rewrite values_cleared by assumption.
    unfold gutter_retrieve.get, gutter_retrieve.make. cbn [heap _size].
    pose proof (index_nth_leaf_range len k Hlen Hk).
    rewrite fill_inside by lia. reflexivity.
  - apply total_of_zeros. intros k Hk.
    unfold gutter_retrieve.get, gutter_retrieve.make. cbn [heap _size].
    pose proof (index_nth_leaf_range len k Hlen Hk).
    rewrite fill_inside by lia. reflexivity.
Qed.

Lemma test_add_to_mirrors (fuel : nat) (s : test_gutter_retrieve_sum.t lo hi)
    (index : nat) (d total : N)
    (out : list test_gutter_retrieve_sum.out_item) :
  1 <= test_gutter_retrieve_sum.size s ->
  index < test_gutter_retrieve_sum.size s ->
  test_gutter_retrieve_sum.size s < fuel ->
  (Z.of_N d <= hi)%Z ->
  mirrors lo hi s total -> quiet out ->
  exists s' out',
    test_gutter_retrieve_sum.test_add_to lo hi fuel s index (emb lo hi d)
      true out = Some (s', out') /\
    test_gutter_retrieve_sum.size s' = test_gutter_retrieve_sum.size s /\
    mirrors lo hi s' (total + d) /\ quiet out'.
Proof.
  intros Hn Hindex Hfuel Hd (g & Hsize & HsizeN & Hcons & Hcells & Hvals & Htot)
    Hout.
  rewrite <- HsizeN in Hn, Hindex, Hfuel, Hcells.
  destruct (apply_cut fuel g (test_gutter_retrieve_sum.rsh s) index d
              Hn ltac:(congruence) Hindex Hfuel Hcells)
    as (g' & gT' & Hg' & HgT' & Hsize' & HsizeT' & Hcells').
  destruct (apply_consistent fuel g index d Hn Hindex Hfuel Hcons)
    as (g2 & Hg2 & _ & Hcons').
  rewrite Hg' in Hg2. injection Hg2 as <-.
  assert (Hget : forall j, j < _size g ->
            gutter_retrieve.get g' j
            = if j =? index then (gutter_retrieve.get g index + d)%N
              else gutter_retrieve.get g j).
  { destruct (leaf_write_get fuel (_size g) (heap g) index
                (combine (heap g (index_nth_leaf (_size g) index)) d)
                Hn Hindex ltac:(lia)) as (h' & Hrun & Hh').
    pose proof Hg' as Hg''.
    unfold gutter_retrieve.apply in Hg''. rewrite Hrun in Hg''.
    injection Hg'' as <-. intros j Hj. unfold gutter_retrieve.get.
    cbn [heap _size]. now apply Hh'. }
  destruct (emb_defined d Hd) as (x & Hx & _).
  unfold test_gutter_retrieve_sum.test_add_to.
  rewrite Hx. cbn [bind]. rewrite <- Hx, HgT'. cbn [bind].
  do 2 eexists. split; [reflexivity|].
  cbn [test_gutter_retrieve_sum.size]. split; [reflexivity|]. split.
  - exists g'.
    cbn [test_gutter_retrieve_sum.rsh test_gutter_retrieve_sum.size
         test_gutter_retrieve_sum.values].
    split; [congruence|]. split; [congruence|]. split; [exact Hcons'|].
    split; [|split].
    + rewrite <- HsizeN. exact Hcells'.
    + intros k Hk. rewrite Hget by lia.
      destruct (Nat.eqb_spec k index) as [->|Hne].
      * rewrite store_eq, Hvals by lia. cbn [combine add_signed].
        apply emb_plus.
      * rewrite store_neq by assumption. apply Hvals. lia.
    + rewrite <- Htot, <- HsizeN.
      apply (total_after_add (gutter_retrieve.get g)
               (gutter_retrieve.get g') index d (_size g) Hindex Hget).
  - apply quiet_app; [exact Hout|reflexivity].
Qed.

Lemma sum_loop_sums (values : nat -> option (integer lo hi)) (f : nat -> N)
    (index2 : nat) :
  forall fuel index1 tmp2,
  index1 <= index2 -> index2 - index1 < fuel ->
  (forall k, index1 <= k < index2 -> values k = emb lo hi (f k)) ->
  test_gutter_retrieve_sum.sum_loop lo hi fuel values index1 index2
    (emb lo hi tmp2)
  = Some (index2,
          emb lo hi
            (fold_left N.add (map f (seq index1 (index2 - index1))) tmp2)).
Proof.
  induction fuel as [|fuel IH]; intros index1 tmp2 Hle Hfuel Hvals; [lia|].
  cbn [test_gutter_retrieve_sum.sum_loop].
  destruct (Nat.ltb_spec index1 index2) as [Hlt|Hge].
  - rewrite (Hvals index1) by lia. rewrite emb_plus.
    rewrite IH by (try lia; intros k Hk; apply Hvals; lia).
    replace (index2 - index1) with (S (index2 - (index1 + 1))) by lia.
    cbn [seq map fold_left]. now rewrite Nat.add_1_r.
  - replace index1 with index2 by lia. now rewrite Nat.sub_diag.
Qed.

Lemma test_sum_range_passes (fuel : nat)
    (s : test_gutter_retrieve_sum.t lo hi) (index1 index2 : nat) (total : N)
    (out : list test_gutter_retrieve_sum.out_item) :
  1 <= test_gutter_retrieve_sum.size s ->
  index1 <= index2 <= test_gutter_retrieve_sum.size s ->
  2 * test_gutter_retrieve_sum.size s <= fuel ->
  mirrors lo hi s total -> (Z.of_N total <= hi)%Z ->
  test_gutter_retrieve_sum.test_sum_range lo hi fuel s index1 index2 false out
  = Some (true, out).
Proof.
  intros Hn Hi Hfuel (g & Hsize & HsizeN & Hcons & Hcells & Hvals & Htot)
    Htotal.
  rewrite <- HsizeN in Hn, Hi, Hfuel, Hcells.
  destruct (accumulate_cut fuel g (test_gutter_retrieve_sum.rsh s)
              index1 index2 Hn ltac:(congruence) Hi Hfuel Hcells)
    as (a & Ha & HaT).
  rewrite (accumulate_consistent add_N_assoc add_N_comm add_N_identity_left
             add_N_identity_right) in Ha by assumption.
  injection Ha as <-.
  unfold test_gutter_retrieve_sum.test_sum_range.
  rewrite HaT. cbn [bind].
  change (of_Z lo hi 0) with (emb lo hi 0).
  rewrite (sum_loop_sums _ (gutter_retrieve.get g))
    by (try lia; intros k Hk; apply Hvals; lia).
  cbn [bind fst snd combine identity add_N].
  pose proof (range_le_total (gutter_retrieve.get g) index1 index2 (_size g)
                Hi) as Hle.
  rewrite HsizeN, Htot in Hle.
  destruct (emb_defined
              (fold_left N.add
                 (map (gutter_retrieve.get g) (seq index1 (index2 - index1)))
                 0%N)) as (x & -> & _); [lia|].
  cbn [bind]. rewrite Z.eqb_refl. reflexivity.
Qed.

Lemma check_row_passes (fuel : nat) (s : test_gutter_retrieve_sum.t lo hi)
    (i : nat) (total : N) (out : list test_gutter_retrieve_sum.out_item) :
  1 <= test_gutter_retrieve_sum.size s ->
  2 * test_gutter_retrieve_sum.size s <= fuel ->
  mirrors lo hi s total -> (Z.of_N total <= hi)%Z ->
  forall jvals,
  Forall (fun j => i <= j <= test_gutter_retrieve_sum.size s) jvals ->
  test_gutter_retrieve_sum.check_row lo hi fuel s i jvals out
  = Some (false, out).
Proof.
  intros Hn Hfuel Hmirror Htotal jvals Hall.
  induction Hall as [|j jvals Hj _ IH]; [reflexivity|].
  cbn [test_gutter_retrieve_sum.check_row].
  rewrite (test_sum_range_passes fuel s i j total) by assumption.
  cbn [bind fst snd negb]. exact IH.
Qed.

Lemma check_rows_passes (fuel : nat) (s : test_gutter_retrieve_sum.t lo hi)
    (index : nat) (total : N)
    (out : list test_gutter_retrieve_sum.out_item) :
  1 <= test_gutter_retrieve_sum.size s ->
  2 * test_gutter_retrieve_sum.size s <= fuel ->
  mirrors lo hi s total -> (Z.of_N total <= hi)%Z ->
  forall ivals,
  Forall (fun i => i <= index) ivals ->
  test_gutter_retrieve_sum.check_rows lo hi fuel s index ivals out
  = Some (false, out).
Proof.
  intros Hn Hfuel Hmirror Htotal ivals Hall.
  induction Hall as [|i ivals Hi _ IH]; [reflexivity|].
  cbn [test_gutter_retrieve_sum.check_rows].
  rewrite (check_row_passes fuel s i total); auto.
  apply Forall_forall. intros j Hj. apply in_seq in Hj. lia.
Qed.

Lemma stress_loop_runs_on (fuel len : nat) :
  forall rand s total out,
  List.length rand <= len ->
  1 <= test_gutter_retrieve_sum.size s ->
  2 * test_gutter_retrieve_sum.size s <= fuel ->
  mirrors lo hi s total ->
  (Z.of_N total + 200000 * Z.of_nat (List.length rand / 2) <= hi)%Z ->
  quiet out ->
  exists s' total' out',
    test_gutter_retrieve_sum.stress_loop lo hi fuel s rand out
      = Some (false, s', out') /\
    test_gutter_retrieve_sum.size s' = test_gutter_retrieve_sum.size s /\
    mirrors lo hi s' total' /\ (Z.of_N total' <= hi)%Z /\ quiet out'.
Proof.
  induction len as [|len IH];
    intros rand s total out Hlen Hn Hfuel Hmirror Htotal Hout.
  - destruct rand; [|cbn in Hlen; lia]. exists s, total, out.
    cbn [List.length] in Htotal. repeat split; auto. lia.
  - destruct rand as [|r1 [|r2 rand]];
      try (exists s, total, out; cbn [List.length] in Htotal;
           repeat split; auto; lia).
    cbn [test_gutter_retrieve_sum.stress_loop].
    set (index := N.to_nat (r1 mod N.of_nat (test_gutter_retrieve_sum.size s))).
    assert (Hindex : index < test_gutter_retrieve_sum.size s).
    { subst index.
      pose proof (N.mod_lt r1 (N.of_nat (test_gutter_retrieve_sum.size s))).
      lia. }
    pose proof (N.mod_lt r2 200000 ltac:(lia)) as Hr2.
    cbn [List.length] in Htotal, Hlen.
    assert (Hrounds : List.length (r1 :: r2 :: rand) / 2
                      = S (List.length rand / 2)).
    { cbn [List.length]. lia. }
    cbn [List.length] in Hrounds. rewrite Hrounds in Htotal.
    replace (of_Z lo hi (Z.of_N (r2 mod 200000) + 1))
      with (emb lo hi (r2 mod 200000 + 1))
      by (unfold emb; f_equal; lia).
    destruct (test_add_to_mirrors fuel s index (r2 mod 200000 + 1) total
                out Hn Hindex ltac:(lia) ltac:(lia) Hmirror Hout)
      as (s' & out' & Hadd & Hsize' & Hmirror' & Hout').
    rewrite Hadd. cbn [bind fst snd].
    rewrite (check_rows_passes fuel s' index (total + (r2 mod 200000 + 1)));
      rewrite ?Hsize'; auto; try lia.
    + cbn [bind fst snd]. rewrite <- Hsize'.
      apply (IH rand s' (total + (r2 mod 200000 + 1))%N);
        rewrite ?Hsize'; auto; lia.
    + apply Forall_forall. intros i Hi. apply in_seq in Hi. lia.
Qed.

(** X9. For the signed type of the test with the limits [lo <= 0] and
    [hi], and for every sequence of random draws short enough for the
    added values to stay within [hi] (each round draws twice and adds at
    most 200000), no addition overflows, the stress test never reports a
    failure and never returns: each range sum of the tree equals the sum
    of the plain array, so the test is still in its loop when the draws
    run out, [FAILURE] is not in the output, and every cell of the tree
    and every entry of the array holds a value. *)
Theorem stress_test_never_fails (fuel : nat)
    (uninit uninit_values : nat -> option (integer lo hi))
    (len : nat) (rand : list N) :
  (200000 * Z.of_nat (List.length rand / 2) <= hi)%Z ->
  1 <= len -> 2 * len <= fuel ->
  exists s out,
    test_gutter_retrieve_sum.stress_test lo hi fuel
      (test_gutter_retrieve_sum.make lo hi uninit uninit_values len) rand []
      = Some (false, s, out) /\
    ~ In (test_gutter_retrieve_sum.Text "FAILURE") out /\
    (forall j, in_buffer len j ->
       heap (test_gutter_retrieve_sum.rsh s) j <> None) /\
    forall k, k < len ->
      test_gutter_retrieve_sum.values s k <> None /\
      gutter_retrieve.get (test_gutter_retrieve_sum.rsh s) k
      = test_gutter_retrieve_sum.values s k.
Proof.
  intros Hrand Hlen Hfuel. unfold test_gutter_retrieve_sum.stress_test.
  destruct (stress_loop_runs_on fuel (List.length rand) rand
              (test_gutter_retrieve_sum.make lo hi uninit uninit_values len)
              0%N
              ([] ++ [test_gutter_retrieve_sum.Text
                        ("Test suite:" ++ test_gutter_retrieve_sum.tab
                         ++ "gutter_retrieve<T,+> class");
                      test_gutter_retrieve_sum.Endl;
                      test_gutter_retrieve_sum.Text
                        (test_gutter_retrieve_sum.tab ++ "target:"
                         ++ test_gutter_retrieve_sum.tab
                         ++ "apply(T), accumulate(I,I) methods");
                      test_gutter_retrieve_sum.Endl;
                      test_gutter_retrieve_sum.Text
                        (test_gutter_retrieve_sum.tab ++ "type:"
                         ++ test_gutter_retrieve_sum.tab ++ "stress test");
                      test_gutter_retrieve_sum.Endl;
                      test_gutter_retrieve_sum.Text "Beginning Test.";
                      test_gutter_retrieve_sum.Endl])%list)
    as (s & total & out & Hrun & Hsize & Hmirror & Htotal & Hout); auto.
  - now apply make_mirrors.
  - apply quiet_app; [intros []|reflexivity].
  - cbn [test_gutter_retrieve_sum.make test_gutter_retrieve_sum.size]
      in Hsize.
    destruct Hmirror as (g & HsizeT & HsizeN & Hcons & Hcells & Hvals & Htot).
    rewrite Hsize in *.
    assert (Hroot : heap g 1 = total).
    { rewrite (root_is_total add_N_assoc add_N_comm add_N_identity_left
                 add_N_identity_right g) by (auto; lia).
      rewrite HsizeN. exact Htot. }
    assert (Hcell : forall j, in_buffer len j ->
              exists x, emb lo hi (heap g j) = Some x).
    { intros j Hj.
      pose proof (cell_le_root g Hcons j ltac:(now rewrite HsizeN)) as Hle.
      destruct (emb_defined (heap g j)) as (x & Hx & _); [lia|].
      now exists x. }
    exists s, out. split; [exact Hrun|]. split; [exact Hout|]. split.
    + intros j Hj. rewrite Hcells by assumption.
      destruct (Hcell j Hj) as (x & ->). discriminate.
    + intros k Hk.
      pose proof (index_nth_leaf_range len k Hlen Hk) as Hl.
      assert (Hin : in_buffer len (index_nth_leaf len k))
        by (unfold in_buffer; lia).
      rewrite Hvals by assumption. unfold gutter_retrieve.get.
      rewrite HsizeT, HsizeN. split.
      * destruct (Hcell _ Hin) as (x & ->). discriminate.
      * now apply Hcells.
Qed.

End StressTest.

(** ** Every update of the range-update tree, read back *)

Section EveryUpdate.
Context {T : Type} {op : FUNCTOR_T T}.
Hypothesis combine_assoc :
  forall a b c : T, combine (combine a b) c = combine a (combine b c).
Hypothesis combine_comm : forall a b : T, combine a b = combine b a.
Hypothesis identity_left : forall a : T, combine identity a = a.
Hypothesis identity_right : forall a : T, combine a identity = a.

(** Combining [x] into the cell of a leaf combines it into the value read
    at that leaf, and into no other. *)
Lemma leaf_apply_read (n : nat) (h : nat -> T) (k j : nat) (x : T) :
  1 <= n -> k < n -> j < n ->
  read_path
    (store h (index_nth_leaf n k) (combine (h (index_nth_leaf n k)) x))
    (index_nth_leaf n j)
  = if j =? k then combine (read_path h (index_nth_leaf n k)) x
    else read_path h (index_nth_leaf n j).
Proof.
  intros Hn Hk Hj.
  pose proof (index_nth_leaf_range n k Hn Hk) as Hl.
  pose proof (index_nth_leaf_range n j Hn Hj) as Hlj.
  destruct (Nat.eqb_spec j k) as [->|Hne].
  - set (l := index_nth_leaf n k) in *.
    rewrite (read_path_unfold combine_assoc identity_left identity_right
               (store h l (combine (h l) x)) l) by lia.
    rewrite (read_path_unfold combine_assoc identity_left identity_right h l)
      by lia.
    rewrite store_eq.
    rewrite (read_path_ext h (store h l (combine (h l) x)) (index_parent l)).
    + rewrite !combine_assoc. f_equal. apply combine_comm.
    + intros a Ha. apply path_bounded in Ha. apply store_neq.
      unfold index_parent in Ha. lia.
  - apply read_path_ext. intros a Ha. apply store_neq. intros ->.
    revert Ha. apply (leaf_not_on_path n); auto; try lia.
    intros Heq. apply Hne. symmetry.
    apply (index_nth_leaf_inj n); auto.
Qed.

Lemma point_apply_get (fuel : nat) (g : t T) (k : nat) (x : T) :
  1 <= _size g -> k < _size g -> 2 * _size g <= fuel ->
  forall j, j < _size g ->
  gutter_apply.get fuel (gutter_apply.apply g k x) j
  = if j =? k then option_map (fun v => combine v x) (gutter_apply.get fuel g k)
    else gutter_apply.get fuel g j.
Proof.
  intros Hn Hk Hfuel j Hj.
  pose proof (index_nth_leaf_range (_size g) k Hn Hk) as Hl.
  pose proof (index_nth_leaf_range (_size g) j Hn Hj) as Hlj.
  rewrite !get_read_path by (cbn [gutter_apply.apply _size]; lia).
  unfold gutter_apply.apply. cbn [heap _size].
  rewrite leaf_apply_read by assumption.
  destruct (Nat.eqb_spec j k); reflexivity.
Qed.

(** X10. The one-leaf [apply(k, x)] of the range-update tree combines [x]
    into element [k] and leaves every other element as it was. *)
Theorem point_apply_reads_back (fuel : nat) (g : t T) (k : nat) (x : T) :
  1 <= _size g -> k < _size g -> 2 * _size g <= fuel ->
  forall j, j < _size g ->
  exists v,
    gutter_apply.get fuel g j = Some v /\
    gutter_apply.get fuel (gutter_apply.apply g k x) j
    = Some (if j =? k then combine v x else v).
Proof.
  intros Hn Hk Hfuel j Hj.
  pose proof (index_nth_leaf_range (_size g) j Hn Hj) as Hlj.
  exists (read_path (heap g) (index_nth_leaf (_size g) j)).
  split; [apply get_read_path; lia|].
  rewrite point_apply_get by assumption.
  destruct (Nat.eqb_spec j k) as [->|Hne].
  - rewrite get_read_path by lia. reflexivity.
  - apply get_read_path. lia.
Qed.

Lemma run_update_read (fuel : nat) (u : update T) (g : t T) (k : nat) :
  1 <= _size g -> k < _size g -> valid_update (_size g) u = true ->
  2 * _size g + 2 <= fuel ->
  exists g',
    run_update fuel u g = Some g' /\ _size g' = _size g /\
    read_path (heap g') (index_nth_leaf (_size g) k)
    = fold_left combine (updates_at k [u])
        (read_path (heap g) (index_nth_leaf (_size g) k)).
Proof.
  intros Hn Hk Hvalid Hfuel.
  pose proof (index_nth_leaf_range (_size g) k Hn Hk) as Hl.
  destruct u as [j x|i1 i2 x]; cbn [valid_update] in Hvalid;
    cbn [run_update updates_at flat_map app].
  - exists (gutter_apply.apply g j x). split; [reflexivity|].
    split; [reflexivity|].
    unfold gutter_apply.apply. cbn [heap].
    rewrite leaf_apply_read by (auto; lia).
    rewrite (Nat.eqb_sym j k).
    destruct (Nat.eqb_spec k j) as [->|]; reflexivity.
  - destruct (Nat.leb_spec i2 i1) as [Hrev|Hord].
    + exists (Build (heap g) (_size g)). split; [|split; [reflexivity|]].
      * unfold gutter_apply.apply_range, act_on_min_covering_ancestors.
        destruct (Nat.leb_spec i2 i1); [reflexivity|lia].
      * cbn [heap].
        destruct (Nat.leb_spec i1 k), (Nat.ltb_spec k i2); try lia;
          reflexivity.
    + destruct (apply_range_read combine_assoc identity_left identity_right
                  combine_comm fuel g i1 i2 x Hn ltac:(lia) ltac:(lia))
        as (g' & Hrun & Hsize & Hread).
      exists g'. split; [exact Hrun|]. split; [exact Hsize|].
      rewrite Hread by assumption.
      destruct ((i1 <=? k) && (k <? i2)); reflexivity.
Qed.

Lemma updates_at_cons (k : nat) (u : update T) (us : list (update T)) :
  updates_at k (u :: us) = updates_at k [u] ++ updates_at k us.
Proof. unfold updates_at. cbn [flat_map]. now rewrite app_nil_r. Qed.

Lemma run_updates_read (fuel : nat) (k : nat) (us : list (update T)) :
  forall g,
  1 <= _size g -> k < _size g -> forallb (valid_update (_size g)) us = true ->
  2 * _size g + 2 <= fuel ->
  exists g',
    run_updates fuel us g = Some g' /\ _size g' = _size g /\
    read_path (heap g') (index_nth_leaf (_size g) k)
    = fold_left combine (updates_at k us)
        (read_path (heap g) (index_nth_leaf (_size g) k)).
Proof.
  induction us as [|u us IH]; intros g Hn Hk Hvalid Hfuel.
  - exists g. auto.
  - cbn [forallb] in Hvalid. apply andb_prop in Hvalid.
    destruct Hvalid as [Hu Hus].
    destruct (run_update_read fuel u g k Hn Hk Hu Hfuel)
      as (g1 & Hrun1 & Hsize1 & Hread1).
    destruct (IH g1) as (g' & Hrun & Hsize & Hread);
      rewrite ?Hsize1; auto.
    exists g'. cbn [run_updates]. rewrite Hrun1. cbn [bind].
    split; [exact Hrun|]. split; [congruence|].
    rewrite Hsize1 in Hread. rewrite Hread, Hread1.
    rewrite (updates_at_cons k u us), fold_left_app. reflexivity.
Qed.

(** X12. After any sequence of [apply] calls of the range-update tree, on
    one leaf or on a range and mixed in any order, on a fresh tree,
    element [k] reads as the combination of the values of the calls that
    touch [k]. *)
Theorem updates_read_back (fuel : nat) (uninit : nat -> T) (n : nat)
    (us : list (update T)) (k : nat) :
  1 <= n -> k < n -> forallb (valid_update n) us = true ->
  2 * n + 2 <= fuel ->
  exists g,
    run_updates fuel us (gutter_apply.make uninit n) = Some g /\
    gutter_apply.get fuel g k
    = Some (fold_left combine (updates_at k us) identity).
Proof.
  intros Hn Hk Hvalid Hfuel.
  destruct (run_updates_read fuel k us (gutter_apply.make uninit n))
    as (g & Hrun & Hsize & Hread); auto.
  cbn [gutter_apply.make _size heap] in Hsize, Hread.
  pose proof (index_nth_leaf_range n k Hn Hk) as Hl.
  exists g. split; [exact Hrun|].
  rewrite get_read_path by (rewrite Hsize; lia).
  rewrite Hsize, Hread.
  rewrite (read_path_fresh identity_left) by lia. reflexivity.
Qed.

End EveryUpdate.

(** ** The unused consolidation method *)

Section ConsolidateToChildren.
Context {T : Type} {op : FUNCTOR_T T}.
Hypothesis combine_assoc :
  forall a b c : T, combine (combine a b) c = combine a (combine b c).
Hypothesis identity_left : forall a : T, combine identity a = a.
Hypothesis identity_right : forall a : T, combine a identity = a.

(** X13. [consolidate_to_children(index)] on an internal node moves the
    pending value of the node into its two children: the node then holds
    the identity and every element reads as before. *)
Theorem consolidate_to_children_keeps_elements (fuel : nat) (g : t T)
    (index : nat) :
  1 <= index < _size g -> 2 * _size g <= fuel ->
  heap (gutter_apply.consolidate_to_children g index) index = identity /\
  forall j, j < _size g ->
    gutter_apply.get fuel (gutter_apply.consolidate_to_children g index) j
    = gutter_apply.get fuel g j.
Proof.
  intros Hindex Hfuel. split.
  - unfold gutter_apply.consolidate_to_children. cbn [heap]. apply store_eq.
  - intros j Hj.
    pose proof (index_nth_leaf_range (_size g) j ltac:(lia) Hj) as Hlj.
    rewrite !get_read_path
      by (cbn [gutter_apply.consolidate_to_children _size]; lia).
    f_equal.
    cbn [gutter_apply.consolidate_to_children heap _size].
    apply (consolidate_to_children_read combine_assoc identity_left
             identity_right g index); lia.
Qed.

End ConsolidateToChildren.

(** ** The walks of the base class *)

(** X14. [index_ancestor_in_row(index, row_1st)] returns the topmost node on
    the path from [index] to the root that is not above [row_1st]; below
    the row it returns [index] itself; with [row_1st = 0] its loop never
    ends. *)
Theorem index_ancestor_in_row_spec :
  (forall fuel index row_1st,
     1 <= row_1st <= index -> index < fuel ->
     exists a,
       index_ancestor_in_row fuel index row_1st = Some a /\
       In a (path index) /\ row_1st <= a < 2 * row_1st) /\
  (forall fuel index row_1st,
     index < row_1st ->
     index_ancestor_in_row (S fuel) index row_1st = Some index) /\
  (forall fuel index, index_ancestor_in_row fuel index 0 = None).
Proof.
  split; [|split].
  - induction fuel as [|fuel IH]; intros index row_1st Hrow Hfuel; [lia|].
    cbn [index_ancestor_in_row].
    destruct (Nat.leb_spec row_1st (index_parent index)) as [Hup|Hhere].
    + destruct (IH (index_parent index) row_1st) as (a & Hrun & Hin & Ha).
      * lia.
      * unfold index_parent in *. lia.
      * exists a. split; [exact Hrun|]. split; [|exact Ha].
        rewrite path_unfold by lia. now right.
    + exists index. split; [reflexivity|]. split.
      * apply path_self. lia.
      * unfold index_parent in Hhere. lia.
  - intros fuel index row_1st Hbelow. apply index_ancestor_in_row_here.
    unfold index_parent. lia.
  - induction fuel as [|fuel IH]; intros index; [reflexivity|].
    cbn [index_ancestor_in_row]. apply IH.
Qed.

(** X15. The ordered leaf walk over the cells of the elements
    [k1 .. k2-1] calls the functor on the cells of those elements, one
    after the other in the order of the elements, also where the range
    passes from the deepest row to the row above. *)
Theorem act_on_leaves_in_order_spec {F : Type} (phi : nat -> F -> F)
    (n fuel k1 k2 : nat) (f : F) :
  1 <= n -> k1 < k2 <= n -> k2 - k1 <= fuel ->
  act_on_leaves_in_order phi n fuel (index_nth_leaf n k1)
    (index_nth_leaf n (k2 - 1)) f
  = Some (apply_all phi (map (index_nth_leaf n) (seq k1 (k2 - k1))) f).
Proof.
  intros Hn Hk Hfuel.
  rewrite act_on_leaves_in_order_fold.
  rewrite act_on_leaves_in_order_visits by assumption. reflexivity.
Qed.

(** X16. The covering walk over the elements [k1 .. k2-1] calls the functor
    on cells of the buffer only, on exactly one node of the path to the
    root of every element in the range, and on no node of the path of any
    other element. *)
Theorem covering_walk_is_exact_cover {F : Type} (phi : nat -> F -> F)
    (n fuel k1 k2 : nat) (f : F) :
  1 <= n -> k1 <= k2 <= n -> 2 * n <= fuel ->
  exists log,
    act_on_min_covering_ancestors phi n fuel k1 k2 f
      = Some (apply_all phi log f) /\
    Forall (in_buffer n) log /\
    forall k, k < n ->
      fold_left Nat.add (map (on_path (index_nth_leaf n k)) log) 0
      = if (k1 <=? k) && (k <? k2) then 1 else 0.
Proof.
  intros Hn Hk Hfuel.
  destruct (covering_nodes_on_path n fuel k1 k2 Hn Hk Hfuel)
    as (log & Hlog & Hcover).
  exists log. split; [|split].
  - rewrite act_on_min_covering_ancestors_fold, Hlog. reflexivity.
  - now apply (covering_nodes_in_buffer n fuel k1 k2).
  - exact Hcover.
Qed.

(** The path of a node of row [r], by division. *)
Lemma path_rows (r : nat) :
  forall x, 2 ^ r <= x < 2 ^ S r ->
  path x = map (fun d => x / 2 ^ d) (seq 0 (S r)).
Proof.
  induction r as [|r IH]; intros x Hx.
  - cbn in Hx. replace x with 1 by lia. reflexivity.
  - pose proof (Nat.pow_succ_r' 2 r) as Hr.
    pose proof (Nat.pow_succ_r' 2 (S r)) as Hr'.
    assert (Hx' : 2 ^ r <= x / 2 < 2 ^ S r) by lia.
    rewrite path_unfold by lia. unfold index_parent. rewrite (IH _ Hx').
    change (seq 0 (S (S r))) with (0 :: seq 1 (S r)).
    cbn [map]. rewrite Nat.pow_0_r, Nat.div_1_r. f_equal.
    rewrite <- seq_shift, map_map. apply map_ext.
    intros d. now rewrite div_pow_S.
Qed.

Lemma rev_path_rows (r : nat) :
  forall x, 2 ^ r <= x < 2 ^ S r ->
  rev (path x) = map (fun rho => x / 2 ^ (r - rho)) (seq 0 (S r)).
Proof.
  induction r as [|r IH]; intros x Hx.
  - cbn in Hx. replace x with 1 by lia. reflexivity.
  - pose proof (Nat.pow_succ_r' 2 r) as Hr.
    pose proof (Nat.pow_succ_r' 2 (S r)) as Hr'.
    assert (Hx' : 2 ^ r <= x / 2 < 2 ^ S r) by lia.
    rewrite path_unfold by lia. unfold index_parent.
    cbn [rev]. rewrite (IH _ Hx').
    rewrite (seq_S (S r)), map_app. cbn [map Nat.add].
    rewrite Nat.sub_diag, Nat.pow_0_r, Nat.div_1_r. f_equal.
    apply map_ext_in. intros rho Hrho. apply in_seq in Hrho.
    replace (S r - rho) with (S (r - rho)) by lia.
    now rewrite div_pow_S.
Qed.

Lemma log2_row (r x : nat) : 2 ^ r <= x < 2 ^ S r -> Nat.log2 x = r.
Proof. intros Hx. apply Nat.log2_unique; lia. Qed.

Lemma row_of (x : nat) : 1 <= x -> 2 ^ Nat.log2 x <= x < 2 ^ S (Nat.log2 x).
Proof. intros Hx. apply Nat.log2_spec. lia. Qed.

(** X17. The leaf-up walk from [index] calls the functor on [index],
    [index / 2], [index / 4], ..., [1]: on [log2 index + 1] nodes. *)
Theorem act_on_all_ancestors_leafup_spec {F : Type} (phi : nat -> F -> F)
    (fuel index : nat) (f : F) :
  1 <= index -> index < fuel ->
  act_on_all_ancestors_leafup phi fuel index f
  = Some (apply_all phi
            (map (fun d => index / 2 ^ d) (seq 0 (S (Nat.log2 index)))) f).
Proof.
  intros Hindex Hfuel.
  rewrite act_on_all_ancestors_leafup_path by assumption.
  now rewrite (path_rows (Nat.log2 index)) by (apply row_of; assumption).
Qed.

Section RootDown.
Context {F : Type} (phi : nat -> F -> F).

(** The rows above row [r] of the one-index root-down walk. *)
Lemma rootdown_rows (r x : nat) (Hx : 2 ^ r <= x < 2 ^ S r) (m : nat) :
  forall rho fuel0 f,
  rho + m = r -> r < fuel0 ->
  rootdown_loop phi (m + fuel0) (2 ^ rho) x f
  = rootdown_loop phi fuel0 (2 ^ r) x
      (apply_all phi (map (fun rho' => x / 2 ^ (r - rho')) (seq rho m)) f).
Proof.
  induction m as [|m IH]; intros rho fuel0 f Hrows Hfuel.
  - replace rho with r by lia. reflexivity.
  - cbn [Nat.add rootdown_loop].
    assert (Hlt : 2 ^ rho < 2 ^ r) by (apply Nat.pow_lt_mono_r; lia).
    destruct (Nat.ltb_spec (2 ^ rho) x) as [_|]; [|lia].
    rewrite (index_ancestor_in_row_div (r - rho) rho x)
      by (replace (rho + (r - rho)) with r by lia; auto; lia).
    cbn [bind]. rewrite Nat.mul_comm, <- Nat.pow_succ_r'.
    rewrite IH by lia. reflexivity.
Qed.

(** X18. The one-index root-down walk calls the functor on the nodes of the
    path of [index] from the root down, and ends with [index] itself
    unless [index] is the first node of its row, which it leaves out. *)
Theorem act_on_all_ancestors_rootdown_spec (fuel index : nat) (f : F) :
  1 <= index -> 2 * index + 2 <= fuel ->
  act_on_all_ancestors_rootdown phi fuel index f
  = Some (apply_all phi
            (rev (path (if index =? index_first_of_row index
                        then index_parent index else index))) f).
Proof.
  intros Hindex Hfuel.
  pose proof (row_of index Hindex) as Hrow.
  set (r := Nat.log2 index) in *.
  assert (Hr : r < index).
  { pose proof (Nat.pow_gt_lin_r 2 r). lia. }
  unfold act_on_all_ancestors_rootdown, index_first_of_row.
  rewrite (msb_row r index Hrow).
  replace fuel with (r + (fuel - r)) by lia.
  pose proof (rootdown_rows r index Hrow r 0 (fuel - r) f eq_refl
                ltac:(lia)) as Hrows.
  change (2 ^ 0) with 1 in Hrows. rewrite Hrows. clear Hrows.
  destruct (fuel - r) as [|[|fuel1]] eqn:Hrest; try lia.
  cbn [rootdown_loop].
  destruct (Nat.eqb_spec index (2 ^ r)) as [Hfirst|Hlater].
  - destruct (Nat.ltb_spec (2 ^ r) index); [lia|]. f_equal. f_equal.
    destruct r as [|r'].
    + cbn in Hfirst. subst index. reflexivity.
    + pose proof (Nat.pow_succ_r' 2 r') as Hp.
      pose proof (Nat.pow_succ_r' 2 (S r')) as Hp'.
      unfold index_parent.
      rewrite (rev_path_rows r' (index / 2)) by lia.
      apply map_ext_in. intros rho Hrho. apply in_seq in Hrho.
      replace (S r' - rho) with (S (r' - rho)) by lia.
      now rewrite div_pow_S.
  - destruct (Nat.ltb_spec (2 ^ r) index); [|lia].
    rewrite (index_ancestor_in_row_div 0 r index)
      by (rewrite ?Nat.add_0_r; auto; lia).
    cbn [bind]. destruct (Nat.ltb_spec (2 ^ r * 2) index) as [Hbig|_].
    + rewrite Nat.mul_comm, <- Nat.pow_succ_r' in Hbig. lia.
    + f_equal. rewrite (rev_path_rows r index Hrow).
      rewrite seq_S, map_app, apply_all_app. cbn [map apply_all fold_left].
      now rewrite Nat.add_0_l, Nat.sub_diag.
Qed.

End RootDown.

(** ** The cost of the covering walk *)

Ltac covering_tests H :=
  unfold shift_right_bound, index_islbranch, index_parent in H;
  repeat match type of H with
  | context [?a =? ?b] =>
      destruct (Nat.eqb_spec a b); cbn [negb] in H
  end.

Lemma visit_length (j : nat) (log : list nat) :
  length (visit j log) = S (length log).
Proof. unfold visit. rewrite length_app. cbn. lia. Qed.

(** Both bounds in row [r]: at most two nodes for each row. *)
Lemma covering_count_same_row (fuel : nat) :
  forall r i1 i2 log log',
  2 ^ r <= i1 -> i1 <= i2 -> i2 < 2 ^ S r ->
  min_covering_loop visit fuel i1 i2 log = Some log' ->
  length log' <= length log + 2 * r + 1.
Proof.
  induction fuel as [|fuel IH]; intros r i1 i2 log log' H1 H12 H2 Hrun;
    [discriminate|].
  cbn [min_covering_loop] in Hrun.
  destruct (Nat.eqb_spec i1 i2) as [->|Hne].
  - injection Hrun as <-. rewrite visit_length. lia.
  - destruct r as [|r]; [cbn in *; lia|].
    pose proof (Nat.pow_succ_r' 2 r) as Hp.
    pose proof (Nat.pow_succ_r' 2 (S r)) as Hp'.
    covering_tests Hrun;
      try (injection Hrun as <-; rewrite !visit_length; lia);
      try lia;
      (apply (IH r) in Hrun; [rewrite ?visit_length in Hrun; lia|lia..]).
Qed.

(** The left bound one row below the right bound, which is in row [r]. *)
Lemma covering_count_two_rows (fuel : nat) :
  forall r i1 i2 log log',
  2 ^ r <= i2 -> i2 < 2 ^ S r -> 2 ^ S r <= i1 -> (i1 + 1) / 2 <= i2 ->
  min_covering_loop visit fuel i1 i2 log = Some log' ->
  length log' <= length log + 2 * r + 1.
Proof.
  induction fuel as [|fuel IH]; intros r i1 i2 log log' H2 H2' H1 Hhalf Hrun;
    [discriminate|].
  cbn [min_covering_loop] in Hrun.
  pose proof (Nat.pow_succ_r' 2 r) as Hp.
  destruct r as [|r].
  - rewrite Nat.pow_0_r in H2. rewrite Nat.pow_1_r in H2', H1.
    covering_tests Hrun;
      try (injection Hrun as <-; rewrite !visit_length; lia); lia.
  - pose proof (Nat.pow_succ_r' 2 r) as Hp'.
    covering_tests Hrun;
      try (injection Hrun as <-; rewrite !visit_length; lia);
      try lia;
      (apply (IH r) in Hrun; [rewrite ?visit_length in Hrun; lia|lia..]).
Qed.

(** X19. The covering walk over a range of [n] elements calls the functor on
    at most [2 * log2 (2n - 1) + 1] nodes, so that [accumulate] and the
    range [apply] read or write that many cells at most. *)
Theorem covering_walk_cost {F : Type} (phi : nat -> F -> F)
    (n fuel k1 k2 : nat) (f : F) :
  1 <= n -> k1 <= k2 <= n -> 2 * n <= fuel ->
  exists log,
    act_on_min_covering_ancestors phi n fuel k1 k2 f
      = Some (apply_all phi log f) /\
    length log <= 2 * Nat.log2 (2 * n - 1) + 1.
Proof.
  intros Hn Hk Hfuel.
  destruct (covering_nodes_on_path n fuel k1 k2 Hn Hk Hfuel)
    as (log & Hlog & _).
  exists log. split.
  - rewrite act_on_min_covering_ancestors_fold, Hlog. reflexivity.
  - unfold act_on_min_covering_ancestors in Hlog.
    destruct (Nat.leb_spec k2 k1) as [|Hlt].
    + injection Hlog as <-. cbn. lia.
    + destruct (deepest_row_shape n Hn) as (d & HD & HDn & Hd1 & Hd2).
      assert (Hd : Nat.log2 (2 * n - 1) = d).
      { apply Nat.log2_unique; [lia|]. rewrite Nat.pow_succ_r'. lia. }
      rewrite Hd.
      pose proof (index_nth_leaf_range n k1 Hn ltac:(lia)) as Hl1.
      pose proof (index_nth_leaf_range n (k2 - 1) Hn ltac:(lia)) as Hl2.
      pose proof (Nat.pow_succ_r' 2 d) as Hp.
      revert Hlog Hl1 Hl2.
      leaf_split n k1; leaf_split n (k2 - 1); rewrite HD in *;
        intros Hlog Hl1 Hl2.
      * apply (covering_count_same_row fuel d) in Hlog; cbn [length] in Hlog;
          lia.
      * destruct d as [|d]; [cbn in *; lia|].
        pose proof (Nat.pow_succ_r' 2 d) as Hp'.
        apply (covering_count_two_rows fuel d) in Hlog; cbn [length] in Hlog;
          lia.
      * lia.
      * destruct d as [|d]; [cbn in *; lia|].
        pose proof (Nat.pow_succ_r' 2 d) as Hp'.
        apply (covering_count_same_row fuel d) in Hlog; cbn [length] in Hlog;
          lia.
Qed.

(** ** Nothing outside the buffer is read or written *)

Section BufferLocal.
Context {T : Type}.
Variable n : nat.
Variable phi : nat -> (nat -> T) -> nat -> T.
Variable nodes : nat -> Prop.
Hypothesis phi_frame :
  forall j h c, nodes j -> ~ in_buffer n c -> phi j h c = h c.
Hypothesis phi_agree :
  forall j h h', nodes j -> agree n h h' -> agree n (phi j h) (phi j h').

Lemma apply_all_in_buffer (log : list nat) :
  Forall nodes log ->
  forall h h', agree n h h' ->
  agree n (apply_all phi log h) (apply_all phi log h') /\
  (forall c, ~ in_buffer n c -> apply_all phi log h c = h c).
Proof.
  induction 1 as [|j log Hj _ IH]; intros h h' Hagree.
  - split; [exact Hagree|reflexivity].
  - cbn [apply_all fold_left].
    destruct (IH (phi j h) (phi j h') (phi_agree j h h' Hj Hagree))
      as [Hag Hframe].
    split; [exact Hag|].
    intros c Hc. unfold apply_all in Hframe. rewrite Hframe by assumption.
    now apply phi_frame.
Qed.

End BufferLocal.

Section FunctorsInBuffer.
Context {T : Type} {op : FUNCTOR_T T}.
Variable n : nat.

Lemma store_agree (h h' : nat -> T) (i : nat) (v v' : T) :
  agree n h h' -> v = v' -> agree n (store h i v) (store h' i v').
Proof.
  intros Hagree -> j Hj. unfold store.
  destruct (j =? i); [reflexivity|now apply Hagree].
Qed.

Lemma update_parent_frame (j : nat) (h : nat -> T) (c : nat) :
  internal n j -> ~ in_buffer n c ->
  gutter_retrieve.functor_update_parent j h c = h c.
Proof.
  unfold internal, in_buffer. intros Hj Hc.
  apply store_neq. lia.
Qed.

Lemma update_parent_agree (j : nat) (h h' : nat -> T) :
  internal n j -> agree n h h' ->
  agree n (gutter_retrieve.functor_update_parent j h)
    (gutter_retrieve.functor_update_parent j h').
Proof.
  unfold internal. intros Hj Hagree.
  apply store_agree; [exact Hagree|].
  unfold index_lbranch, index_rbranch.
  rewrite (Hagree (2 * j)), (Hagree (2 * j + 1));
    unfold in_buffer; try lia. reflexivity.
Qed.

Lemma functor_apply_frame (x : T) (j : nat) (h : nat -> T) (c : nat) :
  in_buffer n j -> ~ in_buffer n c -> functor_apply x j h c = h c.
Proof. intros Hj Hc. apply store_neq. intros ->. auto. Qed.

Lemma functor_apply_agree (x : T) (j : nat) (h h' : nat -> T) :
  in_buffer n j -> agree n h h' ->
  agree n (functor_apply x j h) (functor_apply x j h').
Proof.
  intros Hj Hagree. apply store_agree; [exact Hagree|].
  now rewrite (Hagree j Hj).
Qed.

End FunctorsInBuffer.

(** The nodes of the two-index walks. *)
Lemma leafup_pair_loop_nodes (n fuel : nat) :
  forall i1 i2,
  i1 < fuel -> i2 < n ->
  exists log,
    Forall (internal n) log /\
    forall (F : Type) (phi : nat -> F -> F) (f : F),
      leafup_pair_loop phi fuel i1 i2 f = Some (apply_all phi log f).
Proof.
  induction fuel as [|fuel IH]; intros i1 i2 Hfuel Hi2; [lia|].
  destruct (Nat.ltb_spec 0 i1) as [Hpos|Hzero].
  - destruct (IH (index_parent i1) (index_parent i2)) as (log & Hlog & Hrun).
    { unfold index_parent. lia. }
    { unfold index_parent. lia. }
    exists (seq i1 (S i2 - i1) ++ log). split.
    + apply Forall_app. split; [|exact Hlog].
      apply Forall_forall. intros a Ha. apply in_seq in Ha.
      unfold internal. lia.
    + intros F phi f. cbn [leafup_pair_loop].
      destruct (Nat.ltb_spec 0 i1); [|lia].
      rewrite Hrun, apply_all_app. reflexivity.
  - exists []. split; [constructor|]. intros F phi f.
    cbn [leafup_pair_loop].
    destruct (Nat.ltb_spec 0 i1); [lia|reflexivity].
Qed.

Lemma last_of_row_internal (n fuel row_1st : nat) :
  1 <= row_1st < n -> n < fuel ->
  exists a,
    index_ancestor_in_row fuel (2 * n - 1) row_1st = Some a /\ a < n.
Proof.
  intros Hrow Hfuel. destruct fuel as [|fuel]; [lia|].
  rewrite index_ancestor_in_row_up by (unfold index_parent; lia).
  destruct (index_ancestor_in_row_total fuel (index_parent (2 * n - 1))
              row_1st) as (a & Ha & Hle & _).
  - lia.
  - unfold index_parent. lia.
  - exists a. split; [exact Ha|]. unfold index_parent in Hle. lia.
Qed.

Lemma leafup_pair_nodes (n fuel i1 i2 : nat) :
  i1 < n -> i2 < n -> n < fuel ->
  exists log,
    Forall (internal n) log /\
    forall (F : Type) (phi : nat -> F -> F) (f : F),
      act_on_all_ancestors_leafup_pair phi n fuel i1 i2 f
      = Some (apply_all phi log f).
Proof.
  intros H1 H2 Hfuel. unfold act_on_all_ancestors_leafup_pair.
  destruct (Nat.ltb_spec i2 i1) as [Hrev|Hord].
  - pose proof (msb_bounds i1 ltac:(lia)) as Hmsb.
    destruct (last_of_row_internal n fuel (index_first_of_row i1))
      as (a & Ha & Han); [unfold index_first_of_row; lia|lia|].
    destruct (leafup_pair_loop_nodes n fuel (index_parent i1) i2)
      as (log & Hlog & Hrun); [unfold index_parent; lia|lia|].
    exists (seq i1 (S a - i1) ++ log). split.
    + apply Forall_app. split; [|exact Hlog].
      apply Forall_forall. intros c Hc. apply in_seq in Hc.
      unfold internal. lia.
    + intros F phi f. rewrite Ha. cbn [bind].
      rewrite Hrun, apply_all_app. reflexivity.
  - apply leafup_pair_loop_nodes; lia.
Qed.

Section RetrieveInBuffer.
Context {T : Type} {op : FUNCTOR_T T}.

Lemma map_agree (n : nat) (h h' : nat -> T) (log : list nat) :
  agree n h h' -> Forall (in_buffer n) log -> map h log = map h' log.
Proof.
  intros Hagree Hlog. apply map_ext_in. intros j Hj.
  apply Hagree. rewrite Forall_forall in Hlog. auto.
Qed.

Lemma path_internal (n p : nat) : p < n -> Forall (internal n) (path p).
Proof.
  intros Hp. apply Forall_forall. intros j Hj. apply path_bounded in Hj.
  unfold internal. lia.
Qed.

Lemma leaf_write_in_buffer (n fuel : nat) (h h' : nat -> T) (l : nat)
    (v : T) :
  1 <= n -> n <= l <= 2 * n - 1 -> n <= fuel -> agree n h h' ->
  exists r r',
    act_on_all_ancestors_leafup gutter_retrieve.functor_update_parent fuel
      (index_parent l) (store h l v) = Some r /\
    act_on_all_ancestors_leafup gutter_retrieve.functor_update_parent fuel
      (index_parent l) (store h' l v) = Some r' /\
    agree n r r' /\
    forall c, ~ in_buffer n c -> r c = h c.
Proof.
  intros Hn Hl Hfuel Hagree.
  assert (Hp : index_parent l < n) by (unfold index_parent; lia).
  rewrite !act_on_all_ancestors_leafup_path by lia.
  destruct (apply_all_in_buffer n gutter_retrieve.functor_update_parent
              (internal n) (update_parent_frame n) (update_parent_agree n)
              (path (index_parent l)) (path_internal n _ Hp)
              (store h l v) (store h' l v))
    as [Hag Hframe].
  { now apply store_agree. }
  do 2 eexists. split; [reflexivity|]. split; [reflexivity|].
  split; [exact Hag|].
  intros c Hc. rewrite Hframe by assumption.
  apply store_neq. unfold in_buffer in Hc. lia.
Qed.

Lemma assign_range_in_buffer (fuel : nat) (g g' : t T) (k1 k2 : nat)
    (xs : list T) :
  1 <= _size g -> _size g' = _size g ->
  agree (_size g) (heap g) (heap g') ->
  k1 < k2 <= _size g -> k2 - k1 <= length xs -> _size g < fuel ->
  exists r r',
    gutter_retrieve.assign_range fuel g k1 k2 xs
      = Some (r, skipn (k2 - k1) xs) /\
    gutter_retrieve.assign_range fuel g' k1 k2 xs
      = Some (r', skipn (k2 - k1) xs) /\
    agree (_size g) (heap r) (heap r') /\
    forall c, ~ in_buffer (_size g) c -> heap r c = heap g c.
Proof.
  destruct g as [h n], g' as [h' n']. cbn [_size heap].
  intros Hn -> Hagree Hk Hlen Hfuel.
  unfold gutter_retrieve.assign_range. cbn [_size heap].
  destruct (Nat.ltb_spec k2 k1); [lia|].
  destruct (Nat.eqb_spec k1 k2); [lia|].
  rewrite !(act_on_leaves_in_order_fold functor_set_from_iter).
  rewrite act_on_leaves_in_order_visits by lia.
  cbn [option_map bind].
  set (cells := map (index_nth_leaf n) (seq k1 (k2 - k1))).
  assert (Hcells : forall c, In c cells -> in_buffer n c).
  { intros c Hc. apply in_map_iff in Hc. destruct Hc as (k & <- & Hk').
    apply in_seq in Hk'.
    pose proof (index_nth_leaf_range n k Hn ltac:(lia)).
    unfold in_buffer. lia. }
  destruct (set_from_iter_all cells h xs) as (h1 & Hrun & Hframe & Hval).
  { apply leaf_list_NoDup; lia. }
  { unfold cells. now rewrite length_map, length_seq. }
  destruct (set_from_iter_all cells h' xs) as (h1' & Hrun' & Hframe' & Hval').
  { apply leaf_list_NoDup; lia. }
  { unfold cells. now rewrite length_map, length_seq. }
  rewrite Hrun, Hrun'. unfold cells at 1 2.
  rewrite length_map, length_seq. cbn [bind fst snd].
  assert (Hag1 : agree n h1 h1').
  { intros c Hc.
    destruct (in_dec Nat.eq_dec c cells) as [Hin|Hout].
    - apply In_nth_error in Hin. destruct Hin as (i & Hi).
      pose proof (Hval i c Hi) as E. pose proof (Hval' i c Hi) as E'.
      congruence.
    - rewrite Hframe, Hframe' by assumption. now apply Hagree. }
  pose proof (index_nth_leaf_range n k1 Hn ltac:(lia)) as Hl1.
  pose proof (index_nth_leaf_range n (k2 - 1) Hn ltac:(lia)) as Hl2.
  destruct (leafup_pair_nodes n fuel
              (index_parent (index_nth_leaf n k1))
              (index_parent (index_nth_leaf n (k2 - 1))))
    as (log & Hlog & Hwalk);
    [unfold index_parent; lia|unfold index_parent; lia|lia|].
  rewrite !Hwalk. cbn [bind].
  destruct (apply_all_in_buffer n gutter_retrieve.functor_update_parent
              (internal n) (update_parent_frame n) (update_parent_agree n)
              log Hlog h1 h1' Hag1) as [Hag Hfr].
  do 2 eexists. split; [reflexivity|]. split; [reflexivity|].
  cbn [heap]. split; [exact Hag|].
  intros c Hc. rewrite Hfr by assumption. apply Hframe.
  intros Hin. apply Hc, Hcells, Hin.
Qed.

(** X20. Within the contract the point-update tree reads and writes the
    cells of its buffer only: what its queries return and what its calls
    leave in the buffer depend on the cells of the buffer alone, and no
    call changes a cell outside the buffer. *)
Theorem retrieve_stays_in_buffer (fuel : nat) (g g' : t T) (c : call T) :
  1 <= _size g -> _size g' = _size g ->
  agree (_size g) (heap g) (heap g') ->
  valid_call (_size g) c = true -> 2 * _size g <= fuel ->
  (forall k, k < _size g ->
     gutter_retrieve.get g k = gutter_retrieve.get g' k) /\
  (forall i1 i2, i1 <= i2 <= _size g ->
     gutter_retrieve.accumulate fuel g i1 i2
     = gutter_retrieve.accumulate fuel g' i1 i2) /\
  exists r r',
    run_call fuel c g = Some r /\ run_call fuel c g' = Some r' /\
    agree (_size g) (heap r) (heap r') /\
    forall j, ~ in_buffer (_size g) j -> heap r j = heap g j.
Proof.
  intros Hn Hsize Hagree Hvalid Hfuel. split; [|split].
  - intros k Hk. unfold gutter_retrieve.get. rewrite Hsize.
    apply Hagree.
    pose proof (index_nth_leaf_range (_size g) k Hn Hk).
    unfold in_buffer. lia.
  - intros i1 i2 Hi. unfold gutter_retrieve.accumulate. rewrite Hsize.
    destruct (covering_nodes_on_path (_size g) fuel i1 i2 Hn Hi Hfuel)
      as (log & Hlog & _).
    pose proof (covering_nodes_in_buffer (_size g) fuel i1 i2 log Hn Hi
                  Hfuel Hlog) as Hbuf.
    rewrite (act_on_min_covering_ancestors_fold (functor_get (heap g))).
    rewrite (act_on_min_covering_ancestors_fold (functor_get (heap g'))).
    rewrite Hlog. cbn [option_map].
    rewrite !apply_all_functor_get.
    now rewrite (map_agree (_size g) (heap g) (heap g') log).
  - destruct c as [k x|k x|i1 i2 input]; cbn [valid_call] in Hvalid;
      cbn [run_call].
    + apply Nat.ltb_lt in Hvalid.
      pose proof (index_nth_leaf_range (_size g) k Hn Hvalid) as Hl.
      destruct (leaf_write_in_buffer (_size g) fuel (heap g) (heap g')
                  (index_nth_leaf (_size g) k) x Hn Hl ltac:(lia) Hagree)
        as (r & r' & Hr & Hr' & Hag & Hframe).
      unfold gutter_retrieve.assign. rewrite Hsize, Hr, Hr'. cbn [bind].
      do 2 eexists. split; [reflexivity|]. split; [reflexivity|].
      cbn [heap]. split; [exact Hag|exact Hframe].
    + apply Nat.ltb_lt in Hvalid.
      pose proof (index_nth_leaf_range (_size g) k Hn Hvalid) as Hl.
      destruct (leaf_write_in_buffer (_size g) fuel (heap g) (heap g')
                  (index_nth_leaf (_size g) k)
                  (combine (heap g (index_nth_leaf (_size g) k)) x)
                  Hn Hl ltac:(lia) Hagree)
        as (r & r' & Hr & Hr' & Hag & Hframe).
      unfold gutter_retrieve.apply. rewrite Hsize.
      rewrite <- (Hagree (index_nth_leaf (_size g) k))
        by (unfold in_buffer; lia).
      rewrite Hr, Hr'. cbn [bind].
      do 2 eexists. split; [reflexivity|]. split; [reflexivity|].
      cbn [heap]. split; [exact Hag|exact Hframe].
    + destruct (Nat.leb_spec i2 i1) as [Hrev|Hord].
      * exists g, g'.
        unfold gutter_retrieve.assign_range.
        destruct (Nat.ltb_spec i2 i1).
        { cbn [bind fst]. repeat split; auto. }
        replace i2 with i1 by lia. rewrite Nat.eqb_refl. cbn [bind fst].
        repeat split; auto.
      * cbn [orb] in Hvalid. apply andb_prop in Hvalid.
        destruct Hvalid as [Hi2 Hlen].
        apply Nat.leb_le in Hi2, Hlen.
        destruct (assign_range_in_buffer fuel g g' i1 i2 input Hn Hsize
                    Hagree ltac:(lia) Hlen ltac:(lia))
          as (r & r' & Hr & Hr' & Hag & Hframe).
        rewrite Hr, Hr'. cbn [bind fst]. exists r, r'. auto.
Qed.

End RetrieveInBuffer.

Section ApplyTreeInBuffer.
Context {T : Type} {op : FUNCTOR_T T}.

Lemma get_in_buffer (fuel : nat) (g g' : t T) (k : nat) :
  1 <= _size g -> _size g' = _size g ->
  agree (_size g) (heap g) (heap g') -> k < _size g ->
  2 * _size g <= fuel ->
  gutter_apply.get fuel g k = gutter_apply.get fuel g' k.
Proof.
  intros Hn Hsize Hagree Hk Hfuel.
  pose proof (index_nth_leaf_range (_size g) k Hn Hk) as Hl.
  rewrite !get_read_path by (rewrite ?Hsize; lia).
  rewrite Hsize. f_equal. apply read_path_ext.
  intros j Hj. apply path_bounded in Hj. apply Hagree.
  unfold in_buffer. lia.
Qed.

Lemma apply_range_in_buffer (fuel : nat) (g g' : t T) (i1 i2 : nat) (x : T) :
  1 <= _size g -> _size g' = _size g ->
  agree (_size g) (heap g) (heap g') -> i1 <= i2 <= _size g ->
  2 * _size g <= fuel ->
  exists r r',
    gutter_apply.apply_range fuel g i1 i2 x = Some r /\
    gutter_apply.apply_range fuel g' i1 i2 x = Some r' /\
    agree (_size g) (heap r) (heap r') /\
    forall c, ~ in_buffer (_size g) c -> heap r c = heap g c.
Proof.
  intros Hn Hsize Hagree Hi Hfuel.
  destruct (covering_nodes_on_path (_size g) fuel i1 i2 Hn Hi Hfuel)
    as (log & Hlog & _).
  pose proof (covering_nodes_in_buffer (_size g) fuel i1 i2 log Hn Hi
                Hfuel Hlog) as Hbuf.
  destruct (apply_all_in_buffer (_size g) (functor_apply x)
              (in_buffer (_size g)) (functor_apply_frame (_size g) x)
              (functor_apply_agree (_size g) x) log Hbuf (heap g) (heap g')
              Hagree) as [Hag Hframe].
  unfold gutter_apply.apply_range. rewrite Hsize.
  rewrite !(act_on_min_covering_ancestors_fold (functor_apply x)), Hlog.
  cbn [option_map bind].
  do 2 eexists. split; [reflexivity|]. split; [reflexivity|].
  cbn [heap]. split; [exact Hag|exact Hframe].
Qed.

(** X21. Within the contract the range-update tree reads and writes the
    cells of its buffer only: what [operator[]] returns and what the two
    [apply] calls leave in the buffer depend on the cells of the buffer
    alone, and neither call changes a cell outside the buffer. *)
Theorem apply_tree_stays_in_buffer (fuel : nat) (g g' : t T) (u : update T) :
  1 <= _size g -> _size g' = _size g ->
  agree (_size g) (heap g) (heap g') ->
  valid_update (_size g) u = true -> 2 * _size g <= fuel ->
  (forall k, k < _size g ->
     gutter_apply.get fuel g k = gutter_apply.get fuel g' k) /\
  exists r r',
    run_update fuel u g = Some r /\ run_update fuel u g' = Some r' /\
    agree (_size g) (heap r) (heap r') /\
    forall j, ~ in_buffer (_size g) j -> heap r j = heap g j.
Proof.
  intros Hn Hsize Hagree Hvalid Hfuel. split.
  - intros k Hk. apply get_in_buffer; auto.
  - destruct u as [k x|i1 i2 x]; cbn [valid_update] in Hvalid;
      cbn [run_update].
    + apply Nat.ltb_lt in Hvalid.
      pose proof (index_nth_leaf_range (_size g) k Hn Hvalid) as Hl.
      do 2 eexists. split; [reflexivity|]. split; [reflexivity|].
      unfold gutter_apply.apply. cbn [heap]. rewrite Hsize. split.
      * apply store_agree; [exact Hagree|].
        now rewrite (Hagree (index_nth_leaf (_size g) k))
          by (unfold in_buffer; lia).
      * intros j Hj. apply store_neq. unfold in_buffer in Hj. lia.
    + destruct (Nat.leb_spec i2 i1) as [Hrev|Hord].
      * unfold gutter_apply.apply_range, act_on_min_covering_ancestors.
        destruct (Nat.leb_spec i2 i1); [|lia]. cbn [bind].
        do 2 eexists. split; [reflexivity|]. split; [reflexivity|].
        cbn [heap]. auto.
      * cbn [orb] in Hvalid. apply Nat.leb_le in Hvalid.
        apply apply_range_in_buffer; auto; lia.
Qed.

End ApplyTreeInBuffer.

(** ** The minimum and maximum functors *)

Section MinMax.
Variables lo hi : Z.
Hypothesis lo_le_hi : (lo <=? hi)%Z = true.

Local Notation "'min_op'" := (min lo hi lo_le_hi).
Local Notation "'max_op'" := (max lo hi lo_le_hi).

Lemma integer_eq (a b : integer lo hi) : value a = value b -> a = b.
Proof.
  destruct a as [a Ha], b as [b Hb]. cbn [value]. intros ->.
  f_equal. apply Eqdep_dec.UIP_dec. apply bool_dec.
Qed.

Lemma value_range (a : integer lo hi) : (lo <= value a <= hi)%Z.
Proof. destruct a as [a Ha]. cbn [value]. lia. Qed.

Ltac min_max :=
  intros; cbn [combine identity min max];
  unfold std_min, std_max;
  repeat match goal with
  | a : integer lo hi |- _ =>
      lazymatch goal with
      | H : (lo <= value a <= hi)%Z |- _ => fail
      | _ => pose proof (value_range a)
      end
  end;
  cbn [value numeric_limits_min numeric_limits_max] in *;
  repeat match goal with
  | |- context [(value ?a <? value ?b)%Z] =>
      is_var a; is_var b; destruct (Z.ltb_spec (value a) (value b))
  | |- context [(?a <? ?b)%Z] => destruct (Z.ltb_spec a b)
  end;
  try reflexivity;
  try (apply integer_eq; cbn [value numeric_limits_min numeric_limits_max];
       lia);
  try lia.

Lemma min_assoc (a b c : integer lo hi) :
  combine (FUNCTOR_T := min_op) (combine (FUNCTOR_T := min_op) a b) c
  = combine (FUNCTOR_T := min_op) a (combine (FUNCTOR_T := min_op) b c).
Proof. min_max. Qed.

Lemma min_comm (a b : integer lo hi) :
  combine (FUNCTOR_T := min_op) a b = combine (FUNCTOR_T := min_op) b a.
Proof. min_max. Qed.

Lemma min_identity_left (a : integer lo hi) :
  combine (FUNCTOR_T := min_op) (identity (FUNCTOR_T := min_op)) a = a.
Proof. min_max. Qed.

Lemma min_identity_right (a : integer lo hi) :
  combine (FUNCTOR_T := min_op) a (identity (FUNCTOR_T := min_op)) = a.
Proof. min_max. Qed.

Lemma max_assoc (a b c : integer lo hi) :
  combine (FUNCTOR_T := max_op) (combine (FUNCTOR_T := max_op) a b) c
  = combine (FUNCTOR_T := max_op) a (combine (FUNCTOR_T := max_op) b c).
Proof. min_max. Qed.

Lemma max_comm (a b : integer lo hi) :
  combine (FUNCTOR_T := max_op) a b = combine (FUNCTOR_T := max_op) b a.
Proof. min_max. Qed.

Lemma max_identity_left (a : integer lo hi) :
  combine (FUNCTOR_T := max_op) (identity (FUNCTOR_T := max_op)) a = a.
Proof. min_max. Qed.

Lemma max_identity_right (a : integer lo hi) :
  combine (FUNCTOR_T := max_op) a (identity (FUNCTOR_T := max_op)) = a.
Proof. min_max. Qed.

Lemma fold_min (xs : list (integer lo hi)) :
  forall init,
  let m := fold_left (std_min lo hi) xs init in
  (value m <= value init)%Z /\
  (forall x, In x xs -> (value m <= value x)%Z) /\
  (m = init \/ In m xs).
Proof.
  induction xs as [|x xs IH]; intros init; cbn [fold_left].
  - split; [lia|]. split; [intros x []|now left].
  - destruct (IH (std_min lo hi init x)) as (Hle & Hall & Hin).
    assert (Hstep : (value (std_min lo hi init x) <= value init)%Z /\
                    (value (std_min lo hi init x) <= value x)%Z /\
                    (std_min lo hi init x = init \/
                     std_min lo hi init x = x)).
    { unfold std_min. destruct (Z.ltb_spec (value x) (value init)).
      - split; [lia|]. split; [lia|now right].
      - split; [lia|]. split; [lia|now left]. }
    destruct Hstep as (S1 & S2 & S3).
    split; [lia|]. split.
    + intros y [<-|Hy]; [lia|auto].
    + destruct Hin as [Hin|Hin]; [|right; now right].
      rewrite Hin. destruct S3 as [->| ->]; [now left|right; now left].
Qed.

Lemma fold_max (xs : list (integer lo hi)) :
  forall init,
  let m := fold_left (std_max lo hi) xs init in
  (value init <= value m)%Z /\
  (forall x, In x xs -> (value x <= value m)%Z) /\
  (m = init \/ In m xs).
Proof.
  induction xs as [|x xs IH]; intros init; cbn [fold_left].
  - split; [lia|]. split; [intros x []|now left].
  - destruct (IH (std_max lo hi init x)) as (Hle & Hall & Hin).
    assert (Hstep : (value init <= value (std_max lo hi init x))%Z /\
                    (value x <= value (std_max lo hi init x))%Z /\
                    (std_max lo hi init x = init \/
                     std_max lo hi init x = x)).
    { unfold std_max. destruct (Z.ltb_spec (value init) (value x)).
      - split; [lia|]. split; [lia|now right].
      - split; [lia|]. split; [lia|now left]. }
    destruct Hstep as (S1 & S2 & S3).
    split; [lia|]. split.
    + intros y [<-|Hy]; [lia|auto].
    + destruct Hin as [Hin|Hin]; [|right; now right].
      rewrite Hin. destruct S3 as [->| ->]; [now left|right; now left].
Qed.

(** X22. Over the [min] functor, [accumulate(i1, i2)] returns the least
    element of the range: a lower bound of all of them that is one of
    them, and [numeric_limits<T>::max()] for the empty range. *)
Theorem accumulate_min_is_range_minimum (fuel : nat)
    (uninit : nat -> integer lo hi) (c : ctor (integer lo hi))
    (cs : list (call (integer lo hi))) (i1 i2 : nat) :
  1 <= ctor_size c -> forallb (valid_call (ctor_size c)) cs = true ->
  i1 <= i2 <= ctor_size c -> 2 * ctor_size c <= fuel ->
  exists g m,
    history (op := min_op) fuel uninit c cs = Some g /\
    gutter_retrieve.accumulate (op := min_op) fuel g i1 i2 = Some m /\
    (forall k, i1 <= k < i2 ->
       (value m <= value (gutter_retrieve.get g k))%Z) /\
    (i1 < i2 -> exists k, i1 <= k < i2 /\ m = gutter_retrieve.get g k) /\
    (i1 = i2 -> value m = hi).
Proof.
  intros Hn Hcs Hi Hfuel.
  destruct (history_consistent (op := min_op) (min_identity_left _)
              fuel uninit c cs Hn Hcs ltac:(lia))
    as (g & Hg & Hsize & Hcons).
  rewrite <- Hsize in *.
  pose proof (accumulate_consistent (op := min_op) min_assoc min_comm
                min_identity_left min_identity_right fuel g i1 i2 Hn Hcons
                Hi Hfuel) as Hacc.
  cbn [combine identity min] in Hacc.
  destruct (fold_min (map (gutter_retrieve.get g) (seq i1 (i2 - i1)))
              (numeric_limits_max lo hi lo_le_hi)) as (Hle & Hall & Hin).
  eexists g, _. split; [exact Hg|]. split; [exact Hacc|].
  split; [|split].
  - intros k Hk. apply Hall. apply in_map. apply in_seq. lia.
  - intros Hlt. destruct Hin as [Hin|Hin].
    + exists i1. split; [lia|]. rewrite Hin. apply integer_eq.
      pose proof (value_range (gutter_retrieve.get g i1)).
      assert (In (gutter_retrieve.get g i1)
                (map (gutter_retrieve.get g) (seq i1 (i2 - i1))))
        as Hfirst by (apply in_map, in_seq; lia).
      apply Hall in Hfirst. rewrite Hin in Hfirst.
      cbn [value numeric_limits_max] in *. lia.
    + apply in_map_iff in Hin. destruct Hin as (k & Hk & Hin).
      apply in_seq in Hin. exists k. split; [lia|now symmetry].
  - intros ->. rewrite Nat.sub_diag. reflexivity.
Qed.

(** X23. Over the [max] functor, [accumulate(i1, i2)] returns the greatest
    element of the range, and [numeric_limits<T>::min()] for the empty
    range. *)
Theorem accumulate_max_is_range_maximum (fuel : nat)
    (uninit : nat -> integer lo hi) (c : ctor (integer lo hi))
    (cs : list (call (integer lo hi))) (i1 i2 : nat) :
  1 <= ctor_size c -> forallb (valid_call (ctor_size c)) cs = true ->
  i1 <= i2 <= ctor_size c -> 2 * ctor_size c <= fuel ->
  exists g m,
    history (op := max_op) fuel uninit c cs = Some g /\
    gutter_retrieve.accumulate (op := max_op) fuel g i1 i2 = Some m /\
    (forall k, i1 <= k < i2 ->
       (value (gutter_retrieve.get g k) <= value m)%Z) /\
    (i1 < i2 -> exists k, i1 <= k < i2 /\ m = gutter_retrieve.get g k) /\
    (i1 = i2 -> value m = lo).
Proof.
  intros Hn Hcs Hi Hfuel.
  destruct (history_consistent (op := max_op) (max_identity_left _)
              fuel uninit c cs Hn Hcs ltac:(lia))
    as (g & Hg & Hsize & Hcons).
  rewrite <- Hsize in *.
  pose proof (accumulate_consistent (op := max_op) max_assoc max_comm
                max_identity_left max_identity_right fuel g i1 i2 Hn Hcons
                Hi Hfuel) as Hacc.
  cbn [combine identity max] in Hacc.
  destruct (fold_max (map (gutter_retrieve.get g) (seq i1 (i2 - i1)))
              (numeric_limits_min lo hi lo_le_hi)) as (Hle & Hall & Hin).
  eexists g, _. split; [exact Hg|]. split; [exact Hacc|].
  split; [|split].
  - intros k Hk. apply Hall. apply in_map. apply in_seq. lia.
  - intros Hlt. destruct Hin as [Hin|Hin].
    + exists i1. split; [lia|]. rewrite Hin. apply integer_eq.
      pose proof (value_range (gutter_retrieve.get g i1)).
      assert (In (gutter_retrieve.get g i1)
                (map (gutter_retrieve.get g) (seq i1 (i2 - i1))))
        as Hfirst by (apply in_map, in_seq; lia).
      apply Hall in Hfirst. rewrite Hin in Hfirst.
      cbn [value numeric_limits_min] in *. lia.
    + apply in_map_iff in Hin. destruct Hin as (k & Hk & Hin).
      apply in_seq in Hin. exists k. split; [lia|now symmetry].
  - intros ->. rewrite Nat.sub_diag. reflexivity.
Qed.

End MinMax.

(** ** Reversed ranges and leaf numbers past the end *)

(** X25. A reversed range, [i2 < i1], is accepted in silence: the range
    [apply] and the range [assign] change nothing, [copy] writes nothing,
    [accumulate] returns the identity, and no loop is entered. *)
Theorem reversed_range_is_noop {T : Type} {op : FUNCTOR_T T} (fuel : nat)
    (g : t T) (i1 i2 : nat) :
  i2 < i1 ->
  (forall x, gutter_apply.apply_range fuel g i1 i2 x = Some g) /\
  (forall output, gutter_apply.copy fuel g i1 i2 output = Some (g, output)) /\
  gutter_retrieve.accumulate fuel g i1 i2 = Some identity /\
  (forall input,
     gutter_retrieve.assign_range fuel g i1 i2 input = Some (g, input)).
Proof.
  intros Hrev. destruct g as [h n]. repeat split; intros;
    unfold gutter_apply.apply_range, gutter_apply.copy,
      gutter_retrieve.accumulate, gutter_retrieve.assign_range,
      act_on_min_covering_ancestors;
    destruct (Nat.leb_spec i2 i1); destruct (Nat.ltb_spec i2 i1);
    try lia; reflexivity.
Qed.

(** X26. [index_nth_leaf] does not check its argument.  For [k < n], leaf
    number [n + k] is sent to the cell of element [k] when that cell is in
    the deepest row, and to a cell past the end of the buffer otherwise. *)
Theorem index_nth_leaf_past_the_end (n k : nat) :
  1 <= n -> k < n ->
  (k + index_first_of_row (2 * n - 1) < 2 * n ->
     index_nth_leaf n (n + k) = index_nth_leaf n k) /\
  (2 * n <= k + index_first_of_row (2 * n - 1) ->
     ~ in_buffer n (index_nth_leaf n (n + k))).
Proof.
  intros Hn Hk. pose proof (deepest_row_bounds n Hn) as HD.
  unfold index_first_of_row, in_buffer, index_nth_leaf. cbv zeta.
  unfold index_first_of_row.
  split; intros Hrow;
    repeat match goal with
    | |- context [?a <? ?b] => destruct (Nat.ltb_spec a b)
    end; lia.
Qed.

(** ** Moving between a node, its parent and its children *)

(** X27. The index functions invert one another: the parent of either child
    of [n] is [n], [index_islbranch] tells the left child from the right
    one, and every node is that child of its parent which
    [index_islbranch] says it is. *)
Theorem index_navigation_round_trips (n : nat) :
  index_parent (index_lbranch n) = n /\
  index_parent (index_rbranch n) = n /\
  index_islbranch (index_lbranch n) = true /\
  index_islbranch (index_rbranch n) = false /\
  n = (if index_islbranch n then index_lbranch (index_parent n)
       else index_rbranch (index_parent n)).
Proof.
  unfold index_parent, index_lbranch, index_rbranch, index_islbranch.
  repeat split; try lia.
  destruct (Nat.eqb_spec (n mod 2) 0); lia.
Qed.

(** ** The functors that come with the library *)

(** X28. [add] and [mult] at the unbounded integers, and [min] and [max] at
    every integer type, are associative and commutative with [op()] as
    their two-sided identity. *)
Theorem functors_are_commutative_monoids :
  commutative_monoid add /\ commutative_monoid mult /\
  (forall lo hi (lo_le_hi : (lo <=? hi)%Z = true),
     commutative_monoid (min lo hi lo_le_hi) /\
     commutative_monoid (max lo hi lo_le_hi)).
Proof.
  unfold commutative_monoid. split; [|split].
  - cbn. repeat split; intros; lia.
  - cbn [combine identity mult]. repeat split; intros; lia.
  - intros lo hi H. split; repeat split.
    + apply min_assoc.
    + apply min_comm.
    + apply min_identity_left.
    + apply min_identity_right.
    + apply max_assoc.
    + apply max_comm.
    + apply max_identity_left.
    + apply max_identity_right.
Qed.

(** ** The further theorems at concrete inputs *)

Section AtConcreteInputs.
#[local] Existing Instance add.

Lemma retrieve_assign_reads_back_witness :
  exists g',
    gutter_retrieve.assign 10 (gutter_retrieve.make (fun _ => 0%Z) 3) 1 7%Z
      = Some g' /\
    _size g' = _size (gutter_retrieve.make (fun _ => 0%Z) 3) /\
    forall j, j < _size (gutter_retrieve.make (fun _ => 0%Z) 3) ->
      gutter_retrieve.get g' j
      = if j =? 1 then 7%Z
        else gutter_retrieve.get (gutter_retrieve.make (fun _ => 0%Z) 3) j.
Proof.
  apply (retrieve_assign_reads_back 10
           (gutter_retrieve.make (fun _ => 0%Z) 3) 1 7%Z); simpl; lia.
Defined.

Lemma retrieve_apply_reads_back_witness :
  exists g',
    gutter_retrieve.apply 10 (gutter_retrieve.make (fun _ => 0%Z) 3) 1 7%Z
      = Some g' /\
    _size g' = _size (gutter_retrieve.make (fun _ => 0%Z) 3) /\
    forall j, j < _size (gutter_retrieve.make (fun _ => 0%Z) 3) ->
      gutter_retrieve.get g' j
      = if j =? 1
        then combine
               (gutter_retrieve.get (gutter_retrieve.make (fun _ => 0%Z) 3) 1)
               7%Z
        else gutter_retrieve.get (gutter_retrieve.make (fun _ => 0%Z) 3) j.
Proof.
  apply (retrieve_apply_reads_back 10
           (gutter_retrieve.make (fun _ => 0%Z) 3) 1 7%Z); simpl; lia.
Defined.

Lemma fresh_tree_reads_identity_witness :
  (forall k, k < 3 ->
     gutter_retrieve.get (gutter_retrieve.make (fun _ => 5%Z) 3) k
     = identity) /\
  gutter_retrieve.accumulate 10 (gutter_retrieve.make (fun _ => 5%Z) 3) 0 2
  = Some identity.
Proof.
  apply (fresh_tree_reads_identity 10 (fun _ => 5%Z) 3 0 2);
    [reflexivity|lia..].
Defined.

Lemma make_from_list_reads_back_witness :
  exists g,
    gutter_retrieve.make_from_list 10 (fun _ => 0%Z) [1; 2; 3]%Z = Some g /\
    _size g = length [1; 2; 3]%Z /\
    map (gutter_retrieve.get g) (seq 0 (length [1; 2; 3]%Z)) = [1; 2; 3]%Z.
Proof.
  apply (make_from_list_reads_back 10 (fun _ => 0%Z) [1; 2; 3]%Z);
    simpl; lia.
Defined.

Lemma make_from_list_initialises_buffer_witness :
  exists g g',
    gutter_retrieve.make_from_list 10 (fun _ => 0%Z) [1; 2; 3]%Z = Some g /\
    gutter_retrieve.make_from_list 10 (fun _ => 9%Z) [1; 2; 3]%Z = Some g' /\
    forall j, in_buffer (length [1; 2; 3]%Z) j -> heap g j = heap g' j.
Proof.
  apply (make_from_list_initialises_buffer 10 (fun _ => 0%Z) (fun _ => 9%Z)
           [1; 2; 3]%Z); simpl; lia.
Defined.

Lemma range_assign_writes_range_only_witness :
  exists g',
    gutter_retrieve.assign_range 10 (gutter_retrieve.make (fun _ => 0%Z) 5)
      1 3 [7; 8; 9]%Z
      = Some (g', skipn (3 - 1) [7; 8; 9]%Z) /\
    _size g' = _size (gutter_retrieve.make (fun _ => 0%Z) 5) /\
    forall k, k < _size (gutter_retrieve.make (fun _ => 0%Z) 5) ->
      gutter_retrieve.get g' k
      = if (1 <=? k) && (k <? 3) then nth (k - 1) [7; 8; 9]%Z 0%Z
        else gutter_retrieve.get (gutter_retrieve.make (fun _ => 0%Z) 5) k.
Proof.
  apply (range_assign_writes_range_only 10
           (gutter_retrieve.make (fun _ => 0%Z) 5) 1 3 [7; 8; 9]%Z 0%Z);
    simpl; lia.
Defined.

Lemma equal_elements_equal_buffers_witness :
  exists g g',
    history 10 (fun _ => 0%Z) (FromList [1; 2; 3]%Z) [Apply 0 4%Z] = Some g /\
    history 10 (fun _ => 9%Z) (Sized 3)
      [AssignRange 0 3 [5; 2; 3]%Z] = Some g' /\
    ((forall k, k < ctor_size (FromList [1; 2; 3]%Z) ->
        gutter_retrieve.get g k = gutter_retrieve.get g' k) ->
     forall j, in_buffer (ctor_size (FromList [1; 2; 3]%Z)) j ->
       heap g j = heap g' j).
Proof.
  apply (equal_elements_equal_buffers (add_identity_left identity) 10
           (fun _ => 0%Z) (fun _ => 9%Z) (FromList [1; 2; 3]%Z) (Sized 3)
           [Apply 0 4%Z] [AssignRange 0 3 [5; 2; 3]%Z]);
    try reflexivity; simpl; lia.
Defined.

Lemma accumulate_after_apply_witness :
  exists g g' a,
    history 10 (fun _ => 0%Z) (FromList [1; 2; 3]%Z) [Assign 2 7%Z]
      = Some g /\
    gutter_retrieve.apply 10 g 1 5%Z = Some g' /\
    gutter_retrieve.accumulate 10 g 0 2 = Some a /\
    gutter_retrieve.accumulate 10 g' 0 2
    = Some (if (0 <=? 1) && (1 <? 2) then combine a 5%Z else a).
Proof.
  apply (accumulate_after_apply add_assoc_law add_comm_law add_identity_left
           add_identity_right 10 (fun _ => 0%Z) (FromList [1; 2; 3]%Z)
           [Assign 2 7%Z] 1 5%Z 0 2);
    try reflexivity; simpl; lia.
Defined.

Lemma point_apply_reads_back_witness :
  exists g,
    run_updates 10 [ApplyRange 0 2 10%Z; ApplyOne 2 4%Z]
      (gutter_apply.make (fun _ => 0%Z) 3) = Some g /\
    (exists v,
       gutter_apply.get 10 g 1 = Some v /\
       gutter_apply.get 10 (gutter_apply.apply g 1 7%Z) 1
       = Some (if 1 =? 1 then combine v 7%Z else v)) /\
    (exists v,
       gutter_apply.get 10 g 0 = Some v /\
       gutter_apply.get 10 (gutter_apply.apply g 1 7%Z) 0
       = Some (if 0 =? 1 then combine v 7%Z else v)).
Proof.
  eexists. split; [reflexivity|]. split.
  - apply (point_apply_reads_back add_assoc_law add_comm_law
             add_identity_left add_identity_right); simpl; lia.
  - apply (point_apply_reads_back add_assoc_law add_comm_law
             add_identity_left add_identity_right); simpl; lia.
Defined.

Lemma updates_read_back_witness :
  exists g,
    run_updates 12
      [ApplyRange 0 3 10%Z; ApplyOne 1 5%Z; ApplyRange 0 2 3%Z; ApplyOne 1 2%Z]
      (gutter_apply.make (fun _ => 0%Z) 3) = Some g /\
    gutter_apply.get 12 g 1
    = Some (fold_left combine
              (updates_at 1
                 [ApplyRange 0 3 10%Z; ApplyOne 1 5%Z; ApplyRange 0 2 3%Z;
                  ApplyOne 1 2%Z]) identity).
Proof.
  apply (updates_read_back add_assoc_law add_comm_law add_identity_left
           add_identity_right 12 (fun _ => 0%Z) 3
           [ApplyRange 0 3 10%Z; ApplyOne 1 5%Z; ApplyRange 0 2 3%Z;
            ApplyOne 1 2%Z] 1);
    try reflexivity; simpl; lia.
Defined.

Lemma consolidate_to_children_keeps_elements_witness :
  exists g,
    run_updates 10 [ApplyRange 0 2 10%Z; ApplyOne 1 5%Z]
      (gutter_apply.make (fun _ => 0%Z) 3) = Some g /\
    heap g 2 = 10%Z /\
    heap (gutter_apply.consolidate_to_children g 2) 2 = identity /\
    forall j, j < _size g ->
      gutter_apply.get 10 (gutter_apply.consolidate_to_children g 2) j
      = gutter_apply.get 10 g j.
Proof.
  eexists. split; [reflexivity|]. split; [reflexivity|].
  apply (consolidate_to_children_keeps_elements add_assoc_law
           add_identity_left add_identity_right); simpl; lia.
Defined.

Lemma act_on_leaves_in_order_spec_witness :
  act_on_leaves_in_order visit 5 10 (index_nth_leaf 5 1)
    (index_nth_leaf 5 (5 - 1)) []
  = Some (apply_all visit (map (index_nth_leaf 5) (seq 1 (5 - 1))) []).
Proof. apply (act_on_leaves_in_order_spec visit 5 10 1 5 []); lia. Defined.

Lemma covering_walk_is_exact_cover_witness :
  exists log,
    act_on_min_covering_ancestors visit 5 10 1 4 []
      = Some (apply_all visit log []) /\
    Forall (in_buffer 5) log /\
    forall k, k < 5 ->
      fold_left Nat.add (map (on_path (index_nth_leaf 5 k)) log) 0
      = if (1 <=? k) && (k <? 4) then 1 else 0.
Proof. apply (covering_walk_is_exact_cover visit 5 10 1 4 []); lia. Defined.

Lemma act_on_all_ancestors_leafup_spec_witness :
  act_on_all_ancestors_leafup visit 10 6 []
  = Some (apply_all visit
            (map (fun d => 6 / 2 ^ d) (seq 0 (S (Nat.log2 6)))) []).
Proof. apply (act_on_all_ancestors_leafup_spec visit 10 6 []); lia. Defined.

Lemma act_on_all_ancestors_rootdown_spec_witness :
  act_on_all_ancestors_rootdown visit 20 4 []
  = Some (apply_all visit
            (rev (path (if 4 =? index_first_of_row 4
                        then index_parent 4 else 4))) []).
Proof. apply (act_on_all_ancestors_rootdown_spec visit 20 4 []); lia. Defined.

Lemma covering_walk_cost_witness :
  exists log,
    act_on_min_covering_ancestors visit 5 10 0 5 []
      = Some (apply_all visit log []) /\
    length log <= 2 * Nat.log2 (2 * 5 - 1) + 1.
Proof. apply (covering_walk_cost visit 5 10 0 5 []); lia. Defined.

Lemma retrieve_stays_in_buffer_witness :
  (forall k, k < _size (gutter_retrieve.make (fun _ => 0%Z) 3) ->
     gutter_retrieve.get (gutter_retrieve.make (fun _ => 0%Z) 3) k
     = gutter_retrieve.get (gutter_retrieve.make (fun _ => 9%Z) 3) k) /\
  (forall i1 i2, i1 <= i2 <= _size (gutter_retrieve.make (fun _ => 0%Z) 3) ->
     gutter_retrieve.accumulate 10 (gutter_retrieve.make (fun _ => 0%Z) 3)
       i1 i2
     = gutter_retrieve.accumulate 10 (gutter_retrieve.make (fun _ => 9%Z) 3)
         i1 i2) /\
  exists r r',
    run_call 10 (AssignRange 0 2 [4; 5]%Z)
      (gutter_retrieve.make (fun _ => 0%Z) 3) = Some r /\
    run_call 10 (AssignRange 0 2 [4; 5]%Z)
      (gutter_retrieve.make (fun _ => 9%Z) 3) = Some r' /\
    agree (_size (gutter_retrieve.make (fun _ => 0%Z) 3)) (heap r) (heap r') /\
    forall j, ~ in_buffer (_size (gutter_retrieve.make (fun _ => 0%Z) 3)) j ->
      heap r j = heap (gutter_retrieve.make (fun _ => 0%Z) 3) j.
Proof.
  apply (retrieve_stays_in_buffer 10 (gutter_retrieve.make (fun _ => 0%Z) 3)
           (gutter_retrieve.make (fun _ => 9%Z) 3)
           (AssignRange 0 2 [4; 5]%Z)); try reflexivity; try (simpl; lia).
  intros j Hj. unfold in_buffer in Hj. cbn [gutter_retrieve.make heap _size].
  now rewrite !fill_inside by (cbn [_size gutter_retrieve.make] in Hj; lia).
Defined.

Lemma apply_tree_stays_in_buffer_witness :
  (forall k, k < _size (gutter_apply.make (fun _ => 0%Z) 3) ->
     gutter_apply.get 10 (gutter_apply.make (fun _ => 0%Z) 3) k
     = gutter_apply.get 10 (gutter_apply.make (fun _ => 9%Z) 3) k) /\
  exists r r',
    run_update 10 (ApplyRange 0 2 4%Z) (gutter_apply.make (fun _ => 0%Z) 3)
      = Some r /\
    run_update 10 (ApplyRange 0 2 4%Z) (gutter_apply.make (fun _ => 9%Z) 3)
      = Some r' /\
    agree (_size (gutter_apply.make (fun _ => 0%Z) 3)) (heap r) (heap r') /\
    forall j, ~ in_buffer (_size (gutter_apply.make (fun _ => 0%Z) 3)) j ->
      heap r j = heap (gutter_apply.make (fun _ => 0%Z) 3) j.
Proof.
  apply (apply_tree_stays_in_buffer 10 (gutter_apply.make (fun _ => 0%Z) 3)
           (gutter_apply.make (fun _ => 9%Z) 3) (ApplyRange 0 2 4%Z));
    try reflexivity; try (simpl; lia).
  intros j Hj. unfold in_buffer in Hj. cbn [gutter_apply.make heap _size].
  now rewrite !fill_inside by (cbn [_size gutter_apply.make] in Hj; lia).
Defined.

Lemma reversed_range_is_noop_witness :
  (forall x,
     gutter_apply.apply_range 10 (gutter_apply.make (fun _ => 0%Z) 3) 2 1 x
     = Some (gutter_apply.make (fun _ => 0%Z) 3)) /\
  (forall output,
     gutter_apply.copy 10 (gutter_apply.make (fun _ => 0%Z) 3) 2 1 output
     = Some (gutter_apply.make (fun _ => 0%Z) 3, output)) /\
  gutter_retrieve.accumulate 10 (gutter_apply.make (fun _ => 0%Z) 3) 2 1
  = Some identity /\
  (forall input,
     gutter_retrieve.assign_range 10 (gutter_apply.make (fun _ => 0%Z) 3)
       2 1 input
     = Some (gutter_apply.make (fun _ => 0%Z) 3, input)).
Proof.
  apply (reversed_range_is_noop 10 (gutter_apply.make (fun _ => 0%Z) 3) 2 1).
  lia.
Defined.

Lemma index_nth_leaf_past_the_end_witness :
  (1 + index_first_of_row (2 * 3 - 1) < 2 * 3 ->
     index_nth_leaf 3 (3 + 1) = index_nth_leaf 3 1) /\
  (2 * 3 <= 1 + index_first_of_row (2 * 3 - 1) ->
     ~ in_buffer 3 (index_nth_leaf 3 (3 + 1))).
Proof. apply (index_nth_leaf_past_the_end 3 1); lia. Defined.

End AtConcreteInputs.

Section AtBytes.

(** The values of an unsigned byte. *)
Lemma accumulate_min_is_range_minimum_witness :
  exists g m,
    history (op := min 0 255 eq_refl) 10
      (fun _ => numeric_limits_max 0 255 eq_refl)
      (FromList [Integer 0 255 7 eq_refl; Integer 0 255 3 eq_refl;
                 Integer 0 255 9 eq_refl])
      [Assign 2 (Integer 0 255 1 eq_refl)] = Some g /\
    gutter_retrieve.accumulate (op := min 0 255 eq_refl) 10 g 0 2 = Some m /\
    (forall k, 0 <= k < 2 ->
       (value m <= value (gutter_retrieve.get g k))%Z) /\
    (0 < 2 -> exists k, 0 <= k < 2 /\ m = gutter_retrieve.get g k) /\
    (0 = 2 -> value m = 255%Z).
Proof.
  apply (accumulate_min_is_range_minimum 0 255 eq_refl 10
           (fun _ => numeric_limits_max 0 255 eq_refl)
           (FromList [Integer 0 255 7 eq_refl; Integer 0 255 3 eq_refl;
                      Integer 0 255 9 eq_refl])
           [Assign 2 (Integer 0 255 1 eq_refl)] 0 2);
    try reflexivity; simpl; lia.
Defined.

Lemma accumulate_max_is_range_maximum_witness :
  exists g m,
    history (op := max 0 255 eq_refl) 10
      (fun _ => numeric_limits_min 0 255 eq_refl)
      (FromList [Integer 0 255 7 eq_refl; Integer 0 255 3 eq_refl;
                 Integer 0 255 9 eq_refl])
      [Assign 2 (Integer 0 255 1 eq_refl)] = Some g /\
    gutter_retrieve.accumulate (op := max 0 255 eq_refl) 10 g 0 2 = Some m /\
    (forall k, 0 <= k < 2 ->
       (value (gutter_retrieve.get g k) <= value m)%Z) /\
    (0 < 2 -> exists k, 0 <= k < 2 /\ m = gutter_retrieve.get g k) /\
    (0 = 2 -> value m = 0%Z).
Proof.
  apply (accumulate_max_is_range_maximum 0 255 eq_refl 10
           (fun _ => numeric_limits_min 0 255 eq_refl)
           (FromList [Integer 0 255 7 eq_refl; Integer 0 255 3 eq_refl;
                      Integer 0 255 9 eq_refl])
           [Assign 2 (Integer 0 255 1 eq_refl)] 0 2);
    try reflexivity; simpl; lia.
Defined.

End AtBytes.

Section AtTheStressTest.
Import String.

(** At [int] with 32 bits. *)
Lemma stress_test_never_fails_witness :
  exists s out,
    test_gutter_retrieve_sum.stress_test (-2147483648) 2147483647 10
      (test_gutter_retrieve_sum.make (-2147483648) 2147483647
         (fun _ => None) (fun _ => of_Z (-2147483648) 2147483647 6) 3)
      [4; 7; 2; 9]%N []
      = Some (false, s, out) /\
    ~ In (test_gutter_retrieve_sum.Text "FAILURE") out /\
    (forall j, in_buffer 3 j ->
       heap (test_gutter_retrieve_sum.rsh s) j <> None) /\
    forall k, k < 3 ->
      test_gutter_retrieve_sum.values s k <> None /\
      gutter_retrieve.get (test_gutter_retrieve_sum.rsh s) k
      = test_gutter_retrieve_sum.values s k.
Proof.
  apply (stress_test_never_fails (-2147483648) 2147483647 ltac:(lia) 10
           (fun _ => None) (fun _ => of_Z (-2147483648) 2147483647 6) 3
           [4; 7; 2; 9]%N); cbn [List.length]; lia.
Defined.

End AtTheStressTest.
